(** * SoundManager: a shallow embedding of [src/services/SoundManager.ts]

    The singleton [SoundManager] is modelled by explicit state passing over
    a record [World] that holds
    - the private fields of the class,
    - the two object stores the class shares by reference (the [Sound]
      objects and the [HTMLAudioElement]s: a sound is reachable from
      [sounds], from [currentMusic] and from timer and [onended] closures;
      an audio element from [audioPool] and from every sound bound to it),
    - the part of the browser the class talks to (timers, clock,
      [visibilitychange] listeners, whether an [AudioContext] can be built),
    - observation traces ([console], [triggerEvent] calls, listener
      invocations, network requests).

    JavaScript numbers are modelled by rationals [Q]; the only arithmetic the
    class performs on them is [Math.max]/[Math.min], comparison with [0],
    sums of times and products of volumes.

    Outside the model: the audio graph built by [createMediaElementSource]
    and [connect] (only the gain and panner nodes kept in the [Sound] are
    modelled), the value a running ramp gives to [gain.value], the blob URL
    table ([revokeObjectURL]), the [HEAD] probes of [preloadSounds], and the
    bodies of event listeners, which are taken to return normally without
    calling back into the engine. *)

From Stdlib Require Import QArith Lqa Lia Ascii.
From stdpp Require Import base list strings.

Close Scope Q_scope.
Open Scope string_scope.
Open Scope list_scope.
Open Scope nat_scope.

(** ** Numbers *)

Definition Math_min (a b : Q) : Q := if Qle_bool a b then a else b.
Definition Math_max (a b : Q) : Q := if Qle_bool a b then b else a.

(** [x > 0] on a JavaScript number. *)
Definition positive_number (x : Q) : bool := negb (Qle_bool x 0).

(** [o !== undefined ? o : d] *)
Definition or_default {A} (o : option A) (d : A) : A :=
  match o with Some x => x | None => d end.

(** ** Data model *)

Module SoundOptions.
Record t := mk {
    volume : option Q;
    loop : option bool;
    playbackRate : option Q;
    pan : option Q;
    distance : option Q;
    fadeIn : option Q;
    fadeOut : option Q
  }.
  (** The literal [{}]. *)
Definition empty : t := mk None None None None None None None.
  (** The literal [{ fadeOut: x }] where [x] may be [undefined]. *)
Definition only_fadeOut (x : option Q) : t := mk None None None None None None x.
End SoundOptions.

(** Calls recorded on [gain.gain] (an [AudioParam]). *)
Inductive AutomationEvent :=
| SetValueAtTime (v t : Q)
| LinearRampToValueAtTime (v t : Q).


Module GainNode.
  (** [value] is the last value assigned to [gain.value]; [events] is the
      automation timeline, oldest first.  Nothing in the class ever calls
      [cancelScheduledValues]. *)
Record t := mk { value : Q; events : list AutomationEvent }.
End GainNode.

Module PannerNode.
Record t := mk { pan : Q }.
End PannerNode.

(** The blob URL made by [URL.createObjectURL(new Blob([buffer], {type}))]. *)
Record ObjectURL := mkObjectURL { blob_bytes : list Byte.byte; blob_type : string }.

(** The closure assigned to [audio.onended] by [play]: it captures the
    [sound] object, [id] and the constant [loop]. *)
Record EndedHandler := mkEnded { ended_sound : nat; ended_id : string; ended_loop : bool }.

Module Audio.
  (** An [HTMLAudioElement]. [onerror] holds the [id] captured by the
      closure installed in [loadSound]. *)
Record t := mk {
    paused : bool;
    currentTime : Q;
    src : option ObjectURL;
    loop : bool;
    playbackRate : Q;
    volume : Q;
    onended : option EndedHandler;
    onerror : option string
  }.
  (** [new Audio()] followed by [autoplay = false; preload = "none"]. *)
Definition fresh : t := mk true 0 None false 1 1 None None.

Definition set_paused (b : bool) (a : t) : t :=
    mk b (currentTime a) (src a) (loop a) (playbackRate a) (volume a) (onended a) (onerror a).
Definition set_currentTime (x : Q) (a : t) : t :=
    mk (paused a) x (src a) (loop a) (playbackRate a) (volume a) (onended a) (onerror a).
Definition set_src (x : option ObjectURL) (a : t) : t :=
    mk (paused a) (currentTime a) x (loop a) (playbackRate a) (volume a) (onended a) (onerror a).
Definition set_loop (x : bool) (a : t) : t :=
    mk (paused a) (currentTime a) (src a) x (playbackRate a) (volume a) (onended a) (onerror a).
Definition set_playbackRate (x : Q) (a : t) : t :=
    mk (paused a) (currentTime a) (src a) (loop a) x (volume a) (onended a) (onerror a).
Definition set_volume (x : Q) (a : t) : t :=
    mk (paused a) (currentTime a) (src a) (loop a) (playbackRate a) x (onended a) (onerror a).
Definition set_onended (x : option EndedHandler) (a : t) : t :=
    mk (paused a) (currentTime a) (src a) (loop a) (playbackRate a) (volume a) x (onerror a).
Definition set_onerror (x : option string) (a : t) : t :=
    mk (paused a) (currentTime a) (src a) (loop a) (playbackRate a) (volume a) (onended a) x.

  (** [audio.play()] and [audio.pause()] as far as the class observes them. *)
Definition play (a : t) : t := set_paused false a.
Definition pause (a : t) : t := set_paused true a.
End Audio.

Module Sound.
  (** [interface Sound]; [audio] is a reference into the audio store. *)
Record t := mk {
    id : string;
    audio : nat;
    isMusic : bool;
    options : SoundOptions.t;
    gain : option GainNode.t;
    panner : option PannerNode.t;
    isPlaying : bool;
    startTime : option Q;
    endTime : option Q
  }.

Definition set_options (x : SoundOptions.t) (s : t) : t :=
    mk (id s) (audio s) (isMusic s) x (gain s) (panner s) (isPlaying s) (startTime s) (endTime s).
Definition set_gain (x : option GainNode.t) (s : t) : t :=
    mk (id s) (audio s) (isMusic s) (options s) x (panner s) (isPlaying s) (startTime s) (endTime s).
Definition set_panner (x : option PannerNode.t) (s : t) : t :=
    mk (id s) (audio s) (isMusic s) (options s) (gain s) x (isPlaying s) (startTime s) (endTime s).
Definition set_isPlaying (x : bool) (s : t) : t :=
    mk (id s) (audio s) (isMusic s) (options s) (gain s) (panner s) x (startTime s) (endTime s).
Definition set_startTime (x : option Q) (s : t) : t :=
    mk (id s) (audio s) (isMusic s) (options s) (gain s) (panner s) (isPlaying s) x (endTime s).
Definition set_endTime (x : option Q) (s : t) : t :=
    mk (id s) (audio s) (isMusic s) (options s) (gain s) (panner s) (isPlaying s) (startTime s) x.
End Sound.

(** Payloads handed to event listeners. *)
Inductive Payload :=
| PSound (id : string) (isMusic : bool)          (* { id, isMusic } *)
| PError (id : string)                           (* { id, error } *)
| PVolume (channel : string) (volume : Q)        (* { channel, volume } *)
| PMute (channel : string) (muted : bool).       (* { channel, muted } *)

Record Event := mkEvent { ev_name : string; ev_data : Payload }.

Inductive LogLevel := LLog | LWarn | LError.
Record LogEntry := mkLog { log_level : LogLevel; log_text : string }.

(** The callback given to [setTimeout] by [stop]; it captures [sound]. *)
Record Timer := mkTimer { timer_due : Q; timer_sound : nat }.

Record AudioContext := mkContext { ctx_currentTime : Q }.

(** A [loadSound(id, url, isMusic)] call suspended at [await fetch(url)]. *)
Record PendingLoad := mkPending { pl_id : string; pl_url : string; pl_isMusic : bool }.

Definition maxPoolSize : nat := 20.

Record World := mkWorld {
  (* fields of the class *)
  audioContext : option AudioContext;
  sounds : list (string * nat);
  soundsCache : list (string * list Byte.byte);
  musicVolume : Q;
  sfxVolume : Q;
  isMusicMuted : bool;
  isSfxMuted : bool;
  currentMusic : option nat;
  audioPool : list nat;
  eventListeners : list (string * list nat);
  isInitialized : bool;
  (* object stores *)
  soundObjs : list Sound.t;
  audioObjs : list Audio.t;
  (* browser *)
  timers : list Timer;
  pendingLoads : list PendingLoad;
  clock : Q;
  visibilityListeners : nat;
  contextAvailable : bool;
  (* traces *)
  console : list LogEntry;
  triggered : list Event;
  delivered : list (nat * Event);
  fetched : list string
}.

(** Field updates ([this.f = x]). *)

Definition set_audioContext (x : option AudioContext) (w : World) : World :=
  mkWorld x (sounds w) (soundsCache w) (musicVolume w) (sfxVolume w) (isMusicMuted w)
    (isSfxMuted w) (currentMusic w) (audioPool w) (eventListeners w) (isInitialized w)
    (soundObjs w) (audioObjs w) (timers w) (pendingLoads w) (clock w) (visibilityListeners w)
    (contextAvailable w) (console w) (triggered w) (delivered w) (fetched w).
Definition set_sounds (x : list (string * nat)) (w : World) : World :=
  mkWorld (audioContext w) x (soundsCache w) (musicVolume w) (sfxVolume w) (isMusicMuted w)
    (isSfxMuted w) (currentMusic w) (audioPool w) (eventListeners w) (isInitialized w)
    (soundObjs w) (audioObjs w) (timers w) (pendingLoads w) (clock w) (visibilityListeners w)
    (contextAvailable w) (console w) (triggered w) (delivered w) (fetched w).
Definition set_soundsCache (x : list (string * list Byte.byte)) (w : World) : World :=
  mkWorld (audioContext w) (sounds w) x (musicVolume w) (sfxVolume w) (isMusicMuted w)
    (isSfxMuted w) (currentMusic w) (audioPool w) (eventListeners w) (isInitialized w)
    (soundObjs w) (audioObjs w) (timers w) (pendingLoads w) (clock w) (visibilityListeners w)
    (contextAvailable w) (console w) (triggered w) (delivered w) (fetched w).
Definition set_musicVolume (x : Q) (w : World) : World :=
  mkWorld (audioContext w) (sounds w) (soundsCache w) x (sfxVolume w) (isMusicMuted w)
    (isSfxMuted w) (currentMusic w) (audioPool w) (eventListeners w) (isInitialized w)
    (soundObjs w) (audioObjs w) (timers w) (pendingLoads w) (clock w) (visibilityListeners w)
    (contextAvailable w) (console w) (triggered w) (delivered w) (fetched w).
Definition set_sfxVolume (x : Q) (w : World) : World :=
  mkWorld (audioContext w) (sounds w) (soundsCache w) (musicVolume w) x (isMusicMuted w)
    (isSfxMuted w) (currentMusic w) (audioPool w) (eventListeners w) (isInitialized w)
    (soundObjs w) (audioObjs w) (timers w) (pendingLoads w) (clock w) (visibilityListeners w)
    (contextAvailable w) (console w) (triggered w) (delivered w) (fetched w).
Definition set_isMusicMuted (x : bool) (w : World) : World :=
  mkWorld (audioContext w) (sounds w) (soundsCache w) (musicVolume w) (sfxVolume w) x
    (isSfxMuted w) (currentMusic w) (audioPool w) (eventListeners w) (isInitialized w)
    (soundObjs w) (audioObjs w) (timers w) (pendingLoads w) (clock w) (visibilityListeners w)
    (contextAvailable w) (console w) (triggered w) (delivered w) (fetched w).
Definition set_isSfxMuted (x : bool) (w : World) : World :=
  mkWorld (audioContext w) (sounds w) (soundsCache w) (musicVolume w) (sfxVolume w)
    (isMusicMuted w) x (currentMusic w) (audioPool w) (eventListeners w) (isInitialized w)
    (soundObjs w) (audioObjs w) (timers w) (pendingLoads w) (clock w) (visibilityListeners w)
    (contextAvailable w) (console w) (triggered w) (delivered w) (fetched w).
Definition set_currentMusic (x : option nat) (w : World) : World :=
  mkWorld (audioContext w) (sounds w) (soundsCache w) (musicVolume w) (sfxVolume w)
    (isMusicMuted w) (isSfxMuted w) x (audioPool w) (eventListeners w) (isInitialized w)
    (soundObjs w) (audioObjs w) (timers w) (pendingLoads w) (clock w) (visibilityListeners w)
    (contextAvailable w) (console w) (triggered w) (delivered w) (fetched w).
Definition set_audioPool (x : list nat) (w : World) : World :=
  mkWorld (audioContext w) (sounds w) (soundsCache w) (musicVolume w) (sfxVolume w)
    (isMusicMuted w) (isSfxMuted w) (currentMusic w) x (eventListeners w) (isInitialized w)
    (soundObjs w) (audioObjs w) (timers w) (pendingLoads w) (clock w) (visibilityListeners w)
    (contextAvailable w) (console w) (triggered w) (delivered w) (fetched w).
Definition set_eventListeners (x : list (string * list nat)) (w : World) : World :=
  mkWorld (audioContext w) (sounds w) (soundsCache w) (musicVolume w) (sfxVolume w)
    (isMusicMuted w) (isSfxMuted w) (currentMusic w) (audioPool w) x (isInitialized w)
    (soundObjs w) (audioObjs w) (timers w) (pendingLoads w) (clock w) (visibilityListeners w)
    (contextAvailable w) (console w) (triggered w) (delivered w) (fetched w).
Definition set_isInitialized (x : bool) (w : World) : World :=
  mkWorld (audioContext w) (sounds w) (soundsCache w) (musicVolume w) (sfxVolume w)
    (isMusicMuted w) (isSfxMuted w) (currentMusic w) (audioPool w) (eventListeners w) x
    (soundObjs w) (audioObjs w) (timers w) (pendingLoads w) (clock w) (visibilityListeners w)
    (contextAvailable w) (console w) (triggered w) (delivered w) (fetched w).
Definition set_soundObjs (x : list Sound.t) (w : World) : World :=
  mkWorld (audioContext w) (sounds w) (soundsCache w) (musicVolume w) (sfxVolume w)
    (isMusicMuted w) (isSfxMuted w) (currentMusic w) (audioPool w) (eventListeners w)
    (isInitialized w) x (audioObjs w) (timers w) (pendingLoads w) (clock w)
    (visibilityListeners w) (contextAvailable w) (console w) (triggered w) (delivered w)
    (fetched w).
Definition set_audioObjs (x : list Audio.t) (w : World) : World :=
  mkWorld (audioContext w) (sounds w) (soundsCache w) (musicVolume w) (sfxVolume w)
    (isMusicMuted w) (isSfxMuted w) (currentMusic w) (audioPool w) (eventListeners w)
    (isInitialized w) (soundObjs w) x (timers w) (pendingLoads w) (clock w)
    (visibilityListeners w) (contextAvailable w) (console w) (triggered w) (delivered w)
    (fetched w).
Definition set_timers (x : list Timer) (w : World) : World :=
  mkWorld (audioContext w) (sounds w) (soundsCache w) (musicVolume w) (sfxVolume w)
    (isMusicMuted w) (isSfxMuted w) (currentMusic w) (audioPool w) (eventListeners w)
    (isInitialized w) (soundObjs w) (audioObjs w) x (pendingLoads w) (clock w)
    (visibilityListeners w) (contextAvailable w) (console w) (triggered w) (delivered w)
    (fetched w).
Definition set_pendingLoads (x : list PendingLoad) (w : World) : World :=
  mkWorld (audioContext w) (sounds w) (soundsCache w) (musicVolume w) (sfxVolume w)
    (isMusicMuted w) (isSfxMuted w) (currentMusic w) (audioPool w) (eventListeners w)
    (isInitialized w) (soundObjs w) (audioObjs w) (timers w) x (clock w) (visibilityListeners
    w) (contextAvailable w) (console w) (triggered w) (delivered w) (fetched w).
Definition set_clock (x : Q) (w : World) : World :=
  mkWorld (audioContext w) (sounds w) (soundsCache w) (musicVolume w) (sfxVolume w)
    (isMusicMuted w) (isSfxMuted w) (currentMusic w) (audioPool w) (eventListeners w)
    (isInitialized w) (soundObjs w) (audioObjs w) (timers w) (pendingLoads w) x
    (visibilityListeners w) (contextAvailable w) (console w) (triggered w) (delivered w)
    (fetched w).
Definition set_visibilityListeners (x : nat) (w : World) : World :=
  mkWorld (audioContext w) (sounds w) (soundsCache w) (musicVolume w) (sfxVolume w)
    (isMusicMuted w) (isSfxMuted w) (currentMusic w) (audioPool w) (eventListeners w)
    (isInitialized w) (soundObjs w) (audioObjs w) (timers w) (pendingLoads w) (clock w) x
    (contextAvailable w) (console w) (triggered w) (delivered w) (fetched w).
Definition set_contextAvailable (x : bool) (w : World) : World :=
  mkWorld (audioContext w) (sounds w) (soundsCache w) (musicVolume w) (sfxVolume w)
    (isMusicMuted w) (isSfxMuted w) (currentMusic w) (audioPool w) (eventListeners w)
    (isInitialized w) (soundObjs w) (audioObjs w) (timers w) (pendingLoads w) (clock w)
    (visibilityListeners w) x (console w) (triggered w) (delivered w) (fetched w).
Definition set_console (x : list LogEntry) (w : World) : World :=
  mkWorld (audioContext w) (sounds w) (soundsCache w) (musicVolume w) (sfxVolume w)
    (isMusicMuted w) (isSfxMuted w) (currentMusic w) (audioPool w) (eventListeners w)
    (isInitialized w) (soundObjs w) (audioObjs w) (timers w) (pendingLoads w) (clock w)
    (visibilityListeners w) (contextAvailable w) x (triggered w) (delivered w) (fetched w).
Definition set_triggered (x : list Event) (w : World) : World :=
  mkWorld (audioContext w) (sounds w) (soundsCache w) (musicVolume w) (sfxVolume w)
    (isMusicMuted w) (isSfxMuted w) (currentMusic w) (audioPool w) (eventListeners w)
    (isInitialized w) (soundObjs w) (audioObjs w) (timers w) (pendingLoads w) (clock w)
    (visibilityListeners w) (contextAvailable w) (console w) x (delivered w) (fetched w).
Definition set_delivered (x : list (nat * Event)) (w : World) : World :=
  mkWorld (audioContext w) (sounds w) (soundsCache w) (musicVolume w) (sfxVolume w)
    (isMusicMuted w) (isSfxMuted w) (currentMusic w) (audioPool w) (eventListeners w)
    (isInitialized w) (soundObjs w) (audioObjs w) (timers w) (pendingLoads w) (clock w)
    (visibilityListeners w) (contextAvailable w) (console w) (triggered w) x (fetched w).
Definition set_fetched (x : list string) (w : World) : World :=
  mkWorld (audioContext w) (sounds w) (soundsCache w) (musicVolume w) (sfxVolume w)
    (isMusicMuted w) (isSfxMuted w) (currentMusic w) (audioPool w) (eventListeners w)
    (isInitialized w) (soundObjs w) (audioObjs w) (timers w) (pendingLoads w) (clock w)
    (visibilityListeners w) (contextAvailable w) (console w) (triggered w) (delivered w) x.

(** The state after [new SoundManager()] in a browser where building an
    [AudioContext] succeeds or not according to [available]. *)
Definition new_manager (available : bool) : World :=
  mkWorld None [] [] 1 1 false false None [] [] false [] [] [] [] 0 0 available [] [] [] [].

(** ** JavaScript [Map] with string keys, in insertion order *)

Fixpoint map_get {V} (k : string) (m : list (string * V)) : option V :=
  match m with
  | [] => None
  | (k', v) :: m' => if String.eqb k' k then Some v else map_get k m'
  end.

Fixpoint map_set {V} (k : string) (v : V) (m : list (string * V)) : list (string * V) :=
  match m with
  | [] => [(k, v)]
  | (k', v') :: m' => if String.eqb k' k then (k', v) :: m' else (k', v') :: map_set k v m'
  end.

Definition map_has {V} (k : string) (m : list (string * V)) : bool :=
  match map_get k m with Some _ => true | None => false end.

(** ** Object stores *)

Definition modSound (r : nat) (f : Sound.t -> Sound.t) (w : World) : World :=
  set_soundObjs (alter f r (soundObjs w)) w.

Definition modAudio (a : nat) (f : Audio.t -> Audio.t) (w : World) : World :=
  set_audioObjs (alter f a (audioObjs w)) w.

Definition getSound (w : World) (r : nat) : option Sound.t := soundObjs w !! r.
Definition getAudio (w : World) (a : nat) : option Audio.t := audioObjs w !! a.

(** [new] of a [Sound] literal: the object gets the next free reference. *)
Definition allocSound (s : Sound.t) (w : World) : World * nat :=
  (set_soundObjs (soundObjs w ++ [s]) w, length (soundObjs w)).

(** ** Console and event bus *)

Definition console_write (l : LogLevel) (text : string) (w : World) : World :=
  set_console (console w ++ [mkLog l text]) w.

(** [triggerEvent]: every call is recorded in [triggered]; each listener
    registered for [event] is invoked in registration order, which is
    recorded in [delivered].  A listener is a handle: what it does is outside
    the class, and the [catch] around its call is not exercised. *)
Definition triggerEvent (event : string) (data : Payload) (w : World) : World :=
  let w := set_triggered (triggered w ++ [mkEvent event data]) w in
  match map_get event (eventListeners w) with
  | None => w
  | Some listeners =>
      set_delivered (delivered w ++ map (fun l => (l, mkEvent event data)) listeners) w
  end.

Definition on (event : string) (callback : nat) (w : World) : World :=
  let w := if map_has event (eventListeners w) then w
           else set_eventListeners (map_set event [] (eventListeners w)) w in
  match map_get event (eventListeners w) with
  | Some listeners => set_eventListeners (map_set event (listeners ++ [callback]) (eventListeners w)) w
  | None => w
  end.

(** [listeners.splice(listeners.indexOf(callback), 1)] *)
Fixpoint remove_first (callback : nat) (listeners : list nat) : list nat :=
  match listeners with
  | [] => []
  | l :: ls => if Nat.eqb l callback then ls else l :: remove_first callback ls
  end.

Definition off (event : string) (callback : nat) (w : World) : World :=
  match map_get event (eventListeners w) with
  | None => w
  | Some listeners =>
      set_eventListeners (map_set event (remove_first callback listeners) (eventListeners w)) w
  end.

(** ** Voice pool *)

Definition createPooledAudio (w : World) : World * nat :=
  let a := length (audioObjs w) in
  let w := set_audioObjs (audioObjs w ++ [Audio.fresh]) w in
  (set_audioPool (audioPool w ++ [a]) w, a).

(** [audio.paused] for a reference in the pool. *)
Definition audio_paused (w : World) (a : nat) : bool :=
  match getAudio w a with Some o => Audio.paused o | None => false end.

Definition getAudioFromPool (w : World) : World * nat :=
  match find (audio_paused w) (audioPool w) with
  | Some a => (w, a)
  | None =>
      if length (audioPool w) <? maxPoolSize then createPooledAudio w
      else match audioPool w with
           | a :: rest => (set_audioPool (rest ++ [a]) (modAudio a Audio.pause w), a)
           | [] => createPooledAudio w (* not reached: 0 < maxPoolSize *)
           end
  end.

(** ** Initialisation *)

Definition init (w : World) : World :=
  if isInitialized w then w
  else
    let w :=
      if contextAvailable w then
        console_write LLog "Sound Manager initialized"
          (set_isInitialized true (set_audioContext (Some (mkContext 0)) w))
      else console_write LError "Failed to initialize AudioContext" w in
    let w := Nat.iter 5 (fun w => fst (createPooledAudio w)) w in
    set_visibilityListeners (S (visibilityListeners w)) w.

Definition ensureInitialized (w : World) : World * bool :=
  let w := if isInitialized w then w else init w in
  (w, isInitialized w && match audioContext w with Some _ => true | None => false end).

(** ** Loading *)

(** [url.split('.').pop()]: the text after the last dot. *)
Fixpoint last_segment (acc s : string) : string :=
  match s with
  | EmptyString => acc
  | String c s' =>
      if Ascii.eqb c "."%char then last_segment EmptyString s'
      else last_segment (String.append acc (String c EmptyString)) s'
  end.

Definition lower_ascii (c : ascii) : ascii :=
  let n := Ascii.nat_of_ascii c in
  if (65 <=? n) && (n <=? 90) then Ascii.ascii_of_nat (n + 32) else c.

Fixpoint toLowerCase (s : string) : string :=
  match s with
  | EmptyString => EmptyString
  | String c s' => String (lower_ascii c) (toLowerCase s')
  end.

Definition getMimeType (url : string) : string :=
  let extension := toLowerCase (last_segment EmptyString url) in
  if String.eqb extension "mp3" then "audio/mpeg"
  else if String.eqb extension "wav" then "audio/wav"
  else if String.eqb extension "ogg" then "audio/ogg"
  else if String.eqb extension "m4a" then "audio/mp4"
  else if String.eqb extension "webm" then "audio/webm"
  else "audio/mpeg".

(** The statements shared by the two branches of [loadSound] (lines
    172-190 and 203-221): take an audio element from the pool, point it at
    a blob of the bytes, install the error handler, build the [Sound]
    literal and store it under [id]. *)
Definition registerSound (id url : string) (isMusic : bool) (buffer : list Byte.byte)
    (w : World) : World * nat :=
  let '(w, audio) := getAudioFromPool w in
  let mimeType := getMimeType url in
  let w := modAudio audio (Audio.set_src (Some (mkObjectURL buffer mimeType))) w in
  let w := modAudio audio (Audio.set_onerror (Some id)) w in
  let sound := Sound.mk id audio isMusic SoundOptions.empty None None false None None in
  let '(w, r) := allocSound sound w in
  (set_sounds (map_set id r (sounds w)) w, r).

(** [loadSound] is an [async] function: it runs up to its first [await]
    and is resumed when [fetch(url)] and [response.arrayBuffer()] settle.
    [fetched] records the [fetch] calls, [pendingLoads] the suspended
    calls. *)
Inductive LoadStep :=
| LoadReturned (result : option nat)
| LoadAwaitsFetch.

Inductive FetchResult :=
| FetchBody (arrayBuffer : list Byte.byte)
| FetchRejected.

Definition loadSound_begin (id url : string) (isMusic : bool) (w : World) : World * LoadStep :=
  let '(w, ok) := ensureInitialized w in
  if negb ok then (w, LoadReturned None)
  else
    match map_get id (sounds w) with
    | Some r => (w, LoadReturned (Some r))
    | None =>
        match map_get url (soundsCache w) with
        | Some cachedBuffer =>
            let '(w, r) := registerSound id url isMusic cachedBuffer w in
            (w, LoadReturned (Some r))
        | None =>
            let w := set_fetched (fetched w ++ [url]) w in
            (set_pendingLoads (pendingLoads w ++ [mkPending id url isMusic]) w, LoadAwaitsFetch)
        end
    end.

Definition loadSound_resume (id url : string) (isMusic : bool) (res : FetchResult)
    (w : World) : World * option nat :=
  match res with
  | FetchBody arrayBuffer =>
      let w := set_soundsCache (map_set url arrayBuffer (soundsCache w)) w in
      let '(w, r) := registerSound id url isMusic arrayBuffer w in
      (triggerEvent "load" (PSound id isMusic) w, Some r)
  | FetchRejected =>
      let w := console_write LError
                 (String.append "Failed to load sound "
                    (String.append id (String.append " from " (String.append url ":")))) w in
      (triggerEvent "error" (PError id) w, None)
  end.

(** ** Playback *)

Definition cleanupAudioNodes (r : nat) (w : World) : World :=
  modSound r (fun s => Sound.set_panner None (Sound.set_gain None s)) w.

(** The four statements of the immediate stop (lines 400-403), which are
    also the body of the fade-out timer (lines 393-396). *)
Definition stop_now (r : nat) (w : World) : World :=
  match getSound w r with
  | None => w
  | Some sound =>
      let w := modAudio (Sound.audio sound) Audio.pause w in
      let w := modAudio (Sound.audio sound) (Audio.set_currentTime 0) w in
      let w := modSound r (Sound.set_isPlaying false) w in
      cleanupAudioNodes r w
  end.

(** [options.fadeX && options.fadeX > 0] *)
Definition fade_requested (x : option Q) : bool :=
  match x with Some f => positive_number f | None => false end.

(** The [if]/[else] of [stop] (lines 386-404), for the sound object [r]
    found under [id]. *)
Definition stop_fade_or_now (r : nat) (sound : Sound.t) (options : SoundOptions.t)
    (w : World) : World :=
  match SoundOptions.fadeOut options, Sound.gain sound, audioContext w with
  | Some fadeOut, Some g, Some ctx =>
      if positive_number fadeOut then
        let startTime := ctx_currentTime ctx in
        let g := GainNode.mk (GainNode.value g)
                   (GainNode.events g ++
                      [SetValueAtTime (GainNode.value g) startTime;
                       LinearRampToValueAtTime 0 (Qplus startTime fadeOut)]) in
        let w := modSound r (Sound.set_gain (Some g)) w in
        set_timers (timers w ++ [mkTimer (Qplus (clock w) (Qmult fadeOut 1000)) r]) w
      else stop_now r w
  | _, _, _ => stop_now r w
  end.

(** The last statement of [stop] (lines 406-409):
    [if (this.currentMusic?.id === id) this.currentMusic = null]. *)
Definition clear_currentMusic_if (id : string) (w : World) : World :=
  match currentMusic w with
  | Some cr =>
      match getSound w cr with
      | Some cs => if String.eqb (Sound.id cs) id then set_currentMusic None w else w
      | None => w
      end
  | None => w
  end.

Definition stop (id : string) (options : SoundOptions.t) (w : World) : World :=
  match map_get id (sounds w) with
  | None => w
  | Some r =>
      match getSound w r with
      | None => w
      | Some sound => clear_currentMusic_if id (stop_fade_or_now r sound options w)
      end
  end.

Definition modGain (r : nat) (f : GainNode.t -> GainNode.t) (w : World) : World :=
  modSound r (fun s => Sound.set_gain (option_map f (Sound.gain s)) s) w.

Definition gain_set_value (v : Q) (g : GainNode.t) : GainNode.t :=
  GainNode.mk v (GainNode.events g).

Definition gain_schedule (e : AutomationEvent) (g : GainNode.t) : GainNode.t :=
  GainNode.mk (GainNode.value g) (GainNode.events g ++ [e]).

(** Lines 299-349 of [play]: volume and options, audio nodes, element
    properties, fade-in or plain start, and the new state of the sound
    object [r]. *)
Definition play_start (r : nat) (sound : Sound.t) (options : SoundOptions.t)
    (ctx : AudioContext) (w : World) : World :=
  let baseVolume := if Sound.isMusic sound then musicVolume w else sfxVolume w in
  let volume := Qmult (or_default (SoundOptions.volume options) 1%Q) baseVolume in
  let loop := or_default (SoundOptions.loop options) false in
  let playbackRate := or_default (SoundOptions.playbackRate options) 1%Q in
  let pan := or_default (SoundOptions.pan options) 0%Q in
  let audio := Sound.audio sound in
  let w := modSound r (Sound.set_gain (Some (GainNode.mk volume []))) w in
  let w := modSound r (Sound.set_panner (Some (PannerNode.mk pan))) w in
  let w := modAudio audio (Audio.set_loop loop) w in
  let w := modAudio audio (Audio.set_playbackRate playbackRate) w in
  let w := modAudio audio (Audio.set_volume volume) w in
  let w :=
    match SoundOptions.fadeIn options with
    | Some fadeIn =>
        if positive_number fadeIn then
          let w := modGain r (gain_set_value 0) w in
          let w := modAudio audio Audio.play w in
          let startTime := ctx_currentTime ctx in
          let w := modGain r (gain_schedule (SetValueAtTime 0 startTime)) w in
          modGain r (gain_schedule (LinearRampToValueAtTime volume (Qplus startTime fadeIn))) w
        else modAudio audio Audio.play w
    | None => modAudio audio Audio.play w
    end in
  let w := modSound r (Sound.set_isPlaying true) w in
  let w := modSound r (Sound.set_options options) w in
  modSound r (Sound.set_startTime (Some (clock w))) w.

(** Lines 353-357 of [play], for a music sound [r] registered as [id]:
    stop the current music if it is another track, then make [r] the
    current music. *)
Definition replace_currentMusic (r : nat) (id : string) (options : SoundOptions.t)
    (w : World) : World :=
  let w :=
    match currentMusic w with
    | Some cr =>
        match getSound w cr with
        | Some cs =>
            if negb (String.eqb (Sound.id cs) id) then
              stop (Sound.id cs) (SoundOptions.only_fadeOut (SoundOptions.fadeOut options)) w
            else w
        | None => w
        end
    | None => w
    end in
  set_currentMusic (Some r) w.

(** [play] is declared [async] but contains no [await]: it runs to
    completion within the call. *)
Definition play (id : string) (options : SoundOptions.t) (w : World) : World * option nat :=
  let '(w, ok) := ensureInitialized w in
  match ok, audioContext w with
  | true, Some ctx =>
      match map_get id (sounds w) with
      | None =>
          (console_write LWarn (String.append "Sound " (String.append id " not loaded")) w, None)
      | Some r =>
          match getSound w r with
          | None => (w, None) (* not reached: [sounds] holds live references *)
          | Some sound =>
              let isMusic := Sound.isMusic sound in
              if (isMusic && isMusicMuted w) || (negb isMusic && isSfxMuted w) then (w, None)
              else
                let w := play_start r sound options ctx w in
                let w := if isMusic then replace_currentMusic r id options w else w in
                let loop := or_default (SoundOptions.loop options) false in
                let w := modAudio (Sound.audio sound)
                           (Audio.set_onended (Some (mkEnded r id loop))) w in
                (triggerEvent "play" (PSound id isMusic) w, Some r)
          end
      end
  | _, _ => (w, None)
  end.

Definition pause (id : string) (w : World) : World :=
  match map_get id (sounds w) with
  | None => w
  | Some r =>
      match getSound w r with
      | None => w
      | Some sound =>
          if negb (Sound.isPlaying sound) then w
          else
            let w := modAudio (Sound.audio sound) Audio.pause w in
            let w := modSound r (Sound.set_isPlaying false) w in
            triggerEvent "pause" (PSound id (Sound.isMusic sound)) w
      end
  end.

Definition resume (id : string) (w : World) : World :=
  match map_get id (sounds w) with
  | None => w
  | Some r =>
      match getSound w r with
      | None => w
      | Some sound =>
          if Sound.isPlaying sound then w
          else
            let w := modAudio (Sound.audio sound) Audio.play w in
            let w := modSound r (Sound.set_isPlaying true) w in
            triggerEvent "resume" (PSound id (Sound.isMusic sound)) w
      end
  end.

(** ** Channel mixer *)

(** [this.sounds.forEach(body)] where the body does not change the map. *)
Definition sounds_forEach (body : string -> nat -> World -> World) (w : World) : World :=
  fold_left (fun w '(id, r) => body id r w) (sounds w) w.

Definition setMusicVolume (volume : Q) (w : World) : World :=
  let w := set_musicVolume (Math_max 0 (Math_min 1 volume)) w in
  let w :=
    match currentMusic w with
    | Some cr =>
        match getSound w cr with
        | Some cs =>
            modGain cr (gain_set_value
                          (Qmult (musicVolume w)
                             (or_default (SoundOptions.volume (Sound.options cs)) 1%Q))) w
        | None => w
        end
    | None => w
    end in
  triggerEvent "volumeChange" (PVolume "music" (musicVolume w)) w.

Definition setSfxVolume (volume : Q) (w : World) : World :=
  let w := set_sfxVolume (Math_max 0 (Math_min 1 volume)) w in
  let w :=
    sounds_forEach (fun _ r w =>
      match getSound w r with
      | Some sound =>
          if negb (Sound.isMusic sound) && Sound.isPlaying sound then
            modGain r (gain_set_value
                         (Qmult (sfxVolume w)
                            (or_default (SoundOptions.volume (Sound.options sound)) 1%Q))) w
          else w
      | None => w
      end) w in
  triggerEvent "volumeChange" (PVolume "sfx" (sfxVolume w)) w.

Definition toggleMusicMute (w : World) : World * bool :=
  let w := set_isMusicMuted (negb (isMusicMuted w)) w in
  let w :=
    match currentMusic w with
    | Some cr =>
        match getSound w cr with
        | Some cs =>
            if isMusicMuted w then modAudio (Sound.audio cs) Audio.pause w
            else modAudio (Sound.audio cs) Audio.play w
        | None => w
        end
    | None => w
    end in
  (triggerEvent "muteChange" (PMute "music" (isMusicMuted w)) w, isMusicMuted w).

Definition toggleSfxMute (w : World) : World * bool :=
  let w := set_isSfxMuted (negb (isSfxMuted w)) w in
  let w :=
    sounds_forEach (fun _ r w =>
      match getSound w r with
      | Some sound =>
          if negb (Sound.isMusic sound) && Sound.isPlaying sound then
            if isSfxMuted w then modAudio (Sound.audio sound) Audio.pause w
            else modAudio (Sound.audio sound) Audio.play w
          else w
      | None => w
      end) w in
  (triggerEvent "muteChange" (PMute "sfx" (isSfxMuted w)) w, isSfxMuted w).

Definition setMusicMute (muted : bool) (w : World) : World :=
  if Bool.eqb (isMusicMuted w) muted then w else fst (toggleMusicMute w).

Definition setSfxMute (muted : bool) (w : World) : World :=
  if Bool.eqb (isSfxMuted w) muted then w else fst (toggleSfxMute w).

(** ** Background and foreground *)

Definition handleBackgroundTransition (w : World) : World :=
  sounds_forEach (fun _ r w =>
    match getSound w r with
    | Some sound =>
        if Sound.isPlaying sound then modAudio (Sound.audio sound) Audio.pause w else w
    | None => w
    end) w.

Definition handleForegroundTransition (w : World) : World :=
  match currentMusic w with
  | Some cr =>
      match getSound w cr with
      | Some cs => if negb (isMusicMuted w) then modAudio (Sound.audio cs) Audio.play w else w
      | None => w
      end
  | None => w
  end.

(** ** Position, queries, disposal *)

Definition updatePosition (id : string) (pan distance : Q) (w : World) : World :=
  match map_get id (sounds w) with
  | None => w
  | Some r =>
      match getSound w r with
      | None => w
      | Some sound =>
          match Sound.panner sound with
          | None => w
          | Some _ =>
              let w := modSound r (Sound.set_panner
                                     (Some (PannerNode.mk (Math_max (-1) (Math_min 1 pan))))) w in
              if positive_number distance then
                let baseVolume := if Sound.isMusic sound then musicVolume w else sfxVolume w in
                let volumeScale := or_default (SoundOptions.volume (Sound.options sound)) 1%Q in
                let distanceFactor := Qdiv 1 (Qplus 1 (Qmult distance (1 # 10))) in
                modGain r (gain_set_value (Qmult (Qmult baseVolume volumeScale) distanceFactor)) w
              else w
          end
      end
  end.

Definition isPlaying (id : string) (w : World) : bool :=
  match map_get id (sounds w) with
  | Some r => match getSound w r with Some sound => Sound.isPlaying sound | None => false end
  | None => false
  end.

Definition hasSoundLoaded (id : string) (w : World) : bool := map_has id (sounds w).

Definition getCurrentMusic (w : World) : option string :=
  match currentMusic w with
  | Some cr => option_map Sound.id (getSound w cr)
  | None => None
  end.

(** [dispose]: revoking the blob URLs and closing the context leave no
    trace in the fields modelled; [audioPool], the volumes and the mute
    flags are not reset by the source. *)
Definition dispose (w : World) : World :=
  let w := sounds_forEach (fun id _ w => stop id SoundOptions.empty w) w in
  let w := set_sounds [] w in
  let w := set_soundsCache [] w in
  let w := set_eventListeners [] w in
  let w := set_audioContext None w in
  let w := set_currentMusic None w in
  set_isInitialized false w.

(** ** The browser's side *)

(** A [setTimeout] callback installed by [stop] runs once its delay has
    elapsed. *)
Definition timer_fires (n : nat) (w : World) : World :=
  match timers w !! n with
  | Some t =>
      if Qle_bool (timer_due t) (clock w) then
        stop_now (timer_sound t) (set_timers (delete n (timers w)) w)
      else w
  | None => w
  end.

(** Playback of a non-looping, unpaused element reaches the end of its
    media: the element becomes paused and its [onended] handler runs. *)
Definition audio_ends (a : nat) (w : World) : World :=
  match getAudio w a with
  | Some o =>
      if Audio.paused o || Audio.loop o then w
      else
        let w := modAudio a Audio.pause w in
        match Audio.onended o with
        | None => w
        | Some h =>
            let r := ended_sound h in
            let w := modSound r (Sound.set_isPlaying false) w in
            let w := modSound r (Sound.set_endTime (Some (clock w))) w in
            let isMusic := match getSound w r with Some s => Sound.isMusic s | None => false end in
            let w := triggerEvent "end" (PSound (ended_id h) isMusic) w in
            if negb (ended_loop h) then cleanupAudioNodes r w else w
        end
  | None => w
  end.

(** The element reports a media error: its [onerror] handler runs. *)
Definition audio_error (a : nat) (w : World) : World :=
  match getAudio w a with
  | Some o =>
      match Audio.onerror o with
      | Some id =>
          let w := console_write LError
                     (String.append "Error loading sound " (String.append id ":")) w in
          triggerEvent "error" (PError id) w
      | None => w
      end
  | None => w
  end.

(** [visibilitychange]: every listener added by an [init] call runs. *)
Definition visibility_change (hidden : bool) (w : World) : World :=
  Nat.iter (visibilityListeners w)
    (if hidden then handleBackgroundTransition else handleForegroundTransition) w.

(** [ms] milliseconds pass. *)
Definition time_passes (ms : Q) (w : World) : World :=
  let w := set_clock (Qplus (clock w) ms) w in
  match audioContext w with
  | Some ctx => set_audioContext (Some (mkContext (Qplus (ctx_currentTime ctx) (Qdiv ms 1000)))) w
  | None => w
  end.

(** The suspended [loadSound] call number [n] is resumed. *)
Definition fetch_settles (n : nat) (res : FetchResult) (w : World) : World :=
  match pendingLoads w !! n with
  | Some p =>
      fst (loadSound_resume (pl_id p) (pl_url p) (pl_isMusic p) res
             (set_pendingLoads (delete n (pendingLoads w)) w))
  | None => w
  end.

(** ** Runs of the engine *)

(** Calls of the public methods and events of the browser.
    [preloadSounds] is [loadSound] guarded by [HEAD] probes and is covered
    through [CallLoadSound]. *)
Inductive Op :=
| CallInit
| CallLoadSound (id url : string) (isMusic : bool)
| CallPlay (id : string) (options : SoundOptions.t)
| CallStop (id : string) (options : SoundOptions.t)
| CallPause (id : string)
| CallResume (id : string)
| CallSetMusicVolume (volume : Q)
| CallSetSfxVolume (volume : Q)
| CallToggleMusicMute
| CallToggleSfxMute
| CallSetMusicMute (muted : bool)
| CallSetSfxMute (muted : bool)
| CallOn (event : string) (callback : nat)
| CallOff (event : string) (callback : nat)
| CallUpdatePosition (id : string) (pan distance : Q)
| CallDispose
| FetchSettles (n : nat) (res : FetchResult)
| TimerFires (n : nat)
| AudioEnds (a : nat)
| AudioError (a : nat)
| VisibilityChange (hidden : bool)
| TimePasses (ms : Q).

Definition step (op : Op) (w : World) : World :=
  match op with
  | CallInit => init w
  | CallLoadSound id url isMusic => fst (loadSound_begin id url isMusic w)
  | CallPlay id options => fst (play id options w)
  | CallStop id options => stop id options w
  | CallPause id => pause id w
  | CallResume id => resume id w
  | CallSetMusicVolume v => setMusicVolume v w
  | CallSetSfxVolume v => setSfxVolume v w
  | CallToggleMusicMute => fst (toggleMusicMute w)
  | CallToggleSfxMute => fst (toggleSfxMute w)
  | CallSetMusicMute m => setMusicMute m w
  | CallSetSfxMute m => setSfxMute m w
  | CallOn e c => on e c w
  | CallOff e c => off e c w
  | CallUpdatePosition id pan distance => updatePosition id pan distance w
  | CallDispose => dispose w
  | FetchSettles n res => fetch_settles n res w
  | TimerFires n => timer_fires n w
  | AudioEnds a => audio_ends a w
  | AudioError a => audio_error a w
  | VisibilityChange hidden => visibility_change hidden w
  | TimePasses ms => time_passes ms w
  end.

Definition run (ops : list Op) (w : World) : World := fold_left (fun w op => step op w) ops w.

(** States the engine can be in: any run from a fresh manager. *)
Definition reachable (w : World) : Prop :=
  exists available ops, w = run ops (new_manager available).

(** ** Small runs, evaluated *)

Definition bytes_a : list Byte.byte := [Byte.x01; Byte.x02].

Definition two_tracks : World :=
  run [CallInit;
       CallLoadSound "m1" "/m1.mp3" true; FetchSettles 0 (FetchBody bytes_a);
       CallPlay "m1" SoundOptions.empty;
       CallLoadSound "m2" "/m2.mp3" true; FetchSettles 0 (FetchBody bytes_a)]
      (new_manager true).


(** ** Runs of the voice pool *)

(** [Acquire] is a call of [getAudioFromPool]; between calls a voice may
    start ([audio.play()]) or come to rest ([audio.pause()], or the end of
    its media).  The second component lists the voices handed out, oldest
    first. *)
Inductive PoolOp :=
| Acquire
| VoicePlays (a : nat)
| VoiceStops (a : nat).

Definition pool_step (op : PoolOp) (st : World * list nat) : World * list nat :=
  let '(w, returned) := st in
  match op with
  | Acquire => let '(w', a) := getAudioFromPool w in (w', returned ++ [a])
  | VoicePlays a => (modAudio a Audio.play w, returned)
  | VoiceStops a => (modAudio a Audio.pause w, returned)
  end.

Definition pool_run (ops : list PoolOp) (st : World * list nat) : World * list nat :=
  fold_left (fun st op => pool_step op st) ops st.

(** What a call of [getAudioFromPool] in [w] can do. *)
Inductive acquire_outcome (w : World) : World -> nat -> Prop :=
| reuse_idle before a after :
    audioPool w = before ++ a :: after ->
    audio_paused w a = true ->
    Forall (fun b => audio_paused w b = false) before ->
    acquire_outcome w w a
| create_new :
    Forall (fun b => audio_paused w b = false) (audioPool w) ->
    length (audioPool w) < maxPoolSize ->
    acquire_outcome w
      (set_audioPool (audioPool w ++ [length (audioObjs w)])
         (set_audioObjs (audioObjs w ++ [Audio.fresh]) w))
      (length (audioObjs w))
| evict_front a rest :
    Forall (fun b => audio_paused w b = false) (audioPool w) ->
    maxPoolSize <= length (audioPool w) ->
    audioPool w = a :: rest ->
    acquire_outcome w (set_audioPool (rest ++ [a]) (modAudio a Audio.pause w)) a.

(** Position in [returned] of the latest hand-out of voice [a]. *)
Fixpoint last_return_from (i a : nat) (returned : list nat) : option nat :=
  match returned with
  | [] => None
  | b :: rest =>
      match last_return_from (S i) a rest with
      | Some j => Some j
      | None => if Nat.eqb a b then Some i else None
      end
  end.

Definition last_return (a : nat) (returned : list nat) : option nat :=
  last_return_from 0 a returned.

(** [a] was last handed out no later than [b]. *)
Definition returned_no_later (returned : list nat) (a b : nat) : Prop :=
  match last_return a returned, last_return b returned with
  | Some i, Some j => i <= j
  | _, _ => True
  end.

(** The reading "the evicted voice is the least recently returned one". *)
Definition evicts_least_recently_returned : Prop :=
  forall ops w returned,
    pool_run ops (new_manager true, []) = (w, returned) ->
    find (audio_paused w) (audioPool w) = None ->
    maxPoolSize <= length (audioPool w) ->
    forall b, In b (audioPool w) ->
      returned_no_later returned (snd (getAudioFromPool w)) b.

(** Twenty voices are created and started; voice 0 comes to rest, is handed
    out again and restarted; the next call finds the pool full and busy. *)
Definition busy_pool_ops : list PoolOp :=
  flat_map (fun i => [Acquire; VoicePlays i]) (seq 0 20)
    ++ [VoiceStops 0; Acquire; VoicePlays 0].

(** ** Vocabulary of the properties *)

(** The sound registered under [id], if any. *)
Definition registered (w : World) (id : string) : option Sound.t :=
  match map_get id (sounds w) with
  | Some r => getSound w r
  | None => None
  end.

(** Identifiers of the registered sounds that are music and [Playing]. *)
Definition playing_music (w : World) : list string :=
  map fst (List.filter (fun '(id, r) =>
                          match getSound w r with
                          | Some s => Sound.isMusic s && Sound.isPlaying s
                          | None => false
                          end) (sounds w)).







(** [clamp(v, 0, 1)] *)
Definition clamp01 (v : Q) : Q :=
  if Qle_bool v 0 then 0%Q else if Qle_bool 1 v then 1%Q else v.

(** The effective volume of a sound on a channel of volume [channel]. *)
Definition effective_volume (channel : Q) (s : Sound.t) : Q :=
  Qmult channel (or_default (SoundOptions.volume (Sound.options s)) 1%Q).

(** The gain of the sound carries its effective volume. *)
Definition volume_applied (channel : Q) (s : Sound.t) : Prop :=
  exists g, Sound.gain s = Some g /\ GainNode.value g = effective_volume channel s.

Definition opts_fadeIn (x : Q) : SoundOptions.t :=
  SoundOptions.mk None None None None None (Some x) None.

Definition opts_fadeOut (x : Q) : SoundOptions.t :=
  SoundOptions.only_fadeOut (Some x).

(** ** Small runs *)


(** Two [loadSound] calls for one URL, the second before the first
    fetch has settled. *)
Definition concurrent_loads : World :=
  run [CallInit; CallLoadSound "x" "/x.mp3" false; CallLoadSound "x" "/x.mp3" false]
      (new_manager true).

(** A music track and an effect, each loaded while the other was
    playing, so that they are bound to different audio elements. *)
Definition music_and_effect : World :=
  run [CallInit;
       CallLoadSound "m1" "/m1.mp3" true; FetchSettles 0 (FetchBody bytes_a);
       CallPlay "m1" SoundOptions.empty;
       CallLoadSound "s1" "/s1.wav" false; FetchSettles 0 (FetchBody bytes_a);
       CallPlay "s1" SoundOptions.empty]
      (new_manager true).


(** An effect is played, stopped and resumed, then the channel volume is
    halved. *)
Definition resumed_effect : World :=
  run [CallInit;
       CallLoadSound "s1" "/s1.wav" false; FetchSettles 0 (FetchBody bytes_a);
       CallPlay "s1" SoundOptions.empty;
       CallStop "s1" SoundOptions.empty;
       CallResume "s1";
       CallSetSfxVolume (1 # 2)]
      (new_manager true).

(** A track is loaded and the music channel muted. *)
Definition muted_track : World :=
  run [CallInit;
       CallLoadSound "m1" "/m1.mp3" true; FetchSettles 0 (FetchBody bytes_a);
       CallSetMusicMute true]
      (new_manager true).






(** The sound [s] once the channel volume [channel] has been written to
    its gain node, if it has one. *)
Definition reapplied (channel : Q) (s : Sound.t) : Sound.t :=
  Sound.set_gain (option_map (gain_set_value (effective_volume channel s)) (Sound.gain s)) s.

(** Every reference in the pool designates an audio element. *)
Definition pool_live (w : World) : Prop :=
  Forall (fun a => is_Some (getAudio w a)) (audioPool w).

(** Number of [fetch(url)] calls made so far. *)
Definition fetches_of (url : string) (w : World) : nat :=
  length (List.filter (String.eqb url) (fetched w)).

(** ** The single-music invariant *)

(** What the invariant reads of a sound object. *)
Definition flags (s : Sound.t) : string * bool * bool :=
  (Sound.id s, Sound.isMusic s, Sound.isPlaying s).

Definition flagsOf (w : World) (r : nat) : option (string * bool * bool) :=
  flags <$> getSound w r.







(** After [m2] has replaced [m1] without a fade, [m1] is resumed. *)
Definition resumed_old_track : World :=
  run [CallPlay "m2" SoundOptions.empty; CallResume "m1"] two_tracks.

(** [m1] is stopped with a fade-out and, before the fade timer fires,
    [m2] is played without any fade. *)
Definition played_during_fading_stop : World :=
  run [CallStop "m1" (opts_fadeOut 1); CallPlay "m2" SoundOptions.empty] two_tracks.

(** ** Live references *)

(** The audio element a sound object is bound to. *)
Definition audioOf (w : World) (r : nat) : option nat := Sound.audio <$> getSound w r.

(** Every reference held by the engine designates an object: registry
    entries designate sound objects, sound objects and the pool designate
    audio elements. *)
Definition heap_ok (w : World) : Prop :=
  (forall id r, map_get id (sounds w) = Some r -> is_Some (audioOf w r))
  /\ (forall r a, audioOf w r = Some a -> a < length (audioObjs w))
  /\ Forall (fun a => a < length (audioObjs w)) (audioPool w).

(** [w'] has the registry, the pool, the number of audio elements and the
    sound-to-element bindings of [w]. *)
Definition same_heap (w w' : World) : Prop :=
  sounds w' = sounds w /\ audioPool w' = audioPool w
  /\ length (audioObjs w') = length (audioObjs w)
  /\ forall r, audioOf w' r = audioOf w r.

(** A track and an effect loaded one after the other while nothing is
    playing; both are played, the page is hidden and shown again. *)
Definition shared_voice : World :=
  run [CallInit;
       CallLoadSound "m1" "/m1.mp3" true; FetchSettles 0 (FetchBody bytes_a);
       CallLoadSound "s1" "/s1.wav" false; FetchSettles 0 (FetchBody bytes_a);
       CallPlay "m1" SoundOptions.empty; CallPlay "s1" SoundOptions.empty;
       VisibilityChange true; VisibilityChange false]
      (new_manager true).

(** The engine is initialised and disposed five times over. *)
Definition reinitialised : World :=
  run (flat_map (fun _ => [CallInit; CallDispose]) (seq 0 5)) (new_manager true).

(** * The rest of the engine and its callers *)

(** ** Format selection *)

(** [canPlayType]: [answer] is the string the browser's
    [audio.canPlayType(type)] returns ([''], ['maybe'] or ['probably']). *)
Definition canPlayType (answer : string -> string) (type : string) : bool :=
  negb (String.eqb (answer type) EmptyString).

(** The [for] loop of [getSupportedFormat]. *)
Fixpoint getSupportedFormat (answer : string -> string) (formats : list string)
    : option string :=
  match formats with
  | [] => None
  | format :: rest =>
      let mimeType := getMimeType format in
      if canPlayType answer mimeType then Some format
      else getSupportedFormat answer rest
  end.

(** ** Vocabulary of the event bus *)

(** The callbacks registered for [event], in registration order. *)
Definition listeners_of (event : string) (w : World) : list nat :=
  or_default (map_get event (eventListeners w)) [].

(** What [triggerEvent event data] hands to the callbacks [ls]. *)
Definition deliveries (event : string) (data : Payload) (ls : list nat)
    : list (nat * Event) :=
  map (fun l => (l, mkEvent event data)) ls.


(** ** Vocabulary of playback *)

(** The volume [play] computes for [sound] on its channel in [w]. *)
Definition play_volume (w : World) (sound : Sound.t) (options : SoundOptions.t) : Q :=
  Qmult (or_default (SoundOptions.volume options) 1%Q)
    (if Sound.isMusic sound then musicVolume w else sfxVolume w).

(** The gain node of a sound just started by [play]: at the volume, or at
    zero with a ramp to the volume when a fade-in was asked for. *)
Definition started_gain (w : World) (ctx : AudioContext) (sound : Sound.t)
    (options : SoundOptions.t) : GainNode.t :=
  if fade_requested (SoundOptions.fadeIn options) then
    GainNode.mk 0
      [SetValueAtTime 0 (ctx_currentTime ctx);
       LinearRampToValueAtTime (play_volume w sound options)
         (Qplus (ctx_currentTime ctx) (or_default (SoundOptions.fadeIn options) 0%Q))]
  else GainNode.mk (play_volume w sound options) [].

(** The sound object and the voice of a sound just started by [play]. *)
Definition started_sound (w : World) (ctx : AudioContext) (sound : Sound.t)
    (options : SoundOptions.t) : Sound.t :=
  Sound.mk (Sound.id sound) (Sound.audio sound) (Sound.isMusic sound) options
    (Some (started_gain w ctx sound options))
    (Some (PannerNode.mk (or_default (SoundOptions.pan options) 0%Q)))
    true (Some (clock w)) (Sound.endTime sound).

Definition started_voice (w : World) (sound : Sound.t) (options : SoundOptions.t)
    (o : Audio.t) : Audio.t :=
  Audio.mk false (Audio.currentTime o) (Audio.src o)
    (or_default (SoundOptions.loop options) false)
    (or_default (SoundOptions.playbackRate options) 1%Q)
    (play_volume w sound options) (Audio.onended o) (Audio.onerror o).

(** ** Identity of sound objects *)

(** What never changes in a sound object: its [id] and its channel. *)
Definition identOf (w : World) (r : nat) : option (string * bool) :=
  (fun s => (Sound.id s, Sound.isMusic s)) <$> getSound w r.

(** [w'] has the registry and the sound identities of [w], and the
    current music of [w] or none. *)
Definition same_ident (w w' : World) : Prop :=
  sounds w' = sounds w /\ (forall r, identOf w' r = identOf w r)
  /\ (currentMusic w' = currentMusic w \/ currentMusic w' = None).

(** Every entry of the registry designates a sound object whose [id] is
    the entry's key, and [currentMusic] designates a music sound. *)
Definition named_ok (w : World) : Prop :=
  (forall id r, map_get id (sounds w) = Some r -> exists m, identOf w r = Some (id, m))
  /\ (forall cr, currentMusic w = Some cr -> exists i, identOf w cr = Some (i, true)).

(** ** Binding a sound to a voice *)

(** The statements of [registerSound] that follow [getAudioFromPool],
    for the voice [audio] it returned. *)
Definition bindSound (id url : string) (isMusic : bool) (buffer : list Byte.byte)
    (audio : nat) (w : World) : World * nat :=
  let mimeType := getMimeType url in
  let w := modAudio audio (Audio.set_src (Some (mkObjectURL buffer mimeType))) w in
  let w := modAudio audio (Audio.set_onerror (Some id)) w in
  let sound := Sound.mk id audio isMusic SoundOptions.empty None None false None None in
  let '(w, r) := allocSound sound w in
  (set_sounds (map_set id r (sounds w)) w, r).

(** ** Settings of the engine *)

(** [w'] has the initialisation state and the channel volumes of [w]. *)
Definition same_config (w w' : World) : Prop :=
  isInitialized w' = isInitialized w
  /\ (audioContext w' = None <-> audioContext w = None)
  /\ contextAvailable w' = contextAvailable w
  /\ musicVolume w' = musicVolume w /\ sfxVolume w' = sfxVolume w.

(** The engine is initialised exactly when it holds an [AudioContext],
    which the browser was then able to build, and both channel volumes
    lie in [0, 1]. *)
Definition config_ok (w : World) : Prop :=
  (isInitialized w = true <-> audioContext w <> None)
  /\ (0 <= musicVolume w)%Q /\ (musicVolume w <= 1)%Q
  /\ (0 <= sfxVolume w)%Q /\ (sfxVolume w <= 1)%Q
  /\ (isInitialized w = true -> contextAvailable w = true).

(** ** Preloading *)

(** An element of the array given to [preloadSounds]. *)
Record PreloadEntry := mkEntry {
  pe_id : string;
  pe_url : string;
  pe_isMusic : option bool;
  pe_alternateFormats : option (list string)
}.

(** The [async] callback that [preloadSounds] maps over its argument is a
    coroutine; a stage is one of its suspension points.  [alternates] are
    the alternate URLs not tried yet, [primary] tells the probe of
    [sound.url] from the probe of an alternate.
    - [AwaitProbe]: inside [fileExists(url)], at [await fetch(url, HEAD)];
    - [ProbeSettled]: [fileExists] has returned [found], the callback is
      queued at [await this.fileExists(url)];
    - [AwaitLoad]: inside [loadSound(id, url, isMusic)], at [await fetch(url)];
    - [LoadSettled]: [loadSound] has returned, [loaded] telling whether the
      result was not [null]; the callback is queued at
      [await this.loadSound(...)];
    - [PreloadDone]: the callback has returned. *)
Inductive PreloadStage :=
| AwaitProbe (url : string) (alternates : list string) (primary : bool)
| ProbeSettled (found : bool) (url : string) (alternates : list string) (primary : bool)
| AwaitLoad (url : string) (alternates : list string)
| LoadSettled (loaded : bool) (alternates : list string)
| PreloadDone.

(** A running callback: its argument, where it is suspended, and the
    [HEAD] requests it has issued so far, oldest first. *)
Record PreloadCallback := mkCallback {
  cb_entry : PreloadEntry;
  cb_stage : PreloadStage;
  cb_probed : list string
}.

(** What [await fetch(url, { method: 'HEAD' })] gives: a response with
    its [ok] flag, or a rejection. *)
Inductive ProbeResult :=
| ProbeResponse (ok : bool)
| ProbeRejected.

(** The default of the parameter [isMusic] of [loadSound]. *)
Definition entry_isMusic (e : PreloadEntry) : bool := or_default (pe_isMusic e) false.

(** The callback runs up to its first [await]: [fileExists(sound.url)]
    issues the [HEAD] request. *)
Definition preload_begin (e : PreloadEntry) : PreloadCallback :=
  mkCallback e (AwaitProbe (pe_url e) (or_default (pe_alternateFormats e) []) true) [pe_url e].

(** [sounds.map(async sound => ...)]: every callback is started, in array
    order, before any of them is resumed. *)
Definition preloadSounds (entries : list PreloadEntry) : list PreloadCallback :=
  map preload_begin entries.

(** [Promise.all(loadPromises)] is fulfilled once every callback has
    returned (no callback rejects: each [await] is of a promise that is
    never rejected). *)
Definition preload_finished (callbacks : list PreloadCallback) : bool :=
  forallb (fun t => match cb_stage t with PreloadDone => true | _ => false end) callbacks.

(** The continuation of [fileExists] (lines 238-242). *)
Definition fileExists_settles (res : ProbeResult) (t : PreloadCallback) (w : World)
    : PreloadCallback * World :=
  match cb_stage t with
  | AwaitProbe url alternates primary =>
      match res with
      | ProbeResponse ok =>
          (mkCallback (cb_entry t) (ProbeSettled ok url alternates primary) (cb_probed t), w)
      | ProbeRejected =>
          (mkCallback (cb_entry t) (ProbeSettled false url alternates primary) (cb_probed t),
           console_write LError
             (String.append "Error checking if file exists at " (String.append url ":")) w)
      end
  | _ => (t, w)
  end.

Definition pending_eqb (p q : PendingLoad) : bool :=
  String.eqb (pl_id p) (pl_id q) && String.eqb (pl_url p) (pl_url q)
  && Bool.eqb (pl_isMusic p) (pl_isMusic q).

(** The suspended [loadSound] call of the callback, number [n] among the
    pending loads, is resumed with the outcome of its fetch and returns to
    the callback. *)
Definition load_settles (n : nat) (res : FetchResult) (t : PreloadCallback) (w : World)
    : PreloadCallback * World :=
  match cb_stage t with
  | AwaitLoad url alternates =>
      let e := cb_entry t in
      match pendingLoads w !! n with
      | Some p =>
          if pending_eqb p (mkPending (pe_id e) url (entry_isMusic e)) then
            let '(w, result) :=
              loadSound_resume (pe_id e) url (entry_isMusic e) res
                (set_pendingLoads (delete n (pendingLoads w)) w) in
            (mkCallback e (LoadSettled (match result with Some _ => true | None => false end)
                         alternates) (cb_probed t), w)
          else (t, w)
      | None => (t, w)
      end
  | _ => (t, w)
  end.

(** The callback goes on to the alternates still to try (the [for] loop
    of lines 261-270), or, when none is left, to the last statement
    (lines 274-277) with [loaded] false. *)
Definition preload_next (alternates : list string) (t : PreloadCallback) (w : World)
    : PreloadCallback * World :=
  let e := cb_entry t in
  match alternates with
  | altUrl :: rest =>
      (mkCallback e (AwaitProbe altUrl rest false) (cb_probed t ++ [altUrl]), w)
  | [] =>
      let w := console_write LError
                 (String.append "Could not load sound "
                    (String.append (pe_id e)
                       " in any format - file(s) missing or format not supported")) w in
      (mkCallback e PreloadDone (cb_probed t), triggerEvent "error" (PError (pe_id e)) w)
  end.

(** The callback is resumed at the [await] it is queued at. *)
Definition preload_resume (t : PreloadCallback) (w : World) : PreloadCallback * World :=
  let e := cb_entry t in
  match cb_stage t with
  | ProbeSettled found url alternates primary =>
      if found then
        let '(w, step) := loadSound_begin (pe_id e) url (entry_isMusic e) w in
        match step with
        | LoadReturned result =>
            (mkCallback e (LoadSettled (match result with Some _ => true | None => false end)
                         alternates) (cb_probed t), w)
        | LoadAwaitsFetch => (mkCallback e (AwaitLoad url alternates) (cb_probed t), w)
        end
      else
        let w := console_write LWarn
                   (String.append
                      (if primary then "Sound file not found: "
                       else "Alternate sound file not found: ") url) w in
        preload_next alternates t w
  | LoadSettled loaded alternates =>
      if loaded then (mkCallback e PreloadDone (cb_probed t), w)
      else preload_next alternates t w
  | _ => (t, w)
  end.

(** What can happen to a callback. *)
Inductive CallbackEvent :=
| FileExistsSettles (res : ProbeResult)
| LoadSettles (n : nat) (res : FetchResult)
| Resumes.

Definition callback_step (ev : CallbackEvent) (t : PreloadCallback) (w : World)
    : PreloadCallback * World :=
  match ev with
  | FileExistsSettles res => fileExists_settles res t w
  | LoadSettles n res => load_settles n res t w
  | Resumes => preload_resume t w
  end.

(** A history of one callback: each event finds the engine in some
    state, which other callbacks and calls may have changed since its
    previous event. *)
Fixpoint callback_run (history : list (CallbackEvent * World)) (t : PreloadCallback)
    : PreloadCallback :=
  match history with
  | [] => t
  | (ev, w) :: rest => callback_run rest (fst (callback_step ev t w))
  end.

(** The URLs the callback may probe, in the order it tries them. *)
Definition entry_urls (e : PreloadEntry) : list string :=
  pe_url e :: or_default (pe_alternateFormats e) [].

(** The URLs the callback has still to probe. *)
Definition urls_ahead (t : PreloadCallback) : list string :=
  match cb_stage t with
  | AwaitProbe _ alternates _ | ProbeSettled _ _ alternates _
  | AwaitLoad _ alternates | LoadSettled _ alternates => alternates
  | PreloadDone => []
  end.

(** ** The application's use of the engine
    ([App] and [Game] in [src/components/TipSuccessModal.tsx]) *)

Module GameSettings.
  (** The fields of [interface GameSettings] that reach the engine. *)
Record t := mk {
    soundEnabled : bool;
    musicEnabled : bool;
    soundVolume : Q;
    musicVolume : Q
  }.
End GameSettings.

(** [x || d] on JavaScript numbers: zero is falsy. *)
Definition number_or (x d : Q) : Q := if Qeq_bool x 0 then d else x.

(** The effect of [App] that runs when the settings change (lines
    588-594): four calls on the engine. *)
Definition applySettings (gameSettings : GameSettings.t) (w : World) : World :=
  let w := setSfxMute (negb (GameSettings.soundEnabled gameSettings)) w in
  let w := setMusicMute (negb (GameSettings.musicEnabled gameSettings)) w in
  let w := setSfxVolume (number_or (GameSettings.soundVolume gameSettings) 1) w in
  setMusicVolume (number_or (GameSettings.musicVolume gameSettings) (8 # 10)) w.

(** The options [Game] plays the background music with (lines 374-378):
    [{ loop: true, volume: settings.musicVolume || 0.8, fadeIn: 2 }]. *)
Definition background_options (settings : GameSettings.t) : SoundOptions.t :=
  SoundOptions.mk (Some (number_or (GameSettings.musicVolume settings) (8 # 10)))
    (Some true) None None None (Some 2%Q) None.

(** The effect of [Game] that starts the background music (lines
    371-380); [backgroundAvailable] and [isPaused] are the component's
    state [soundsAvailable.background] and [isPaused]. *)
Definition playBackgroundMusic (settings : GameSettings.t)
    (backgroundAvailable isPaused : bool) (w : World) : World :=
  if GameSettings.musicEnabled settings && backgroundAvailable && negb isPaused
  then fst (play "background" (background_options settings) w)
  else w.

(** The initial settings of [App] (lines 461-469). *)
Definition initial_settings : GameSettings.t := GameSettings.mk true true 1 (8 # 10).

(** The engine once [background] has been loaded as music. *)
Definition background_loaded : World :=
  run [CallInit;
       CallLoadSound "background" "/sounds/background-music.mp3" true;
       FetchSettles 0 (FetchBody bytes_a)]
      (new_manager true).
(** * Properties *)

Example two_tracks_registered :
  sounds two_tracks = [("m1", 0); ("m2", 1)] /\ isPlaying "m1" two_tracks = true
  /\ isPlaying "m2" two_tracks = false /\ getCurrentMusic two_tracks = Some "m1".
Proof. vm_compute. auto. Qed.

(** ** Object stores *)

Lemma getSound_modSound_eq (r : nat) (f : Sound.t -> Sound.t) (w : World) :
  getSound (modSound r f w) r = f <$> getSound w r.
Proof. unfold getSound, modSound. simpl. apply list_lookup_alter_eq. Qed.

Lemma getSound_modSound_ne (r r' : nat) (f : Sound.t -> Sound.t) (w : World) :
  r <> r' -> getSound (modSound r f w) r' = getSound w r'.
Proof. intros H. unfold getSound, modSound. simpl. by apply list_lookup_alter_ne. Qed.

Lemma getAudio_modAudio_eq (a : nat) (f : Audio.t -> Audio.t) (w : World) :
  getAudio (modAudio a f w) a = f <$> getAudio w a.
Proof. unfold getAudio, modAudio. simpl. apply list_lookup_alter_eq. Qed.

Lemma getAudio_modAudio_ne (a a' : nat) (f : Audio.t -> Audio.t) (w : World) :
  a <> a' -> getAudio (modAudio a f w) a' = getAudio w a'.
Proof. intros H. unfold getAudio, modAudio. simpl. by apply list_lookup_alter_ne. Qed.

Lemma map_get_set_eq {V} (k : string) (v : V) (m : list (string * V)) :
  map_get k (map_set k v m) = Some v.
Proof.
  induction m as [|[k' v'] m IH]; simpl.
  - by rewrite String.eqb_refl.
  - destruct (String.eqb k' k) eqn:E; simpl; rewrite E; auto.
Qed.

Lemma map_get_set_ne {V} (k k' : string) (v : V) (m : list (string * V)) :
  k <> k' -> map_get k' (map_set k v m) = map_get k' m.
Proof.
  intros Hne. induction m as [|[k0 v0] m IH]; simpl.
  - destruct (String.eqb k k') eqn:E; [apply String.eqb_eq in E; contradiction | reflexivity].
  - destruct (String.eqb k0 k) eqn:E; simpl.
    + apply String.eqb_eq in E. subst k0.
      destruct (String.eqb k k') eqn:E'; [apply String.eqb_eq in E'; contradiction | reflexivity].
    + destruct (String.eqb k0 k'); auto.
Qed.

(** ** Voice pool *)

Lemma find_first {A} (f : A -> bool) (l : list A) (a : A) :
  find f l = Some a ->
  exists before after, l = before ++ a :: after /\ f a = true
                       /\ Forall (fun b => f b = false) before.
Proof.
  induction l as [|x l IH]; simpl; [discriminate|].
  destruct (f x) eqn:Hx.
  - intros [= ->]. exists [], l. auto.
  - intros H. destruct (IH H) as (before & after & -> & Ha & Hb).
    exists (x :: before), after. repeat split; auto.
Qed.

Lemma find_none_Forall {A} (f : A -> bool) (l : list A) :
  find f l = None -> Forall (fun b => f b = false) l.
Proof.
  induction l as [|x l IH]; simpl; [constructor|].
  destruct (f x) eqn:Hx; [discriminate|]. auto.
Qed.

Lemma getAudioFromPool_outcome (w : World) :
  acquire_outcome w (fst (getAudioFromPool w)) (snd (getAudioFromPool w)).
Proof.
  unfold getAudioFromPool.
  destruct (find (audio_paused w) (audioPool w)) as [a|] eqn:Hfind.
  - destruct (find_first _ _ _ Hfind) as (before & after & Hpool & Ha & Hb).
    simpl. eapply reuse_idle; eauto.
  - apply find_none_Forall in Hfind.
    destruct (length (audioPool w) <? maxPoolSize) eqn:Hlen.
    + apply Nat.ltb_lt in Hlen. simpl. by apply create_new.
    + apply Nat.ltb_ge in Hlen.
      destruct (audioPool w) as [|a rest] eqn:Hpool.
      * simpl in Hlen. unfold maxPoolSize in Hlen. lia.
      * simpl. rewrite <- Hpool in Hfind, Hlen. by apply evict_front.
Qed.

Lemma getAudioFromPool_length (w : World) :
  length (audioPool (fst (getAudioFromPool w))) <= Nat.max (length (audioPool w)) maxPoolSize.
Proof.
  destruct (getAudioFromPool_outcome w) as [before a after Hp _ _ | _ Hlt | a rest _ Hge Hp].
  - lia.
  - simpl. rewrite length_app. simpl. lia.
  - simpl. rewrite length_app, Hp. simpl. lia.
Qed.

Lemma pool_step_length (op : PoolOp) (st : World * list nat) :
  length (audioPool (fst (pool_step op st)))
  <= Nat.max (length (audioPool (fst st))) maxPoolSize.
Proof.
  destruct st as [w returned], op; simpl.
  - pose proof (getAudioFromPool_length w) as H.
    destruct (getAudioFromPool w) as [w' a]. exact H.
  - lia.
  - lia.
Qed.

Lemma pool_run_length (ops : list PoolOp) (st : World * list nat) :
  length (audioPool (fst (pool_run ops st)))
  <= Nat.max (length (audioPool (fst st))) maxPoolSize.
Proof.
  revert st. induction ops as [|op ops IH]; intros st; simpl.
  - lia.
  - specialize (IH (pool_step op st)). pose proof (pool_step_length op st). lia.
Qed.

(** C4 (as amended): however calls of [getAudioFromPool] are interleaved
    with voices starting and stopping, a pool that starts empty never
    holds more than [maxPoolSize] = 20 voices (and no call grows a pool
    beyond the larger of its size and 20); each call hands out the first
    idle voice of the pool if there is one, else creates a voice while the
    pool is below capacity, else pauses and hands out the voice at the
    front of the pool array and moves it to the back, active or not. *)
Theorem C4_pool_bounded_front_eviction :
  maxPoolSize = 20
  /\ (forall ops available,
        length (audioPool (fst (pool_run ops (new_manager available, [])))) <= maxPoolSize)
  /\ (forall ops st,
        length (audioPool (fst (pool_run ops st)))
        <= Nat.max (length (audioPool (fst st))) maxPoolSize)
  /\ (forall w, acquire_outcome w (fst (getAudioFromPool w)) (snd (getAudioFromPool w))).
Proof.
  split; [reflexivity|]. split; [|split].
  - intros ops available. apply (pool_run_length ops (new_manager available, [])).
  - apply pool_run_length.
  - apply getAudioFromPool_outcome.
Qed.

(** C4 (as stated) fails: in [busy_pool_ops] the full, busy pool evicts
    voice 0, the voice handed out most recently (position 20), although
    voice 1 was last handed out at position 1. *)
Lemma C4_eviction_not_least_recently_returned : ~ evicts_least_recently_returned.
Proof.
  intros H.
  pose (st := pool_run busy_pool_ops (new_manager true, [])).
  assert (E : pool_run busy_pool_ops (new_manager true, []) = (fst st, snd st))
    by (apply surjective_pairing).
  specialize (H busy_pool_ops (fst st) (snd st) E).
  assert (Hfind : find (audio_paused (fst st)) (audioPool (fst st)) = None)
    by (vm_compute; reflexivity).
  assert (Hlen : maxPoolSize <= length (audioPool (fst st))) by (vm_compute; lia).
  assert (Hin : In 1 (audioPool (fst st))) by (vm_compute; tauto).
  specialize (H Hfind Hlen 1 Hin).
  vm_compute in H. lia.
Qed.

(** ** Mute *)

Lemma sounds_forEach_preserves {A} (proj : World -> A)
    (body : string -> nat -> World -> World) (w : World) :
  (forall id r w', proj (body id r w') = proj w') ->
  proj (sounds_forEach body w) = proj w.
Proof.
  intros Hbody. unfold sounds_forEach.
  generalize (sounds w). intros l. revert w.
  induction l as [|[id r] l IH]; intros w; simpl; [reflexivity|].
  rewrite IH. apply Hbody.
Qed.

Lemma toggleMusicMute_flips (w : World) :
  isMusicMuted (fst (toggleMusicMute w)) = negb (isMusicMuted w).
Proof.
  unfold toggleMusicMute, triggerEvent. simpl.
  destruct (currentMusic w) as [cr|]; simpl.
  - destruct (getSound _ cr) as [cs|]; simpl.
    + destruct (negb (isMusicMuted w)); simpl; destruct (map_get _ _); reflexivity.
    + destruct (map_get _ _); reflexivity.
  - destruct (map_get _ _); reflexivity.
Qed.

Lemma toggleSfxMute_flips (w : World) :
  isSfxMuted (fst (toggleSfxMute w)) = negb (isSfxMuted w).
Proof.
  unfold toggleSfxMute. cbv zeta.
  match goal with
  | |- context [sounds_forEach ?b ?w0] =>
      assert (H : isSfxMuted (sounds_forEach b w0) = isSfxMuted w0)
  end.
  { apply (sounds_forEach_preserves isSfxMuted). intros id r w'.
    destruct (getSound w' r) as [s|]; [|reflexivity].
    destruct (negb (Sound.isMusic s) && Sound.isPlaying s); [|reflexivity].
    destruct (isSfxMuted w') eqn:E; simpl; exact E. }
  unfold triggerEvent. simpl fst.
  destruct (map_get _ _); simpl; rewrite H; reflexivity.
Qed.

(** C9: setting a channel's mute state to the value it already has
    returns the state unchanged (no voice paused or resumed, no field
    changed, no [muteChange] triggered or delivered), so setting the same
    value twice equals setting it once. *)
Theorem C9_setMute_same_value_noop :
  (forall w, setMusicMute (isMusicMuted w) w = w)
  /\ (forall w, setSfxMute (isSfxMuted w) w = w)
  /\ (forall m w, setMusicMute m (setMusicMute m w) = setMusicMute m w)
  /\ (forall m w, setSfxMute m (setSfxMute m w) = setSfxMute m w).
Proof.
  assert (Hm : forall w, setMusicMute (isMusicMuted w) w = w).
  { intros w. unfold setMusicMute. by rewrite Bool.eqb_reflx. }
  assert (Hs : forall w, setSfxMute (isSfxMuted w) w = w).
  { intros w. unfold setSfxMute. by rewrite Bool.eqb_reflx. }
  repeat split; auto.
  - intros m w. destruct (Bool.eqb (isMusicMuted w) m) eqn:E.
    + apply Bool.eqb_prop in E. subst m. by rewrite !Hm.
    + assert (Hstep : setMusicMute m w = fst (toggleMusicMute w))
        by (unfold setMusicMute; by rewrite E).
      assert (Hnow : isMusicMuted (fst (toggleMusicMute w)) = m).
      { rewrite toggleMusicMute_flips.
        destruct (isMusicMuted w), m; simpl in *; congruence. }
      rewrite Hstep. rewrite <- Hnow at 1. apply Hm.
  - intros m w. destruct (Bool.eqb (isSfxMuted w) m) eqn:E.
    + apply Bool.eqb_prop in E. subst m. by rewrite !Hs.
    + assert (Hstep : setSfxMute m w = fst (toggleSfxMute w))
        by (unfold setSfxMute; by rewrite E).
      assert (Hnow : isSfxMuted (fst (toggleSfxMute w)) = m).
      { rewrite toggleSfxMute_flips.
        destruct (isSfxMuted w), m; simpl in *; congruence. }
      rewrite Hstep. rewrite <- Hnow at 1. apply Hs.
Qed.

(** ** Stop, pause, resume *)


Lemma stop_now_sound (r : nat) (w : World) (s : Sound.t) :
  getSound w r = Some s ->
  getSound (stop_now r w) r
  = Some (Sound.set_panner None (Sound.set_gain None (Sound.set_isPlaying false s))).
Proof.
  intros H. unfold stop_now, cleanupAudioNodes. rewrite H.
  rewrite getSound_modSound_eq, getSound_modSound_eq.
  change (getSound (modAudio ?a ?f ?w0) r) with (getSound w0 r).
  change (getSound (modAudio ?a ?f ?w0) r) with (getSound w0 r).
  by rewrite H.
Qed.

Lemma stop_now_other_sound (r r' : nat) (w : World) :
  r <> r' -> getSound (stop_now r w) r' = getSound w r'.
Proof.
  intros Hne. unfold stop_now, cleanupAudioNodes.
  destruct (getSound w r) as [s|]; [|reflexivity].
  by rewrite !getSound_modSound_ne.
Qed.

Lemma stop_now_audio (r : nat) (w : World) (s : Sound.t) :
  getSound w r = Some s ->
  getAudio (stop_now r w) (Sound.audio s)
  = (fun o => Audio.set_currentTime 0 (Audio.pause o)) <$> getAudio w (Sound.audio s).
Proof.
  intros H. unfold stop_now, cleanupAudioNodes. rewrite H.
  change (getAudio (modSound ?a ?f ?w0) ?b) with (getAudio w0 b).
  change (getAudio (modSound ?a ?f ?w0) ?b) with (getAudio w0 b).
  rewrite !getAudio_modAudio_eq. by destruct (getAudio w (Sound.audio s)).
Qed.


Lemma stop_now_fields (r : nat) (w : World) :
  sounds (stop_now r w) = sounds w /\ currentMusic (stop_now r w) = currentMusic w
  /\ audioContext (stop_now r w) = audioContext w
  /\ isInitialized (stop_now r w) = isInitialized w
  /\ timers (stop_now r w) = timers w.
Proof. unfold stop_now. destruct (getSound w r); simpl; auto. Qed.

Lemma clear_currentMusic_if_fields (id : string) (w : World) :
  sounds (clear_currentMusic_if id w) = sounds w
  /\ soundObjs (clear_currentMusic_if id w) = soundObjs w
  /\ audioObjs (clear_currentMusic_if id w) = audioObjs w
  /\ timers (clear_currentMusic_if id w) = timers w
  /\ clock (clear_currentMusic_if id w) = clock w
  /\ isInitialized (clear_currentMusic_if id w) = isInitialized w
  /\ audioContext (clear_currentMusic_if id w) = audioContext w.
Proof.
  unfold clear_currentMusic_if.
  destruct (currentMusic w) as [cr|]; [|by repeat split].
  destruct (getSound w cr) as [cs|]; [|by repeat split].
  destruct (String.eqb (Sound.id cs) id); by repeat split.
Qed.

Lemma getSound_clear_currentMusic_if (id : string) (w : World) (r : nat) :
  getSound (clear_currentMusic_if id w) r = getSound w r.
Proof.
  unfold getSound. by rewrite (proj1 (proj2 (clear_currentMusic_if_fields id w))).
Qed.

Lemma getAudio_clear_currentMusic_if (id : string) (w : World) (a : nat) :
  getAudio (clear_currentMusic_if id w) a = getAudio w a.
Proof.
  unfold getAudio.
  by rewrite (proj1 (proj2 (proj2 (clear_currentMusic_if_fields id w)))).
Qed.

Lemma stop_fade_or_now_immediate (r : nat) (s : Sound.t) (options : SoundOptions.t)
    (w : World) :
  fade_requested (SoundOptions.fadeOut options) = false ->
  stop_fade_or_now r s options w = stop_now r w.
Proof.
  intros Hfade. unfold stop_fade_or_now, fade_requested in *.
  destruct (SoundOptions.fadeOut options) as [f|]; [|reflexivity].
  rewrite Hfade. by destruct (Sound.gain s), (audioContext w).
Qed.

(** The sound a call [stop(id, options)] acts on when no fade is
    requested. *)
Lemma stop_immediate (id : string) (options : SoundOptions.t) (w : World) (r : nat)
    (s : Sound.t) :
  map_get id (sounds w) = Some r -> getSound w r = Some s ->
  fade_requested (SoundOptions.fadeOut options) = false ->
  sounds (stop id options w) = sounds w
  /\ getSound (stop id options w) r
     = Some (Sound.set_panner None (Sound.set_gain None (Sound.set_isPlaying false s)))
  /\ (forall r', r <> r' -> getSound (stop id options w) r' = getSound w r')
  /\ getAudio (stop id options w) (Sound.audio s)
     = (fun o => Audio.set_currentTime 0 (Audio.pause o)) <$> getAudio w (Sound.audio s)
  /\ timers (stop id options w) = timers w.
Proof.
  intros Hid Hs Hfade. unfold stop. rewrite Hid, Hs.
  rewrite (stop_fade_or_now_immediate _ _ _ _ Hfade).
  pose proof (clear_currentMusic_if_fields id (stop_now r w)) as (C1 & _ & _ & C4 & _).
  pose proof (stop_now_fields r w) as (F1 & F2 & F3 & F4 & F5).
  rewrite C1, C4, !getSound_clear_currentMusic_if, getAudio_clear_currentMusic_if.
  repeat split; auto.
  - by apply stop_now_sound.
  - intros r' Hne. rewrite getSound_clear_currentMusic_if. by apply stop_now_other_sound.
  - by apply stop_now_audio.
Qed.

(** [resume] on a registered sound, and after [stop]. *)
Lemma resume_restarts (w : World) (id : string) (r : nat)
    (s : Sound.t) (o : Audio.t) :
  map_get id (sounds w) = Some r ->
  getSound w r = Some s ->
  getAudio w (Sound.audio s) = Some o ->
  (Sound.isPlaying s = false ->
     registered (resume id w) id = Some (Sound.set_isPlaying true s)
     /\ getAudio (resume id w) (Sound.audio s) = Some (Audio.play o)
     /\ triggered (resume id w)
        = triggered w ++ [mkEvent "resume" (PSound id (Sound.isMusic s))]
     /\ delivered (resume id w)
        = delivered w
          ++ map (fun l => (l, mkEvent "resume" (PSound id (Sound.isMusic s))))
               (or_default (map_get "resume" (eventListeners w)) []))
  /\ isPlaying id (stop id SoundOptions.empty w) = false
  /\ isPlaying id (resume id (stop id SoundOptions.empty w)) = true.
Proof.
  intros Hid Hs Ho.
  assert (Hresume : forall w0 s0 o0,
             map_get id (sounds w0) = Some r -> getSound w0 r = Some s0 ->
             getAudio w0 (Sound.audio s0) = Some o0 -> Sound.isPlaying s0 = false ->
             registered (resume id w0) id = Some (Sound.set_isPlaying true s0)
             /\ getAudio (resume id w0) (Sound.audio s0) = Some (Audio.play o0)
             /\ triggered (resume id w0)
                = triggered w0 ++ [mkEvent "resume" (PSound id (Sound.isMusic s0))]
             /\ delivered (resume id w0)
                = delivered w0
                  ++ map (fun l => (l, mkEvent "resume" (PSound id (Sound.isMusic s0))))
                       (or_default (map_get "resume" (eventListeners w0)) [])).
  { intros w0 s0 o0 Hid0 Hs0 Ho0 Hp0.
    unfold registered, resume. rewrite Hid0, Hs0, Hp0.
    unfold triggerEvent.
    change (eventListeners (set_triggered ?t (modSound ?a ?f (modAudio ?b ?g ?w1))))
      with (eventListeners w1).
    destruct (map_get "resume" (eventListeners w0)) as [ls|]; simpl.
    - rewrite Hid0. repeat split.
      + change (getSound ?w1 r) with (getSound (modSound r (Sound.set_isPlaying true)
                                                  (modAudio (Sound.audio s0) Audio.play w0)) r).
        rewrite getSound_modSound_eq.
        change (getSound (modAudio ?a ?f ?w1) r) with (getSound w1 r). by rewrite Hs0.
      + change (getAudio ?w1 (Sound.audio s0))
          with (getAudio (modAudio (Sound.audio s0) Audio.play w0) (Sound.audio s0)).
        rewrite getAudio_modAudio_eq. by rewrite Ho0.
    - rewrite Hid0. rewrite app_nil_r. repeat split.
      + change (getSound ?w1 r) with (getSound (modSound r (Sound.set_isPlaying true)
                                                  (modAudio (Sound.audio s0) Audio.play w0)) r).
        rewrite getSound_modSound_eq.
        change (getSound (modAudio ?a ?f ?w1) r) with (getSound w1 r). by rewrite Hs0.
      + change (getAudio ?w1 (Sound.audio s0))
          with (getAudio (modAudio (Sound.audio s0) Audio.play w0) (Sound.audio s0)).
        rewrite getAudio_modAudio_eq. by rewrite Ho0. }
  split; [intros Hp; by apply (Hresume w s o)|].
  destruct (stop_immediate id SoundOptions.empty w r s Hid Hs eq_refl)
    as (S1 & S2 & _ & S4 & _).
  assert (Hid' : map_get id (sounds (stop id SoundOptions.empty w)) = Some r)
    by (by rewrite S1).
  split.
  - unfold isPlaying. by rewrite Hid', S2.
  - rewrite Ho in S4. simpl in S4.
    destruct (Hresume _ _ _ Hid' S2 S4 eq_refl) as (R1 & _).
    unfold isPlaying. unfold registered in R1.
    destruct (map_get id (sounds (resume id (stop id SoundOptions.empty w)))) as [r1|];
      [|discriminate].
    by rewrite R1.
Qed.

(** ** Play on an unknown or muted sound *)

(** C6 (as amended): on an engine that is already initialised,
    [play(id, options)] returns [null] and changes no field of the engine
    when [id] is not registered, logging the warning "Sound id not loaded",
    and returns [null] changing nothing at all, without any log entry, when
    the channel of the registered sound is muted. *)
Theorem C6_play_unknown_or_muted_noop (w : World) (id : string)
    (options : SoundOptions.t) (ctx : AudioContext) :
  isInitialized w = true ->
  audioContext w = Some ctx ->
  (hasSoundLoaded id w = false ->
     play id options w
     = (console_write LWarn (String.append "Sound " (String.append id " not loaded")) w, None))
  /\ (forall s, registered w id = Some s ->
        (if Sound.isMusic s then isMusicMuted w else isSfxMuted w) = true ->
        play id options w = (w, None)).
Proof.
  intros Hinit Hctx.
  assert (E : ensureInitialized w = (w, true)).
  { unfold ensureInitialized. rewrite Hinit. cbv zeta. by rewrite Hinit, Hctx. }
  split.
  - unfold hasSoundLoaded, map_has, play. rewrite E, Hctx.
    by destruct (map_get id (sounds w)).
  - intros s Hs Hmuted. unfold registered in Hs. unfold play. rewrite E, Hctx.
    destruct (map_get id (sounds w)) as [r|]; [|discriminate].
    rewrite Hs. destruct (Sound.isMusic s); simpl; by rewrite Hmuted.
Qed.

Lemma C6_play_witness :
  play "ghost" SoundOptions.empty muted_track
  = (console_write LWarn "Sound ghost not loaded" muted_track, None)
  /\ play "m1" SoundOptions.empty muted_track = (muted_track, None).
Proof.
  destruct (C6_play_unknown_or_muted_noop muted_track "ghost" SoundOptions.empty (mkContext 0))
    as (H2 & _); [vm_compute; reflexivity ..|].
  edestruct (C6_play_unknown_or_muted_noop muted_track "m1" SoundOptions.empty (mkContext 0))
    as (_ & H3); [vm_compute; reflexivity ..|].
  split.
  - apply H2. vm_compute. reflexivity.
  - eapply H3; vm_compute; reflexivity.
Defined.

(** C6 (as stated) fails twice: on a manager that was never initialised a
    [play] of an unknown [id] initialises the engine (context, five pooled
    voices, a visibility listener), and a [play] on a muted channel logs
    nothing. *)
Lemma C6_play_initialises_and_muted_is_silent :
  (hasSoundLoaded "ghost" (new_manager true) = false
   /\ isInitialized (fst (play "ghost" SoundOptions.empty (new_manager true))) = true
   /\ length (audioPool (fst (play "ghost" SoundOptions.empty (new_manager true)))) = 5
   /\ isInitialized (new_manager true) = false
   /\ length (audioPool (new_manager true)) = 0)
  /\ (isMusicMuted muted_track = true
      /\ (exists s, registered muted_track "m1" = Some s /\ Sound.isMusic s = true)
      /\ console (fst (play "m1" SoundOptions.empty muted_track)) = console muted_track).
Proof.
  split.
  - vm_compute. auto.
  - split; [vm_compute; reflexivity|]. split.
    + vm_compute. eexists. split; reflexivity.
    + vm_compute. reflexivity.
Qed.

(** ** Stop during a fade-in *)




(** ** Disposal and lazy initialisation *)

Lemma triggerEvent_fields (event : string) (data : Payload) (w : World) :
  isInitialized (triggerEvent event data w) = isInitialized w
  /\ sounds (triggerEvent event data w) = sounds w
  /\ soundObjs (triggerEvent event data w) = soundObjs w
  /\ audioObjs (triggerEvent event data w) = audioObjs w
  /\ currentMusic (triggerEvent event data w) = currentMusic w
  /\ fetched (triggerEvent event data w) = fetched w
  /\ soundsCache (triggerEvent event data w) = soundsCache w.
Proof. unfold triggerEvent. simpl. by destruct (map_get event (eventListeners w)). Qed.

Lemma triggerEvent_volumes (event : string) (data : Payload) (w : World) :
  sfxVolume (triggerEvent event data w) = sfxVolume w
  /\ musicVolume (triggerEvent event data w) = musicVolume w
  /\ isMusicMuted (triggerEvent event data w) = isMusicMuted w
  /\ isSfxMuted (triggerEvent event data w) = isSfxMuted w.
Proof. unfold triggerEvent. simpl. by destruct (map_get event (eventListeners w)). Qed.
















Lemma getAudioFromPool_fields (w : World) :
  isInitialized (fst (getAudioFromPool w)) = isInitialized w
  /\ sounds (fst (getAudioFromPool w)) = sounds w
  /\ soundObjs (fst (getAudioFromPool w)) = soundObjs w
  /\ currentMusic (fst (getAudioFromPool w)) = currentMusic w
  /\ fetched (fst (getAudioFromPool w)) = fetched w
  /\ soundsCache (fst (getAudioFromPool w)) = soundsCache w.
Proof. unfold getAudioFromPool, createPooledAudio. by repeat case_match. Qed.


Lemma iter_preserves {A} (proj : World -> A) (f : World -> World) (n : nat) (w : World) :
  (forall w', proj (f w') = proj w') -> proj (Nat.iter n f w) = proj w.
Proof. intros Hf. induction n as [|n IH]; simpl; [reflexivity|]. by rewrite Hf. Qed.



Lemma init_uninitialised (w : World) :
  isInitialized w = false ->
  isInitialized (init w) = contextAvailable w
  /\ audioContext (init w)
     = (if contextAvailable w then Some (mkContext 0) else audioContext w)
  /\ sounds (init w) = sounds w /\ soundsCache (init w) = soundsCache w
  /\ fetched (init w) = fetched w /\ pendingLoads (init w) = pendingLoads w.
Proof.
  intros Hw. unfold init. rewrite Hw. unfold createPooledAudio. simpl.
  destruct (contextAvailable w); simpl; by repeat split.
Qed.

Lemma ensureInitialized_uninitialised (w : World) :
  isInitialized w = false -> audioContext w = None ->
  ensureInitialized w = (init w, contextAvailable w).
Proof.
  intros Hw Hctx. unfold ensureInitialized. rewrite Hw. cbv zeta.
  destruct (init_uninitialised w Hw) as (-> & -> & _).
  rewrite Hctx. by destruct (contextAvailable w).
Qed.

Lemma ensureInitialized_ready (w : World) (ctx : AudioContext) :
  isInitialized w = true -> audioContext w = Some ctx -> ensureInitialized w = (w, true).
Proof.
  intros Hw Hctx. unfold ensureInitialized. rewrite Hw. cbv zeta. by rewrite Hw, Hctx.
Qed.




Lemma loadSound_fetches (w w1 : World) (id url : string) (isMusic : bool) :
  ensureInitialized w = (w1, true) ->
  map_get id (sounds w1) = None -> map_get url (soundsCache w1) = None ->
  loadSound_begin id url isMusic w
  = (set_pendingLoads (pendingLoads w1 ++ [mkPending id url isMusic])
       (set_fetched (fetched w1 ++ [url]) w1), LoadAwaitsFetch).
Proof. intros E Hid Hurl. unfold loadSound_begin. by rewrite E, Hid, Hurl. Qed.





(** ** Channel volume *)

Lemma clamp_is_clamp01 (v : Q) : Qeq (Math_max 0 (Math_min 1 v)) (clamp01 v).
Proof.
  unfold Math_max, Math_min, clamp01.
  destruct (Qle_bool v 0) eqn:E0; destruct (Qle_bool 1 v) eqn:E1;
    try (apply Qle_bool_iff in E0); try (apply Qle_bool_iff in E1).
  - lra.
  - destruct (Qle_bool 0 v) eqn:E2; [apply Qle_bool_iff in E2; lra | reflexivity].
  - reflexivity.
  - destruct (Qle_bool 0 v) eqn:E2; [reflexivity|].
    assert (~ (0 <= v)%Q) by (intros H; apply Qle_bool_iff in H; congruence).
    assert (~ (v <= 0)%Q) by (intros H'; apply Qle_bool_iff in H'; congruence).
    lra.
Qed.

Lemma clamp_in_range (v : Q) :
  (0 <= Math_max 0 (Math_min 1 v))%Q /\ (Math_max 0 (Math_min 1 v) <= 1)%Q.
Proof.
  unfold Math_max, Math_min.
  destruct (Qle_bool 1 v) eqn:E1.
  - simpl. lra.
  - destruct (Qle_bool 0 v) eqn:E2.
    + apply Qle_bool_iff in E2.
      assert (~ (1 <= v)%Q) by (intros H; apply Qle_bool_iff in H; congruence). lra.
    + lra.
Qed.

Lemma reapplied_idem (channel : Q) (s : Sound.t) :
  reapplied channel (reapplied channel s) = reapplied channel s.
Proof. unfold reapplied. destruct s as [i a m o [g|] p pl st en]; reflexivity. Qed.

Lemma reapplied_volume (channel : Q) (s : Sound.t) (g : GainNode.t) :
  Sound.gain s = Some g -> volume_applied channel (reapplied channel s).
Proof.
  intros Hg. unfold volume_applied, reapplied. rewrite Hg. simpl. eexists. split; reflexivity.
Qed.

(** The loop of [setSfxVolume] over a part [l] of the registry. *)
Lemma setSfxVolume_loop (l : list (string * nat)) (w : World) :
  let body := fun (w : World) '((_, r) : string * nat) =>
    match getSound w r with
    | Some sound =>
        if negb (Sound.isMusic sound) && Sound.isPlaying sound then
          modGain r (gain_set_value
                       (Qmult (sfxVolume w)
                          (or_default (SoundOptions.volume (Sound.options sound)) 1%Q))) w
        else w
    | None => w
    end in
  sfxVolume (fold_left body l w) = sfxVolume w
  /\ forall r s, getSound w r = Some s ->
       (getSound (fold_left body l w) r = Some s
        \/ getSound (fold_left body l w) r = Some (reapplied (sfxVolume w) s))
       /\ (In r (map snd l) -> Sound.isMusic s = false -> Sound.isPlaying s = true ->
           getSound (fold_left body l w) r = Some (reapplied (sfxVolume w) s)).
Proof.
  intros body. revert w. induction l as [|[id0 r0] l IH]; intros w.
  - simpl. split; [reflexivity|]. intros r s Hs. split; [by left | contradiction].
  - simpl fold_left.
    set (w1 := body w (id0, r0)).
    assert (V1 : sfxVolume w1 = sfxVolume w).
    { unfold w1, body. by repeat case_match. }
    assert (S1 : forall r s, getSound w r = Some s ->
              (r = r0 /\ Sound.isMusic s = false /\ Sound.isPlaying s = true
               /\ getSound w1 r = Some (reapplied (sfxVolume w) s))
              \/ ((r <> r0 \/ Sound.isMusic s = true \/ Sound.isPlaying s = false)
                  /\ getSound w1 r = Some s)).
    { intros r s Hs. unfold w1, body. destruct (decide (r = r0)) as [->|Hne].
      - rewrite Hs. destruct (Sound.isMusic s) eqn:Hm; simpl; [right; by auto|].
        destruct (Sound.isPlaying s) eqn:Hp; [|right; by auto].
        left. repeat split; auto. unfold modGain. by rewrite getSound_modSound_eq, Hs.
      - right. split; [by left|].
        destruct (getSound w r0) as [s0|]; [|done].
        destruct (negb (Sound.isMusic s0) && Sound.isPlaying s0); [|done].
        unfold modGain. by rewrite getSound_modSound_ne. }
    destruct (IH w1) as (IV & IS). rewrite V1 in IV, IS.
    split; [exact IV|]. intros r s Hs.
    destruct (S1 r s Hs) as [(-> & Hm & Hp & H1) | (Hcase & H1)].
    + destruct (IS r0 _ H1) as (Hor & _). rewrite reapplied_idem in Hor.
      assert (getSound (fold_left body l w1) r0 = Some (reapplied (sfxVolume w) s))
        by (by destruct Hor).
      split; [by right | by auto].
    + destruct (IS r s H1) as (Hor & Hin). split; [exact Hor|].
      simpl. intros [-> | Hr] Hm Hp; [|by auto].
      destruct Hcase as [? | [? | ?]]; congruence.
Qed.

(** C5 (as amended): for every number [v] both setters return normally
    and store [Math.max(0, Math.min(1, v))], which is [clamp(v, 0, 1)] and
    lies in [[0, 1]].  [setMusicVolume] then writes the effective volume
    (channel volume times [options.volume], default 1) to the gain node of
    the current music, if there is one and it has a gain node;
    [setSfxVolume] writes it to the gain node of every registered effect
    that is [Playing] and has a gain node. *)
Theorem C5_setVolume_clamps_and_reapplies (v : Q) (w : World) :
  (Qeq (musicVolume (setMusicVolume v w)) (clamp01 v)
   /\ (0 <= musicVolume (setMusicVolume v w))%Q /\ (musicVolume (setMusicVolume v w) <= 1)%Q
   /\ forall cr cs g,
        currentMusic w = Some cr -> getSound w cr = Some cs -> Sound.gain cs = Some g ->
        getSound (setMusicVolume v w) cr
        = Some (reapplied (musicVolume (setMusicVolume v w)) cs)
        /\ volume_applied (musicVolume (setMusicVolume v w))
             (reapplied (musicVolume (setMusicVolume v w)) cs))
  /\ (Qeq (sfxVolume (setSfxVolume v w)) (clamp01 v)
      /\ (0 <= sfxVolume (setSfxVolume v w))%Q /\ (sfxVolume (setSfxVolume v w) <= 1)%Q
      /\ forall id r s g,
           map_get id (sounds w) = Some r -> getSound w r = Some s ->
           Sound.isMusic s = false -> Sound.isPlaying s = true -> Sound.gain s = Some g ->
           getSound (setSfxVolume v w) r
           = Some (reapplied (sfxVolume (setSfxVolume v w)) s)
           /\ volume_applied (sfxVolume (setSfxVolume v w))
                (reapplied (sfxVolume (setSfxVolume v w)) s)).
Proof.
  split.
  - assert (M : musicVolume (setMusicVolume v w) = Math_max 0 (Math_min 1 v)).
    { unfold setMusicVolume. rewrite (proj1 (proj2 (triggerEvent_volumes _ _ _))).
      simpl. by repeat case_match. }
    rewrite M. split; [apply clamp_is_clamp01|].
    split; [apply clamp_in_range|]. split; [apply clamp_in_range|].
    intros cr cs g Hcr Hcs Hg. split; [|by eapply reapplied_volume].
    unfold setMusicVolume, getSound.
    rewrite (proj1 (proj2 (proj2 (triggerEvent_fields _ _ _)))).
    simpl. rewrite Hcr. unfold getSound in Hcs. simpl. rewrite Hcs.
    unfold modSound. simpl. rewrite list_lookup_alter_eq, Hcs. reflexivity.
  - pose proof (setSfxVolume_loop (sounds w) (set_sfxVolume (Math_max 0 (Math_min 1 v)) w))
      as (LV & LS).
    cbv zeta in LV, LS.
    change (sfxVolume (set_sfxVolume ?x ?y)) with x in LV, LS.
    assert (E : forall A (proj : World -> A),
               (forall e d w', proj (triggerEvent e d w') = proj w') ->
               proj (setSfxVolume v w)
               = proj (sounds_forEach (fun _ r w =>
                         match getSound w r with
                         | Some sound =>
                             if negb (Sound.isMusic sound) && Sound.isPlaying sound then
                               modGain r (gain_set_value
                                            (Qmult (sfxVolume w)
                                               (or_default
                                                  (SoundOptions.volume (Sound.options sound))
                                                  1%Q))) w
                             else w
                         | None => w
                         end) (set_sfxVolume (Math_max 0 (Math_min 1 v)) w))).
    { intros A proj Hproj. unfold setSfxVolume. by rewrite Hproj. }
    assert (M : sfxVolume (setSfxVolume v w) = Math_max 0 (Math_min 1 v)).
    { rewrite (E _ sfxVolume); [exact LV|]. intros. apply triggerEvent_volumes. }
    rewrite M. split; [apply clamp_is_clamp01|].
    split; [apply clamp_in_range|]. split; [apply clamp_in_range|].
    intros id r s g Hid Hs Hm Hp Hg. split; [|by eapply reapplied_volume].
    unfold getSound. rewrite (E _ soundObjs); [|intros; apply triggerEvent_fields].
    destruct (LS r s Hs) as (_ & H). apply H; auto.
    change (sounds (set_sfxVolume ?x ?y)) with (sounds y).
    clear -Hid. induction (sounds w) as [|[k x] m IH]; simpl in *; [discriminate|].
    destruct (String.eqb k id); [left; congruence | right; auto].
Qed.

Lemma C5_setVolume_witness :
  exists s, getSound music_and_effect 1 = Some s
            /\ volume_applied (sfxVolume (setSfxVolume (1 # 2) music_and_effect))
                 (reapplied (sfxVolume (setSfxVolume (1 # 2) music_and_effect)) s).
Proof.
  destruct (C5_setVolume_clamps_and_reapplies (1 # 2) music_and_effect)
    as (_ & _ & _ & _ & H).
  eexists. split; [vm_compute; reflexivity|].
  match goal with
  | |- volume_applied _ (reapplied _ ?s) =>
      edestruct (H "s1" 1 s) as (_ & R); [vm_compute; reflexivity ..|exact R]
  end.
Defined.

(** C5 (as stated) fails: in [resumed_effect] the effect [s1] is
    [Playing] when the channel volume is set to 1/2, but it has no gain
    node (it was stopped and resumed), so the new effective volume is
    written nowhere and its voice keeps the volume 1 it was started with. *)
Lemma C5_playing_voice_without_gain_not_updated :
  (sfxVolume resumed_effect == 1 # 2)%Q
  /\ exists s o, registered resumed_effect "s1" = Some s
       /\ Sound.isMusic s = false /\ Sound.isPlaying s = true
       /\ ~ volume_applied (sfxVolume resumed_effect) s
       /\ getAudio resumed_effect (Sound.audio s) = Some o
       /\ Audio.paused o = false /\ Audio.volume o = 1%Q.
Proof.
  split; [vm_compute; reflexivity|].
  eexists _, _. split; [vm_compute; reflexivity|].
  split; [reflexivity|]. split; [reflexivity|]. split.
  - intros (g & Hg & _). discriminate Hg.
  - split; [vm_compute; reflexivity|]. split; reflexivity.
Qed.

(** ** Background and foreground *)




(** ** Loading *)

Lemma getAudioFromPool_live (w : World) :
  pool_live w -> is_Some (getAudio (fst (getAudioFromPool w)) (snd (getAudioFromPool w))).
Proof.
  intros Hlive.
  destruct (getAudioFromPool_outcome w) as [before a after Hp Ha _ | _ _ | a rest _ _ Hp].
  - unfold audio_paused in Ha. destruct (getAudio w a); [by eexists | discriminate].
  - unfold getAudio. simpl. rewrite list_lookup_middle by reflexivity. by eexists.
  - unfold pool_live in Hlive. rewrite Hp in Hlive. inversion Hlive as [|x l [o Ho] _]; subst.
    change (getAudio (set_audioPool ?p ?w0) a) with (getAudio w0 a).
    rewrite getAudio_modAudio_eq, Ho. by eexists.
Qed.

Lemma registerSound_spec (id url : string) (isMusic : bool) (buffer : list Byte.byte)
    (w : World) :
  pool_live w ->
  let w' := fst (registerSound id url isMusic buffer w) in
  let r := snd (registerSound id url isMusic buffer w) in
  fetched w' = fetched w /\ soundsCache w' = soundsCache w
  /\ map_get id (sounds w') = Some r
  /\ exists s o, getSound w' r = Some s /\ Sound.id s = id /\ Sound.isPlaying s = false
       /\ getAudio w' (Sound.audio s) = Some o
       /\ Audio.src o = Some (mkObjectURL buffer (getMimeType url)).
Proof.
  intros Hlive. unfold registerSound.
  pose proof (getAudioFromPool_fields w) as (_ & F2 & F3 & _ & F5 & F6).
  pose proof (getAudioFromPool_live w Hlive) as [o Ho].
  destruct (getAudioFromPool w) as [w1 a]. cbn [fst snd] in *.
  unfold allocSound. cbn [fst snd].
  split; [exact F5|]. split; [exact F6|]. split; [apply map_get_set_eq|].
  eexists _, _. split.
  { unfold getSound. simpl. apply list_lookup_middle. reflexivity. }
  split; [reflexivity|]. split; [reflexivity|]. split.
  { simpl Sound.audio.
    change (getAudio (set_sounds ?x (set_soundObjs ?y ?w0)) a) with (getAudio w0 a).
    rewrite !getAudio_modAudio_eq, Ho. reflexivity. }
  reflexivity.
Qed.

(** [loadSound] with and without cached bytes. *)
Lemma load_fetches_unless_cached (w : World) (id url : string) (isMusic : bool)
    (ctx : AudioContext) :
  isInitialized w = true ->
  audioContext w = Some ctx ->
  hasSoundLoaded id w = false ->
  (map_get url (soundsCache w) = None ->
     snd (loadSound_begin id url isMusic w) = LoadAwaitsFetch
     /\ fetched (fst (loadSound_begin id url isMusic w)) = fetched w ++ [url]
     /\ forall id2 isMusic2,
          hasSoundLoaded id2 w = false ->
          fetched (fst (loadSound_begin id2 url isMusic2
                          (fst (loadSound_begin id url isMusic w))))
          = fetched w ++ [url; url])
  /\ (forall bytes,
        map_get url (soundsCache w) = Some bytes -> pool_live w ->
        fetched (fst (loadSound_begin id url isMusic w)) = fetched w
        /\ exists r s o,
             snd (loadSound_begin id url isMusic w) = LoadReturned (Some r)
             /\ getSound (fst (loadSound_begin id url isMusic w)) r = Some s
             /\ Sound.id s = id
             /\ getAudio (fst (loadSound_begin id url isMusic w)) (Sound.audio s) = Some o
             /\ Audio.src o = Some (mkObjectURL bytes (getMimeType url)))
  /\ (forall bytes,
        pool_live w ->
        map_get url (soundsCache (fst (loadSound_resume id url isMusic (FetchBody bytes) w)))
        = Some bytes
        /\ fetched (fst (loadSound_resume id url isMusic (FetchBody bytes) w)) = fetched w).
Proof.
  intros Hinit Hctx Hid.
  pose proof (ensureInitialized_ready w ctx Hinit Hctx) as E.
  assert (Hid' : map_get id (sounds w) = None).
  { unfold hasSoundLoaded, map_has in Hid. by destruct (map_get id (sounds w)). }
  split; [|split].
  - intros Hurl. rewrite (loadSound_fetches w w id url isMusic E Hid' Hurl).
    split; [reflexivity|]. split; [reflexivity|].
    intros id2 isMusic2 Hid2. cbn [fst].
    assert (Hid2' : map_get id2 (sounds w) = None).
    { unfold hasSoundLoaded, map_has in Hid2. by destruct (map_get id2 (sounds w)). }
    set (w1 := set_pendingLoads (pendingLoads w ++ [mkPending id url isMusic])
                 (set_fetched (fetched w ++ [url]) w)).
    assert (E1 : ensureInitialized w1 = (w1, true))
      by (by apply (ensureInitialized_ready w1 ctx)).
    rewrite (loadSound_fetches w1 w1 id2 url isMusic2 E1 Hid2' Hurl).
    cbn [fst]. change (fetched (set_pendingLoads ?x (set_fetched ?y ?z))) with y.
    change (fetched w1) with (fetched w ++ [url]). by rewrite <- app_assoc.
  - intros bytes Hurl Hlive. unfold loadSound_begin. rewrite E. cbn [negb].
    rewrite Hid', Hurl.
    pose proof (registerSound_spec id url isMusic bytes w Hlive)
      as (R1 & _ & _ & s & o & R3 & R4 & _ & R5 & R6).
    destruct (registerSound id url isMusic bytes w) as [w1 r]. cbn [fst snd] in *.
    split; [exact R1|]. by exists r, s, o.
  - intros bytes Hlive. unfold loadSound_resume.
    set (w0 := set_soundsCache (map_set url bytes (soundsCache w)) w).
    assert (Hlive0 : pool_live w0) by exact Hlive.
    pose proof (registerSound_spec id url isMusic bytes w0 Hlive0) as (R1 & R2 & _).
    destruct (registerSound id url isMusic bytes w0) as [w1 r]. cbn [fst snd] in *.
    rewrite (proj2 (proj2 (proj2 (proj2 (proj2 (proj2 (triggerEvent_fields _ _ _))))))).
    rewrite (proj1 (proj2 (proj2 (proj2 (proj2 (proj2 (triggerEvent_fields _ _ _))))))).
    rewrite R1, R2. split; [apply map_get_set_eq | reflexivity].
Qed.

(** ** The single-music invariant *)


























Lemma play_start_flags (r : nat) (sound : Sound.t) (options : SoundOptions.t)
    (ctx : AudioContext) (w : World) :
  getSound w r = Some sound ->
  sounds (play_start r sound options ctx w) = sounds w
  /\ currentMusic (play_start r sound options ctx w) = currentMusic w
  /\ flagsOf (play_start r sound options ctx w) r
     = Some (Sound.id sound, Sound.isMusic sound, true)
  /\ forall r', r <> r' -> flagsOf (play_start r sound options ctx w) r' = flagsOf w r'.
Proof.
  intros Hs. unfold getSound in Hs.
  unfold play_start, flagsOf, getSound, modGain, modSound, modAudio.
  destruct (SoundOptions.fadeIn options) as [f|]; [destruct (positive_number f)|];
    cbn [sounds currentMusic soundObjs set_soundObjs set_audioObjs];
    (split; [reflexivity|]); (split; [reflexivity|]); split;
    try (rewrite !list_lookup_alter_eq, Hs; reflexivity);
    intros r' Hne; by rewrite !list_lookup_alter_ne.
Qed.






















(** Without any fade, [resume] on a track that was replaced also yields
    two [Playing] music sounds: [resume] does not consult [currentMusic]. *)
Lemma resume_restarts_replaced_music :
  isPlaying "m1" resumed_old_track = true /\ isPlaying "m2" resumed_old_track = true
  /\ getCurrentMusic resumed_old_track = Some "m2".
Proof. vm_compute. by repeat split. Qed.

(** A [stop] with a fade-out clears [currentMusic] at once but defers the
    flag, so a [play] during the fade also yields two [Playing] music
    sounds. *)
Lemma play_during_fading_stop :
  isPlaying "m1" played_during_fading_stop = true
  /\ isPlaying "m2" played_during_fading_stop = true
  /\ length (timers played_during_fading_stop) = 1.
Proof. vm_compute. by repeat split. Qed.

(** ** Live references *)

Lemma same_heap_refl (w : World) : same_heap w w.
Proof. by repeat split. Qed.

Lemma same_heap_trans (w1 w2 w3 : World) :
  same_heap w1 w2 -> same_heap w2 w3 -> same_heap w1 w3.
Proof.
  intros (A1 & A2 & A3 & A4) (B1 & B2 & B3 & B4).
  split; [congruence|]. split; [congruence|]. split; [congruence|].
  intros r. by rewrite B4.
Qed.

Lemma heap_ok_same_heap (w w' : World) : same_heap w w' -> heap_ok w -> heap_ok w'.
Proof.
  intros (A1 & A2 & A3 & A4) (H1 & H2 & H3). split; [|split].
  - intros id r Hid. rewrite A1 in Hid. rewrite A4. by apply (H1 id).
  - intros r a Ha. rewrite A4 in Ha. rewrite A3. by apply (H2 r).
  - by rewrite A2, A3.
Qed.

Lemma same_heap_modAudio (a : nat) (f : Audio.t -> Audio.t) (w : World) :
  same_heap w (modAudio a f w).
Proof.
  split; [reflexivity|]. split; [reflexivity|]. split; [|reflexivity].
  unfold modAudio. simpl. apply length_alter.
Qed.

Lemma same_heap_modSound (r : nat) (f : Sound.t -> Sound.t) (w : World) :
  (forall s, Sound.audio (f s) = Sound.audio s) -> same_heap w (modSound r f w).
Proof.
  intros Hf. repeat split. intros r'. unfold audioOf.
  destruct (decide (r = r')) as [<-|Hne].
  - rewrite getSound_modSound_eq. destruct (getSound w r); simpl; by rewrite ?Hf.
  - by rewrite getSound_modSound_ne.
Qed.

Lemma same_heap_modGain (r : nat) (f : GainNode.t -> GainNode.t) (w : World) :
  same_heap w (modGain r f w).
Proof. apply same_heap_modSound. by intros []. Qed.

Lemma same_heap_forEach (body : string -> nat -> World -> World) (w : World) :
  (forall id r w', same_heap w' (body id r w')) -> same_heap w (sounds_forEach body w).
Proof.
  intros Hbody. unfold sounds_forEach. generalize (sounds w). intros l. revert w.
  induction l as [|[id r] l IH]; intros w; simpl; [apply same_heap_refl|].
  eapply same_heap_trans; [apply Hbody | apply IH].
Qed.

Lemma same_heap_iter (f : World -> World) (n : nat) (w : World) :
  (forall w', same_heap w' (f w')) -> same_heap w (Nat.iter n f w).
Proof.
  intros Hf. induction n as [|n IH]; simpl; [apply same_heap_refl|].
  eapply same_heap_trans; [apply IH | apply Hf].
Qed.

Lemma same_heap_triggerEvent (event : string) (data : Payload) (w : World) :
  same_heap w (triggerEvent event data w).
Proof. unfold triggerEvent. simpl. destruct (map_get _ _); by repeat split. Qed.

(** Chains of in-place updates. *)
Ltac heap_frame :=
  repeat first
    [ apply same_heap_refl
    | apply same_heap_modAudio
    | apply same_heap_modGain
    | apply same_heap_triggerEvent
    | apply same_heap_modSound; by intros []
    | eapply same_heap_trans;
      [| first [ apply same_heap_modAudio | apply same_heap_modGain
               | apply same_heap_triggerEvent
               | apply same_heap_modSound; by intros [] ] ] ];
  try solve [by repeat split].

Lemma same_heap_stop_now (r : nat) (w : World) : same_heap w (stop_now r w).
Proof.
  unfold stop_now, cleanupAudioNodes. destruct (getSound w r); heap_frame.
Qed.

Lemma same_heap_clear_currentMusic_if (id : string) (w : World) :
  same_heap w (clear_currentMusic_if id w).
Proof. unfold clear_currentMusic_if. repeat case_match; by repeat split. Qed.

Lemma same_heap_stop (id : string) (options : SoundOptions.t) (w : World) :
  same_heap w (stop id options w).
Proof.
  unfold stop. destruct (map_get id (sounds w)) as [r|]; [|apply same_heap_refl].
  destruct (getSound w r) as [s|]; [|apply same_heap_refl].
  eapply same_heap_trans; [|apply same_heap_clear_currentMusic_if].
  unfold stop_fade_or_now.
  repeat case_match; try apply same_heap_stop_now.
  cbv zeta.
  match goal with
  | |- same_heap _ (set_timers _ ?w0) =>
      apply (same_heap_trans _ w0); [apply same_heap_modSound; by intros [] | by repeat split]
  end.
Qed.

Lemma same_heap_play_start (r : nat) (sound : Sound.t) (options : SoundOptions.t)
    (ctx : AudioContext) (w : World) :
  same_heap w (play_start r sound options ctx w).
Proof. unfold play_start. cbv zeta. repeat case_match; heap_frame. Qed.

Lemma same_heap_replace_currentMusic (r : nat) (id : string) (options : SoundOptions.t)
    (w : World) :
  same_heap w (replace_currentMusic r id options w).
Proof.
  unfold replace_currentMusic. cbv zeta.
  match goal with
  | |- same_heap _ (set_currentMusic _ ?w0) =>
      apply (same_heap_trans _ w0); [|by repeat split]
  end.
  repeat case_match; first [apply same_heap_stop | apply same_heap_refl].
Qed.

Lemma heap_ok_createPooledAudio (w : World) :
  heap_ok w -> heap_ok (fst (createPooledAudio w)).
Proof.
  intros (H1 & H2 & H3). unfold createPooledAudio. cbn [fst]. split; [|split].
  - exact H1.
  - intros r a Ha. simpl. rewrite length_app. simpl.
    pose proof (H2 r a Ha). lia.
  - simpl. rewrite length_app. simpl. apply Forall_app. split.
    + eapply Forall_impl; [exact H3|]. simpl. intros; lia.
    + constructor; [lia | constructor].
Qed.

Lemma heap_ok_getAudioFromPool (w : World) :
  heap_ok w ->
  heap_ok (fst (getAudioFromPool w))
  /\ snd (getAudioFromPool w) < length (audioObjs (fst (getAudioFromPool w))).
Proof.
  intros Hok.
  destruct (getAudioFromPool_outcome w) as [before a after Hp Ha _ | _ _ | a rest _ _ Hp].
  - split; [done|]. destruct Hok as (_ & _ & H3). rewrite Hp in H3.
    apply Forall_app in H3 as (_ & H3). by inversion H3.
  - split.
    + apply (heap_ok_createPooledAudio w Hok).
    + simpl. rewrite length_app. simpl. lia.
  - destruct Hok as (H1 & H2 & H3). rewrite Hp in H3. inversion H3 as [|x l Hx Hl]; subst.
    assert (Hlen : length (audioObjs (modAudio a Audio.pause w)) = length (audioObjs w))
      by (unfold modAudio; simpl; apply length_alter).
    split; [split; [|split]|].
    + exact H1.
    + intros r b Hb. simpl in *. rewrite length_alter. by apply (H2 r).
    + simpl. rewrite length_alter. apply Forall_app. split; [done | by constructor].
    + simpl. by rewrite length_alter.
Qed.

Lemma heap_ok_init (w : World) : heap_ok w -> heap_ok (init w).
Proof.
  intros Hok. unfold init. destruct (isInitialized w); [done|].
  assert (H0 : forall w0, heap_ok w0 ->
            heap_ok (set_visibilityListeners
                       (S (visibilityListeners (Nat.iter 5 (fun w => fst (createPooledAudio w)) w0)))
                       (Nat.iter 5 (fun w => fst (createPooledAudio w)) w0))).
  { intros w0 Hw0. generalize 5. intros n.
    assert (H1 : heap_ok (Nat.iter n (fun w => fst (createPooledAudio w)) w0)).
    { induction n as [|n IH]; simpl; [done|]. by apply heap_ok_createPooledAudio. }
    revert H1. generalize (Nat.iter n (fun w => fst (createPooledAudio w)) w0).
    intros w1 H1. apply (heap_ok_same_heap w1); [by repeat split | done]. }
  destruct (contextAvailable w).
  - apply H0. apply (heap_ok_same_heap w); [by repeat split | done].
  - apply H0. apply (heap_ok_same_heap w); [by repeat split | done].
Qed.

Lemma heap_ok_ensureInitialized (w : World) :
  heap_ok w -> heap_ok (fst (ensureInitialized w)).
Proof.
  intros Hok. unfold ensureInitialized. simpl.
  destruct (isInitialized w); [done | by apply heap_ok_init].
Qed.

Lemma heap_ok_registerSound (id url : string) (isMusic : bool) (buffer : list Byte.byte)
    (w : World) :
  heap_ok w -> heap_ok (fst (registerSound id url isMusic buffer w)).
Proof.
  intros Hok. unfold registerSound.
  destruct (heap_ok_getAudioFromPool w Hok) as (Hok1 & Hlive).
  destruct (getAudioFromPool w) as [w1 a]. cbn [fst snd] in *.
  set (wA := modAudio a (Audio.set_onerror (Some id))
               (modAudio a (Audio.set_src (Some (mkObjectURL buffer (getMimeType url)))) w1)).
  assert (HA : heap_ok wA /\ a < length (audioObjs wA)).
  { split.
    - apply (heap_ok_same_heap w1); [|done]. unfold wA. heap_frame.
    - unfold wA, modAudio. simpl. by rewrite !length_alter. }
  destruct HA as ((H1 & H2 & H3) & Ha). clearbody wA. unfold allocSound. cbn [fst].
  set (w' := set_sounds _ _).
  assert (F0 : audioOf w' (length (soundObjs wA)) = Some a).
  { unfold audioOf, getSound, w'. simpl. by rewrite list_lookup_middle. }
  assert (F1 : forall r x, audioOf wA r = Some x -> audioOf w' r = Some x).
  { intros r x Hx. unfold audioOf, getSound, w' in *. simpl.
    destruct (soundObjs wA !! r) eqn:E; [|discriminate].
    apply lookup_lt_Some in E as Hlt. by rewrite lookup_app_l, E. }
  assert (F2 : forall r x, audioOf w' r = Some x ->
                           r = length (soundObjs wA) \/ audioOf wA r = Some x).
  { intros r x Hx. destruct (decide (r = length (soundObjs wA))) as [|Hne]; [by left|].
    right. unfold audioOf, getSound, w' in *. simpl in *.
    destruct ((soundObjs wA ++ _) !! r) eqn:E; [|discriminate].
    apply lookup_lt_Some in E as Hlt. rewrite length_app in Hlt. simpl in Hlt.
    rewrite lookup_app_l in E by lia. by rewrite E. }
  split; [|split].
  - intros id' r Hid'. unfold w' in Hid'. simpl in Hid'.
    destruct (decide (id = id')) as [<-|Hne].
    + rewrite map_get_set_eq in Hid'. injection Hid' as <-. by rewrite F0.
    + rewrite map_get_set_ne in Hid' by done.
      destruct (H1 id' r Hid') as [x Hx]. rewrite (F1 r x Hx). by eexists.
  - intros r x Hx. change (audioObjs w') with (audioObjs wA).
    destruct (F2 r x Hx) as [-> | Hold]; [|by apply (H2 r)].
    rewrite F0 in Hx. by injection Hx as <-.
  - exact H3.
Qed.

Lemma same_heap_step (op : Op) (w : World) :
  match op with
  | CallInit | CallLoadSound _ _ _ | CallPlay _ _ | CallDispose | FetchSettles _ _ => False
  | _ => True
  end ->
  same_heap w (step op w).
Proof.
  assert (Hmusic : forall w0, same_heap w0 (fst (toggleMusicMute w0))).
  { intros w0. unfold toggleMusicMute. cbn [fst].
    eapply same_heap_trans; [|apply same_heap_triggerEvent].
    cbv zeta. repeat case_match; heap_frame. }
  assert (Hsfx : forall w0, same_heap w0 (fst (toggleSfxMute w0))).
  { intros w0. unfold toggleSfxMute. cbn [fst].
    eapply same_heap_trans; [|apply same_heap_triggerEvent].
    cbv zeta.
    match goal with
    | |- same_heap _ (sounds_forEach _ ?w1) => apply (same_heap_trans _ w1); [by repeat split|]
    end.
    apply same_heap_forEach. intros. repeat case_match; heap_frame. }
  destruct op; intros Hop; try contradiction; unfold step.
  - apply same_heap_stop.
  - unfold pause. repeat case_match; heap_frame.
  - unfold resume. repeat case_match; heap_frame.
  - unfold setMusicVolume. eapply same_heap_trans; [|apply same_heap_triggerEvent].
    cbv zeta.
    match goal with
    | |- same_heap _ (match currentMusic ?w1 with _ => _ end) =>
        apply (same_heap_trans _ w1); [by repeat split|]
    end.
    repeat case_match; heap_frame.
  - unfold setSfxVolume. eapply same_heap_trans; [|apply same_heap_triggerEvent].
    cbv zeta.
    match goal with
    | |- same_heap _ (sounds_forEach _ ?w1) => apply (same_heap_trans _ w1); [by repeat split|]
    end.
    apply same_heap_forEach. intros. repeat case_match; heap_frame.
  - apply Hmusic.
  - apply Hsfx.
  - unfold setMusicMute. case_match; [apply same_heap_refl | apply Hmusic].
  - unfold setSfxMute. case_match; [apply same_heap_refl | apply Hsfx].
  - unfold on. repeat case_match; by repeat split.
  - unfold off. repeat case_match; by repeat split.
  - unfold updatePosition. repeat case_match; heap_frame.
  - unfold timer_fires. repeat case_match; try apply same_heap_refl.
    eapply same_heap_trans; [|apply same_heap_stop_now]. by repeat split.
  - unfold audio_ends, cleanupAudioNodes. repeat case_match; heap_frame.
  - unfold audio_error. repeat case_match; try apply same_heap_refl.
    eapply same_heap_trans; [|apply same_heap_triggerEvent]. by repeat split.
  - unfold visibility_change. apply same_heap_iter. intros w'. case_match.
    + unfold handleBackgroundTransition. apply same_heap_forEach.
      intros. repeat case_match; heap_frame.
    + unfold handleForegroundTransition. repeat case_match; heap_frame.
  - unfold time_passes. repeat case_match; by repeat split.
Qed.

Lemma heap_ok_step (op : Op) (w : World) : heap_ok w -> heap_ok (step op w).
Proof.
  intros Hok.
  destruct op; try (apply (heap_ok_same_heap w); [by apply same_heap_step | done]).
  - by apply heap_ok_init.
  - unfold step, loadSound_begin.
    pose proof (heap_ok_ensureInitialized w Hok) as H0.
    destruct (ensureInitialized w) as [w0 ok]. cbn [fst] in H0.
    destruct (negb ok); [done|]. destruct (map_get id (sounds w0)); [done|].
    destruct (map_get url (soundsCache w0)) as [cachedBuffer|].
    + pose proof (heap_ok_registerSound id url isMusic cachedBuffer w0 H0) as H.
      by destruct (registerSound id url isMusic cachedBuffer w0).
    + cbn [fst]. apply (heap_ok_same_heap w0); [by repeat split | done].
  - unfold step, play.
    pose proof (heap_ok_ensureInitialized w Hok) as H0.
    destruct (ensureInitialized w) as [w0 ok]. cbn [fst] in H0.
    destruct ok; [|done]. destruct (audioContext w0) as [ctx|]; [|done].
    destruct (map_get id (sounds w0)) as [r|].
    2:{ cbn [fst]. apply (heap_ok_same_heap w0); [by repeat split | done]. }
    destruct (getSound w0 r) as [sound|]; [|done].
    destruct ((Sound.isMusic sound && isMusicMuted w0)
              || (negb (Sound.isMusic sound) && isSfxMuted w0)); [done|].
    cbn [fst]. apply (heap_ok_same_heap w0); [|done].
    eapply same_heap_trans; [|apply same_heap_triggerEvent].
    eapply same_heap_trans; [|apply same_heap_modAudio].
    eapply same_heap_trans; [apply (same_heap_play_start r sound options ctx)|].
    destruct (Sound.isMusic sound);
      [apply same_heap_replace_currentMusic | apply same_heap_refl].
  - unfold step, dispose.
    assert (H : heap_ok (sounds_forEach (fun id _ w => stop id SoundOptions.empty w) w)).
    { apply (heap_ok_same_heap w); [|done]. apply same_heap_forEach.
      intros. apply same_heap_stop. }
    destruct H as (_ & H2 & H3). split; [|split].
    + intros id r Hid. discriminate Hid.
    + exact H2.
    + exact H3.
  - unfold step, fetch_settles. destruct (pendingLoads w !! n) as [p|]; [|done].
    set (w0 := set_pendingLoads (delete n (pendingLoads w)) w).
    assert (H0 : heap_ok w0) by (apply (heap_ok_same_heap w); [by repeat split | done]).
    unfold loadSound_resume. destruct res as [arrayBuffer|].
    + set (w1 := set_soundsCache _ w0).
      assert (H1 : heap_ok w1) by (apply (heap_ok_same_heap w0); [by repeat split | done]).
      pose proof (heap_ok_registerSound (pl_id p) (pl_url p) (pl_isMusic p)
                    arrayBuffer w1 H1) as H.
      destruct (registerSound _ _ _ _ w1) as [w2 r]. cbn [fst] in *.
      by apply (heap_ok_same_heap _ _ (same_heap_triggerEvent _ _ _)).
    + cbn [fst]. apply (heap_ok_same_heap _ _ (same_heap_triggerEvent _ _ _)).
      apply (heap_ok_same_heap w0); [by repeat split | done].
Qed.

Lemma heap_ok_run (ops : list Op) (w : World) : heap_ok w -> heap_ok (run ops w).
Proof.
  revert w. induction ops as [|op ops IH]; intros w Hok; simpl; [done|].
  by apply IH, heap_ok_step.
Qed.

(** In every state of the engine, registry entries designate sound
    objects and sound objects and the pool designate audio elements. *)
Lemma reachable_heap_ok (w : World) : reachable w -> heap_ok w.
Proof.
  intros (available & ops & ->). apply heap_ok_run.
  split; [|split]; simpl; [discriminate | discriminate | constructor].
Qed.

Lemma reachable_registered (w : World) (id : string) (r : nat) :
  reachable w -> map_get id (sounds w) = Some r ->
  exists s o, getSound w r = Some s /\ getAudio w (Sound.audio s) = Some o.
Proof.
  intros Hw Hid. destruct (reachable_heap_ok w Hw) as (H1 & H2 & _).
  destruct (H1 id r Hid) as [a Ha]. pose proof (H2 r a Ha) as Hlt.
  unfold audioOf in Ha. destruct (getSound w r) as [s|]; [|discriminate].
  injection Ha as <-. apply lookup_lt_is_Some in Hlt as [o Ho]. by exists s, o.
Qed.

Lemma reachable_pool_live (w : World) : reachable w -> pool_live w.
Proof.
  intros Hw. destruct (reachable_heap_ok w Hw) as (_ & _ & H3).
  unfold pool_live. eapply Forall_impl; [exact H3|]. simpl.
  intros a Ha. by apply lookup_lt_is_Some.
Qed.

Lemma reachable_step (op : Op) (w : World) : reachable w -> reachable (step op w).
Proof.
  intros (available & ops & ->). exists available, (ops ++ [op]).
  unfold run. by rewrite fold_left_app.
Qed.

(** ** The claims on reachable states *)

Lemma reachable_run (ops : list Op) (available : bool) :
  reachable (run ops (new_manager available)).
Proof. by exists available, ops. Qed.

Lemma reachable_two_tracks : reachable two_tracks.
Proof. unfold two_tracks. apply reachable_run. Qed.

Lemma reachable_music_and_effect : reachable music_and_effect.
Proof. unfold music_and_effect. apply reachable_run. Qed.


Lemma registered_inv (w : World) (id : string) (s : Sound.t) :
  reachable w -> registered w id = Some s ->
  exists r o, map_get id (sounds w) = Some r /\ getSound w r = Some s
              /\ getAudio w (Sound.audio s) = Some o.
Proof.
  intros Hw Hreg. unfold registered in Hreg.
  destruct (map_get id (sounds w)) as [r|] eqn:Hid; [|discriminate].
  destruct (reachable_registered w id r Hw Hid) as (s' & o & Hs & Ho).
  assert (s' = s) by congruence. subst s'. by exists r, o.
Qed.

(** C2 (as amended): in every state of an initialised engine, a
    [loadSound(id, url)] call for an unregistered [id] fetches [url]
    exactly when the asset cache holds no bytes for [url] at the time of
    the call, and is then suspended without touching the cache or the
    registry; so a second call issued before the first fetch has settled
    fetches again (two fetches).  A call issued when the cache holds bytes
    for [url] fetches nothing and binds its sound to a blob of exactly
    those bytes.  A settled fetch stores its bytes in the cache under
    [url]. *)
Theorem C2_load_fetches_unless_cached (w : World) (id url : string) (isMusic : bool)
    (ctx : AudioContext) :
  reachable w ->
  isInitialized w = true ->
  audioContext w = Some ctx ->
  hasSoundLoaded id w = false ->
  (map_get url (soundsCache w) = None ->
     snd (loadSound_begin id url isMusic w) = LoadAwaitsFetch
     /\ fetched (fst (loadSound_begin id url isMusic w)) = fetched w ++ [url]
     /\ soundsCache (fst (loadSound_begin id url isMusic w)) = soundsCache w
     /\ sounds (fst (loadSound_begin id url isMusic w)) = sounds w
     /\ forall id2 isMusic2,
          hasSoundLoaded id2 w = false ->
          fetched (fst (loadSound_begin id2 url isMusic2
                          (fst (loadSound_begin id url isMusic w))))
          = fetched w ++ [url; url])
  /\ (forall bytes,
        map_get url (soundsCache w) = Some bytes ->
        fetched (fst (loadSound_begin id url isMusic w)) = fetched w
        /\ exists r s o,
             snd (loadSound_begin id url isMusic w) = LoadReturned (Some r)
             /\ getSound (fst (loadSound_begin id url isMusic w)) r = Some s
             /\ Sound.id s = id
             /\ getAudio (fst (loadSound_begin id url isMusic w)) (Sound.audio s) = Some o
             /\ Audio.src o = Some (mkObjectURL bytes (getMimeType url)))
  /\ (forall bytes,
        map_get url (soundsCache (fst (loadSound_resume id url isMusic (FetchBody bytes) w)))
        = Some bytes
        /\ fetched (fst (loadSound_resume id url isMusic (FetchBody bytes) w)) = fetched w).
Proof.
  intros Hw Hinit Hctx Hid.
  pose proof (reachable_pool_live w Hw) as Hlive.
  destruct (load_fetches_unless_cached w id url isMusic ctx Hinit Hctx Hid) as (H1 & H2 & H3).
  split; [|split].
  - intros Hurl. destruct (H1 Hurl) as (A1 & A2 & A3).
    split; [done|]. split; [done|]. split; [|split; [|done]].
    + assert (Hid' : map_get id (sounds w) = None).
      { unfold hasSoundLoaded, map_has in Hid. by destruct (map_get id (sounds w)). }
      by rewrite (loadSound_fetches w w id url isMusic
                    (ensureInitialized_ready w ctx Hinit Hctx) Hid' Hurl).
    + assert (Hid' : map_get id (sounds w) = None).
      { unfold hasSoundLoaded, map_has in Hid. by destruct (map_get id (sounds w)). }
      by rewrite (loadSound_fetches w w id url isMusic
                    (ensureInitialized_ready w ctx Hinit Hctx) Hid' Hurl).
  - intros bytes Hurl. by apply H2.
  - intros bytes. by apply H3.
Qed.

Lemma C2_load_witness :
  fetched (fst (loadSound_begin "x" "/x.mp3" false
                  (fst (loadSound_begin "x" "/x.mp3" false (init (new_manager true))))))
  = fetched (init (new_manager true)) ++ ["/x.mp3"; "/x.mp3"]
  /\ fetched (fst (loadSound_begin "m3" "/m1.mp3" true two_tracks)) = fetched two_tracks.
Proof.
  split.
  - destruct (C2_load_fetches_unless_cached (init (new_manager true)) "x" "/x.mp3" false
                (mkContext 0)) as (H & _).
    + by exists true, [CallInit].
    + vm_compute. reflexivity.
    + vm_compute. reflexivity.
    + vm_compute. reflexivity.
    + destruct H as (_ & _ & _ & _ & H); [vm_compute; reflexivity|].
      apply H. vm_compute. reflexivity.
  - destruct (C2_load_fetches_unless_cached two_tracks "m3" "/m1.mp3" true (mkContext 0))
      as (_ & H & _).
    + apply reachable_two_tracks.
    + vm_compute. reflexivity.
    + vm_compute. reflexivity.
    + vm_compute. reflexivity.
    + destruct (H bytes_a) as (H1 & _); [vm_compute; reflexivity | exact H1].
Defined.

(** C2 (as stated) fails: two [loadSound('x', '/x.mp3')] calls, the second
    issued before the first fetch has settled, execute two fetches of the
    URL and leave two suspended calls. *)
Lemma C2_concurrent_loads_fetch_twice :
  reachable concurrent_loads
  /\ fetches_of "/x.mp3" concurrent_loads = 2
  /\ length (pendingLoads concurrent_loads) = 2.
Proof.
  split.
  - exists true. eexists. reflexivity.
  - vm_compute. by split.
Qed.










(** C10: in every state of the engine, for a registered sound whose
    [isPlaying] flag is false, whatever brought it there, [resume(id)]
    calls [audio.play()], sets [isPlaying] and triggers [resume] with
    [{id, isMusic}] (delivered to every listener of that event); in
    particular a sound stopped by [stop(id)] is not [Playing] and is
    restarted by [resume(id)]. *)
Theorem C10_resume_restarts_stopped_or_paused (w : World) (id : string) (s : Sound.t) :
  reachable w ->
  registered w id = Some s ->
  (Sound.isPlaying s = false ->
     exists o, getAudio w (Sound.audio s) = Some o
       /\ registered (resume id w) id = Some (Sound.set_isPlaying true s)
       /\ getAudio (resume id w) (Sound.audio s) = Some (Audio.play o)
       /\ triggered (resume id w)
          = triggered w ++ [mkEvent "resume" (PSound id (Sound.isMusic s))]
       /\ delivered (resume id w)
          = delivered w
            ++ map (fun l => (l, mkEvent "resume" (PSound id (Sound.isMusic s))))
                 (or_default (map_get "resume" (eventListeners w)) []))
  /\ isPlaying id (stop id SoundOptions.empty w) = false
  /\ isPlaying id (resume id (stop id SoundOptions.empty w)) = true.
Proof.
  intros Hw Hreg.
  destruct (registered_inv w id s Hw Hreg) as (r & o & Hid & Hs & Ho).
  destruct (resume_restarts w id r s o Hid Hs Ho) as (H1 & H2 & H3).
  split; [|by split]. intros Hp. exists o. split; [done | by apply H1].
Qed.

Lemma C10_resume_witness :
  isPlaying "m2" (stop "m2" SoundOptions.empty two_tracks) = false
  /\ isPlaying "m2" (resume "m2" (stop "m2" SoundOptions.empty two_tracks)) = true.
Proof.
  edestruct (C10_resume_restarts_stopped_or_paused two_tracks "m2") as (_ & H2 & H3);
    [apply reachable_two_tracks | vm_compute; reflexivity |].
  exact (conj H2 H3).
Defined.

(** ** Two further runs *)

(** Consecutive loads receive the same pooled element, since an element
    that has only been given a source is still paused; the foreground
    transition then resumes the effect together with the music. *)
Lemma shared_voice_resumed_with_music :
  (exists m s, registered shared_voice "m1" = Some m /\ registered shared_voice "s1" = Some s
               /\ Sound.audio m = Sound.audio s /\ Sound.isMusic s = false
               /\ Sound.isPlaying s = true)
  /\ audio_paused shared_voice 0 = false.
Proof.
  split; [|vm_compute; reflexivity].
  eexists _, _. split; [vm_compute; reflexivity|]. split; [vm_compute; reflexivity|].
  by repeat split.
Qed.

(** [init] pre-creates five voices without consulting [maxPoolSize] and
    [dispose] keeps the pool, so the bound of [getAudioFromPool] is not a
    bound on the pool of the engine. *)
Lemma pool_grows_by_reinitialisation :
  reachable reinitialised /\ length (audioPool reinitialised) = 25.
Proof.
  split; [unfold reinitialised; apply reachable_run | vm_compute; reflexivity].
Qed.

(** * Further properties *)

(** ** MIME types and formats *)

Lemma lower_ascii_dot (c : ascii) :
  Ascii.eqb (lower_ascii c) "."%char = Ascii.eqb c "."%char.
Proof. destruct c as [[] [] [] [] [] [] [] []]; reflexivity. Qed.

Lemma lower_ascii_idem (c : ascii) : lower_ascii (lower_ascii c) = lower_ascii c.
Proof. destruct c as [[] [] [] [] [] [] [] []]; reflexivity. Qed.

Lemma toLowerCase_idem (s : string) : toLowerCase (toLowerCase s) = toLowerCase s.
Proof. induction s as [|c s IH]; simpl; [reflexivity|]. by rewrite lower_ascii_idem, IH. Qed.

Lemma toLowerCase_append (s t : string) :
  toLowerCase (String.append s t) = String.append (toLowerCase s) (toLowerCase t).
Proof. induction s as [|c s IH]; simpl; [reflexivity|]. by rewrite IH. Qed.

Lemma last_segment_toLowerCase (acc s : string) :
  last_segment (toLowerCase acc) (toLowerCase s) = toLowerCase (last_segment acc s).
Proof.
  revert acc. induction s as [|c s IH]; intros acc; simpl; [reflexivity|].
  rewrite lower_ascii_dot. destruct (Ascii.eqb c "."%char).
  - apply (IH EmptyString).
  - rewrite <- IH, toLowerCase_append. reflexivity.
Qed.

Lemma last_segment_after_dot (acc base ext : string) :
  last_segment acc (String.append base (String "."%char ext)) = last_segment EmptyString ext.
Proof.
  revert acc. induction base as [|c base IH]; intros acc; simpl.
  - reflexivity.
  - destruct (Ascii.eqb c "."%char); apply IH.
Qed.

(** X1: the MIME type of a URL is read from the text after its last dot
    alone, and without regard to letter case. *)
Theorem X1_getMimeType_extension_only :
  (forall base ext,
      getMimeType (String.append base (String "."%char ext)) = getMimeType ext)
  /\ (forall url, getMimeType (toLowerCase url) = getMimeType url).
Proof.
  split.
  - intros base ext. unfold getMimeType. by rewrite last_segment_after_dot.
  - intros url. unfold getMimeType.
    pose proof (last_segment_toLowerCase EmptyString url) as E. simpl in E.
    by rewrite E, toLowerCase_idem.
Qed.

Lemma getSupportedFormat_first (answer : string -> string) (formats : list string) :
  match getSupportedFormat answer formats with
  | Some format =>
      exists before after,
        formats = before ++ format :: after
        /\ canPlayType answer (getMimeType format) = true
        /\ Forall (fun f => canPlayType answer (getMimeType f) = false) before
  | None => Forall (fun f => canPlayType answer (getMimeType f) = false) formats
  end.
Proof.
  induction formats as [|f rest IH]; simpl; [constructor|].
  destruct (canPlayType answer (getMimeType f)) eqn:E.
  - exists [], rest. by repeat split.
  - destruct (getSupportedFormat answer rest) as [g|].
    + destruct IH as (before & after & -> & Hg & Hb).
      exists (f :: before), after. repeat split; [done|]. by constructor.
    + by constructor.
Qed.

(** X2: [getSupportedFormat] returns the first format of the list whose
    MIME type the browser does not answer with the empty string, and
    [null] exactly when there is none. *)
Theorem X2_getSupportedFormat_first_playable (answer : string -> string)
    (formats : list string) :
  match getSupportedFormat answer formats with
  | Some format =>
      exists before after,
        formats = before ++ format :: after
        /\ answer (getMimeType format) <> EmptyString
        /\ Forall (fun f => answer (getMimeType f) = EmptyString) before
  | None => Forall (fun f => answer (getMimeType f) = EmptyString) formats
  end.
Proof.
  assert (Hc : forall t, canPlayType answer t = false <-> answer t = EmptyString).
  { intros t. unfold canPlayType. rewrite negb_false_iff. apply String.eqb_eq. }
  pose proof (getSupportedFormat_first answer formats) as H.
  destruct (getSupportedFormat answer formats) as [f|].
  - destruct H as (before & after & -> & Hf & Hb).
    exists before, after. repeat split.
    + intros E. apply Hc in E. congruence.
    + eapply Forall_impl; [exact Hb|]. intros g. apply Hc.
  - eapply Forall_impl; [exact H|]. intros g. apply Hc.
Qed.

(** ** Event bus *)

Lemma map_set_same {V} (k : string) (v : V) (m : list (string * V)) :
  map_get k m = Some v -> map_set k v m = m.
Proof.
  induction m as [|[k' v'] m IH]; simpl; [discriminate|].
  destruct (String.eqb k' k) eqn:E.
  - by intros [= ->].
  - intros H. by rewrite IH.
Qed.

Lemma remove_first_absent (c : nat) (l : list nat) : ~ In c l -> remove_first c l = l.
Proof.
  induction l as [|x l IH]; simpl; [done|]. intros H.
  destruct (Nat.eqb x c) eqn:E.
  - apply Nat.eqb_eq in E. tauto.
  - rewrite IH; tauto.
Qed.

Lemma remove_first_present (c : nat) (l : list nat) :
  In c l ->
  exists l1 l2, l = l1 ++ c :: l2 /\ ~ In c l1 /\ remove_first c l = l1 ++ l2.
Proof.
  induction l as [|x l IH]; simpl; [done|]. intros H.
  destruct (Nat.eqb x c) eqn:E.
  - apply Nat.eqb_eq in E. subst x. exists [], l. simpl. tauto.
  - apply Nat.eqb_neq in E. destruct H as [H|H]; [done|].
    destruct (IH H) as (l1 & l2 & -> & Hn & ->).
    exists (x :: l1), l2. simpl. tauto.
Qed.

Lemma remove_first_snoc (c : nat) (l : list nat) :
  remove_first c (l ++ [c]) = if existsb (Nat.eqb c) l then remove_first c l ++ [c] else l.
Proof.
  induction l as [|x l IH]; simpl.
  - by rewrite Nat.eqb_refl.
  - rewrite (Nat.eqb_sym c x). destruct (Nat.eqb x c) eqn:E; simpl; [done|].
    rewrite IH. by destruct (existsb _ l).
Qed.

Lemma existsb_eqb_In (c : nat) (l : list nat) : existsb (Nat.eqb c) l = true <-> In c l.
Proof.
  rewrite existsb_exists. split.
  - intros (x & Hx & E). apply Nat.eqb_eq in E. by subst.
  - intros H. exists c. by rewrite Nat.eqb_refl.
Qed.

Lemma listeners_of_on (event event' : string) (callback : nat) (w : World) :
  listeners_of event' (on event callback w)
  = if String.eqb event event' then listeners_of event w ++ [callback]
    else listeners_of event' w.
Proof.
  unfold listeners_of, on, map_has.
  destruct (String.eqb event event') eqn:E.
  - apply String.eqb_eq in E. subst event'.
    destruct (map_get event (eventListeners w)) as [l|] eqn:G; simpl.
    + rewrite G. simpl. by rewrite map_get_set_eq.
    + rewrite map_get_set_eq. simpl. by rewrite map_get_set_eq.
  - apply String.eqb_neq in E.
    destruct (map_get event (eventListeners w)) as [l|] eqn:G; simpl.
    + rewrite G. simpl. by rewrite map_get_set_ne.
    + rewrite map_get_set_eq. simpl. by rewrite !map_get_set_ne.
Qed.

Lemma listeners_of_off (event event' : string) (callback : nat) (w : World) :
  listeners_of event' (off event callback w)
  = if String.eqb event event' then remove_first callback (listeners_of event w)
    else listeners_of event' w.
Proof.
  unfold listeners_of, off.
  destruct (String.eqb event event') eqn:E.
  - apply String.eqb_eq in E. subst event'.
    destruct (map_get event (eventListeners w)) as [l|] eqn:G; simpl.
    + by rewrite map_get_set_eq.
    + by rewrite G.
  - apply String.eqb_neq in E.
    destruct (map_get event (eventListeners w)) as [l|] eqn:G; simpl; [|done].
    by rewrite map_get_set_ne.
Qed.

Lemma delivered_triggerEvent (event : string) (data : Payload) (w : World) :
  delivered (triggerEvent event data w)
  = delivered w ++ deliveries event data (listeners_of event w).
Proof.
  unfold triggerEvent, listeners_of, deliveries. simpl.
  destruct (map_get event (eventListeners w)); simpl; [done|]. by rewrite app_nil_r.
Qed.

(** X3: listeners of an event are called in registration order, a
    callback just registered last (and once per registration); events of
    another name do not reach it. *)
Theorem X3_on_registers_last (w : World) (event : string) (callback : nat)
    (data : Payload) :
  delivered (triggerEvent event data (on event callback w))
  = delivered w ++ deliveries event data (listeners_of event w)
      ++ [(callback, mkEvent event data)]
  /\ listeners_of event (on event callback (on event callback w))
     = listeners_of event w ++ [callback; callback]
  /\ (forall other,
        other <> event ->
        delivered (triggerEvent other data (on event callback w))
        = delivered w ++ deliveries other data (listeners_of other w)).
Proof.
  assert (Hd : delivered (on event callback w) = delivered w).
  { unfold on. destruct (map_has _ _); simpl; by destruct (map_get _ _). }
  split; [|split].
  - rewrite delivered_triggerEvent, Hd, listeners_of_on, String.eqb_refl.
    unfold deliveries. by rewrite map_app.
  - rewrite !listeners_of_on, String.eqb_refl. by rewrite <- app_assoc.
  - intros other Hne. rewrite delivered_triggerEvent, Hd, listeners_of_on.
    destruct (String.eqb event other) eqn:E; [|done].
    apply String.eqb_eq in E. congruence.
Qed.

(** X4: [off] removes the oldest registration of the callback for the
    event and nothing else; when the callback is not registered for the
    event the call leaves the whole state unchanged. *)
Theorem X4_off_removes_oldest_registration (w : World) (event : string)
    (callback : nat) :
  (In callback (listeners_of event w) ->
     exists l1 l2,
       listeners_of event w = l1 ++ callback :: l2 /\ ~ In callback l1
       /\ listeners_of event (off event callback w) = l1 ++ l2)
  /\ (~ In callback (listeners_of event w) -> off event callback w = w)
  /\ (forall other, other <> event ->
        listeners_of other (off event callback w) = listeners_of other w).
Proof.
  split; [|split].
  - intros Hin. destruct (remove_first_present _ _ Hin) as (l1 & l2 & E & Hn & R).
    exists l1, l2. repeat split; [done..|].
    by rewrite listeners_of_off, String.eqb_refl.
  - unfold listeners_of, off. intros Hn.
    destruct (map_get event (eventListeners w)) as [l|] eqn:G; [|done].
    simpl in Hn. rewrite remove_first_absent, map_set_same by done. by destruct w.
  - intros other Hne. rewrite listeners_of_off.
    destruct (String.eqb event other) eqn:E; [|done].
    apply String.eqb_eq in E. congruence.
Qed.

(** X5: [off] straight after [on] for the same event and callback gives
    back the listeners every event had before, provided the callback was
    not already registered for the event; if it was, the pair moves its
    oldest registration to the end. *)
Theorem X5_on_off_round_trip (w : World) (event : string) (callback : nat) :
  (forall e,
      e <> event ->
      listeners_of e (off event callback (on event callback w)) = listeners_of e w)
  /\ (~ In callback (listeners_of event w) ->
        listeners_of event (off event callback (on event callback w))
        = listeners_of event w)
  /\ (In callback (listeners_of event w) ->
        listeners_of event (off event callback (on event callback w))
        = remove_first callback (listeners_of event w) ++ [callback]).
Proof.
  split.
  - intros e Hne. rewrite listeners_of_off.
    destruct (String.eqb event e) eqn:E.
    + apply String.eqb_eq in E. congruence.
    + by rewrite listeners_of_on, E.
  - rewrite listeners_of_off, String.eqb_refl, listeners_of_on, String.eqb_refl.
    rewrite remove_first_snoc. rewrite <- existsb_eqb_In.
    destruct (existsb _ _); split; intros H; congruence.
Qed.

(** ** Pause and resume *)

Lemma getSound_triggerEvent (event : string) (data : Payload) (w : World) (r : nat) :
  getSound (triggerEvent event data w) r = getSound w r.
Proof.
  unfold getSound. by rewrite (proj1 (proj2 (proj2 (triggerEvent_fields event data w)))).
Qed.

Lemma getAudio_triggerEvent (event : string) (data : Payload) (w : World) (a : nat) :
  getAudio (triggerEvent event data w) a = getAudio w a.
Proof.
  unfold getAudio.
  by rewrite (proj1 (proj2 (proj2 (proj2 (triggerEvent_fields event data w))))).
Qed.

Lemma sounds_triggerEvent (event : string) (data : Payload) (w : World) :
  sounds (triggerEvent event data w) = sounds w.
Proof. apply triggerEvent_fields. Qed.

Lemma triggered_triggerEvent (event : string) (data : Payload) (w : World) :
  triggered (triggerEvent event data w) = triggered w ++ [mkEvent event data].
Proof. unfold triggerEvent. simpl. by destruct (map_get _ _). Qed.

Lemma timers_triggerEvent (event : string) (data : Payload) (w : World) :
  timers (triggerEvent event data w) = timers w.
Proof. unfold triggerEvent. simpl. by destruct (map_get event (eventListeners w)). Qed.

Lemma clock_triggerEvent (event : string) (data : Payload) (w : World) :
  clock (triggerEvent event data w) = clock w.
Proof. unfold triggerEvent. simpl. by destruct (map_get event (eventListeners w)). Qed.


Lemma pause_playing (id : string) (w : World) (r : nat) (s : Sound.t) :
  map_get id (sounds w) = Some r -> getSound w r = Some s -> Sound.isPlaying s = true ->
  pause id w
  = triggerEvent "pause" (PSound id (Sound.isMusic s))
      (modSound r (Sound.set_isPlaying false) (modAudio (Sound.audio s) Audio.pause w)).
Proof. intros Hid Hs Hp. unfold pause. by rewrite Hid, Hs, Hp. Qed.

Lemma resume_not_playing (id : string) (w : World) (r : nat) (s : Sound.t) :
  map_get id (sounds w) = Some r -> getSound w r = Some s -> Sound.isPlaying s = false ->
  resume id w
  = triggerEvent "resume" (PSound id (Sound.isMusic s))
      (modSound r (Sound.set_isPlaying true) (modAudio (Sound.audio s) Audio.play w)).
Proof. intros Hid Hs Hp. unfold resume. by rewrite Hid, Hs, Hp. Qed.

Lemma pause_not_playing (id : string) (w : World) (r : nat) (s : Sound.t) :
  map_get id (sounds w) = Some r -> getSound w r = Some s -> Sound.isPlaying s = false ->
  pause id w = w.
Proof. intros Hid Hs Hp. unfold pause. by rewrite Hid, Hs, Hp. Qed.

Lemma resume_playing (id : string) (w : World) (r : nat) (s : Sound.t) :
  map_get id (sounds w) = Some r -> getSound w r = Some s -> Sound.isPlaying s = true ->
  resume id w = w.
Proof. intros Hid Hs Hp. unfold resume. by rewrite Hid, Hs, Hp. Qed.

(** X6: [pause] and [resume] are idempotent in every state: a second
    call in a row finds the flag already set and does nothing, so it
    triggers no second event. *)
Theorem X6_pause_resume_idempotent (id : string) (w : World) :
  pause id (pause id w) = pause id w /\ resume id (resume id w) = resume id w.
Proof.
  split.
  - destruct (map_get id (sounds w)) as [r|] eqn:Hid.
    2:{ unfold pause at 2 3. rewrite Hid. unfold pause. by rewrite Hid. }
    destruct (getSound w r) as [s|] eqn:Hs.
    2:{ unfold pause at 2 3. rewrite Hid, Hs. unfold pause. by rewrite Hid, Hs. }
    destruct (Sound.isPlaying s) eqn:Hp.
    + rewrite (pause_playing id w r s Hid Hs Hp).
      eapply pause_not_playing.
      * by rewrite sounds_triggerEvent.
      * rewrite getSound_triggerEvent, getSound_modSound_eq.
        change (getSound (modAudio ?a ?f w) r) with (getSound w r). by rewrite Hs.
      * done.
    + rewrite (pause_not_playing id w r s Hid Hs Hp).
      by apply (pause_not_playing id w r s).
  - destruct (map_get id (sounds w)) as [r|] eqn:Hid.
    2:{ unfold resume at 2 3. rewrite Hid. unfold resume. by rewrite Hid. }
    destruct (getSound w r) as [s|] eqn:Hs.
    2:{ unfold resume at 2 3. rewrite Hid, Hs. unfold resume. by rewrite Hid, Hs. }
    destruct (Sound.isPlaying s) eqn:Hp.
    + rewrite (resume_playing id w r s Hid Hs Hp).
      by apply (resume_playing id w r s).
    + rewrite (resume_not_playing id w r s Hid Hs Hp).
      eapply resume_playing.
      * by rewrite sounds_triggerEvent.
      * rewrite getSound_triggerEvent, getSound_modSound_eq.
        change (getSound (modAudio ?a ?f w) r) with (getSound w r). by rewrite Hs.
      * done.
Qed.




Lemma modAudio_modSound (a r : nat) (f : Audio.t -> Audio.t) (g : Sound.t -> Sound.t)
    (w : World) :
  modAudio a f (modSound r g w) = modSound r g (modAudio a f w).
Proof. reflexivity. Qed.

Lemma modSound_modSound (r : nat) (f g : Sound.t -> Sound.t) (w : World) :
  modSound r f (modSound r g w) = modSound r (f ∘ g) w.
Proof. unfold modSound. simpl. by rewrite list_alter_alter_eq. Qed.

Lemma modAudio_modAudio (a : nat) (f g : Audio.t -> Audio.t) (w : World) :
  modAudio a f (modAudio a g w) = modAudio a (f ∘ g) w.
Proof. unfold modAudio. simpl. by rewrite list_alter_alter_eq. Qed.




(** X7: pausing a playing sound pauses its voice where it is and clears
    [isPlaying]; the position, the gain and panner nodes, the options and
    the pending timers are kept, the sound stays the current music if it
    was, and one [pause] event is triggered. *)
Theorem X7_pause_keeps_position_and_nodes (w : World) (id : string) (s : Sound.t) :
  reachable w -> registered w id = Some s -> Sound.isPlaying s = true ->
  exists o, getAudio w (Sound.audio s) = Some o
    /\ registered (pause id w) id = Some (Sound.set_isPlaying false s)
    /\ getAudio (pause id w) (Sound.audio s) = Some (Audio.pause o)
    /\ triggered (pause id w)
       = triggered w ++ [mkEvent "pause" (PSound id (Sound.isMusic s))]
    /\ currentMusic (pause id w) = currentMusic w
    /\ timers (pause id w) = timers w.
Proof.
  intros Hw Hreg Hp.
  destruct (registered_inv w id s Hw Hreg) as (r & o & Hid & Hs & Ho).
  exists o. split; [done|].
  rewrite (pause_playing id w r s Hid Hs Hp).
  split; [|split; [|split; [|split]]].
  - unfold registered. rewrite sounds_triggerEvent.
    change (sounds (modSound ?r0 ?f (modAudio ?a ?g ?x))) with (sounds x). rewrite Hid.
    rewrite getSound_triggerEvent, getSound_modSound_eq.
    change (getSound (modAudio ?a ?f w) r) with (getSound w r). by rewrite Hs.
  - rewrite getAudio_triggerEvent.
    change (getAudio (modSound ?r0 ?f ?x) ?a) with (getAudio x a).
    rewrite getAudio_modAudio_eq. by rewrite Ho.
  - rewrite triggered_triggerEvent. reflexivity.
  - rewrite (proj1 (proj2 (proj2 (proj2 (proj2 (triggerEvent_fields _ _ _)))))).
    reflexivity.
  - by rewrite timers_triggerEvent.
Qed.

Lemma X7_pause_witness :
  triggered (pause "m1" music_and_effect)
  = triggered music_and_effect ++ [mkEvent "pause" (PSound "m1" true)].
Proof.
  edestruct (X7_pause_keeps_position_and_nodes music_and_effect "m1")
    as (o & _ & _ & _ & H & _);
    [apply reachable_music_and_effect | vm_compute; reflexivity | reflexivity | exact H].
Defined.



(** ** Mute toggles *)

Lemma set_paused_idem (m : bool) (o : Audio.t) :
  Audio.set_paused m (Audio.set_paused m o) = Audio.set_paused m o.
Proof. reflexivity. Qed.


Lemma reachable_sound_voice (w : World) (r : nat) (s : Sound.t) :
  reachable w -> getSound w r = Some s -> exists o, getAudio w (Sound.audio s) = Some o.
Proof.
  intros Hw Hs. destruct (reachable_heap_ok w Hw) as (_ & H & _).
  assert (Hlt : Sound.audio s < length (audioObjs w)).
  { apply (H r). unfold audioOf. by rewrite Hs. }
  apply lookup_lt_is_Some in Hlt. destruct Hlt as [o Ho]. by exists o.
Qed.


(** X9: [toggleMusicMute] flips the music mute flag and returns it; the
    voice of the current music is paused when the channel becomes muted
    and started when it becomes unmuted, whether or not the track's
    [isPlaying] flag is set; no sound object and no other voice changes,
    and one [muteChange] event carries the new flag. *)
Theorem X9_toggleMusicMute_voice (w : World) (cr : nat) (cs : Sound.t) :
  reachable w -> currentMusic w = Some cr -> getSound w cr = Some cs ->
  let m := negb (isMusicMuted w) in
  let w' := fst (toggleMusicMute w) in
  exists o, getAudio w (Sound.audio cs) = Some o
    /\ snd (toggleMusicMute w) = m /\ isMusicMuted w' = m
    /\ getAudio w' (Sound.audio cs) = Some (Audio.set_paused m o)
    /\ (forall a, a <> Sound.audio cs -> getAudio w' a = getAudio w a)
    /\ soundObjs w' = soundObjs w
    /\ triggered w' = triggered w ++ [mkEvent "muteChange" (PMute "music" m)].
Proof.
  intros Hw Hc Hs m w'.
  destruct (reachable_sound_voice w cr cs Hw Hs) as [o Ho]. exists o.
  split; [done|].
  assert (E : toggleMusicMute w
              = (triggerEvent "muteChange" (PMute "music" m)
                   (modAudio (Sound.audio cs) (Audio.set_paused m)
                      (set_isMusicMuted m w)), m)).
  { unfold toggleMusicMute. cbv zeta.
    change (currentMusic (set_isMusicMuted ?x w)) with (currentMusic w).
    rewrite Hc.
    change (getSound (set_isMusicMuted ?x w) cr) with (getSound w cr).
    rewrite Hs.
    change (isMusicMuted (set_isMusicMuted ?x w)) with x. fold m.
    destruct m; reflexivity. }
  unfold w'. rewrite E. simpl fst. simpl snd.
  split; [done|]. split; [|split; [|split; [|split]]].
  - by rewrite (proj1 (proj2 (proj2 (triggerEvent_volumes _ _ _)))).
  - rewrite getAudio_triggerEvent, getAudio_modAudio_eq.
    change (getAudio (set_isMusicMuted ?x w) ?a) with (getAudio w a). by rewrite Ho.
  - intros a Hne. rewrite getAudio_triggerEvent, getAudio_modAudio_ne by done. reflexivity.
  - by rewrite (proj1 (proj2 (proj2 (triggerEvent_fields _ _ _)))).
  - by rewrite triggered_triggerEvent.
Qed.

Lemma X9_toggleMusicMute_witness :
  isMusicMuted (fst (toggleMusicMute music_and_effect)) = true.
Proof.
  edestruct (X9_toggleMusicMute_voice music_and_effect 0) as (o & _ & _ & H & _);
    [apply reachable_music_and_effect | vm_compute; reflexivity..| exact H].
Defined.



(** ** Position *)


Lemma updatePosition_found (id : string) (pan distance : Q) (w : World) (r : nat)
    (s : Sound.t) (p : PannerNode.t) :
  map_get id (sounds w) = Some r -> getSound w r = Some s -> Sound.panner s = Some p ->
  updatePosition id pan distance w
  = let w1 := modSound r (Sound.set_panner
                            (Some (PannerNode.mk (Math_max (-1) (Math_min 1 pan))))) w in
    if positive_number distance then
      modGain r (gain_set_value
                   (Qmult (Qmult (if Sound.isMusic s then musicVolume w else sfxVolume w)
                             (or_default (SoundOptions.volume (Sound.options s)) 1%Q))
                      (Qdiv 1 (Qplus 1 (Qmult distance (1 # 10)))))) w1
    else w1.
Proof. intros Hid Hs Hp. unfold updatePosition. by rewrite Hid, Hs, Hp. Qed.

Lemma updatePosition_sound (id : string) (pan distance : Q) (w : World) (r : nat)
    (s : Sound.t) (p : PannerNode.t) :
  map_get id (sounds w) = Some r -> getSound w r = Some s -> Sound.panner s = Some p ->
  sounds (updatePosition id pan distance w) = sounds w
  /\ audioObjs (updatePosition id pan distance w) = audioObjs w
  /\ triggered (updatePosition id pan distance w) = triggered w
  /\ getSound (updatePosition id pan distance w) r
     = Some (let s1 := Sound.set_panner
                         (Some (PannerNode.mk (Math_max (-1) (Math_min 1 pan)))) s in
             if positive_number distance then
               Sound.set_gain
                 (option_map
                    (gain_set_value
                       (Qmult (Qmult (if Sound.isMusic s then musicVolume w else sfxVolume w)
                                 (or_default (SoundOptions.volume (Sound.options s)) 1%Q))
                          (Qdiv 1 (Qplus 1 (Qmult distance (1 # 10))))))
                    (Sound.gain s1)) s1
             else s1).
Proof.
  intros Hid Hs Hp. rewrite (updatePosition_found id pan distance w r s p Hid Hs Hp).
  cbv zeta. destruct (positive_number distance).
  - repeat split. unfold modGain. rewrite getSound_modSound_eq, getSound_modSound_eq, Hs.
    reflexivity.
  - repeat split. by rewrite getSound_modSound_eq, Hs.
Qed.



Lemma attenuation_bounds (v d : Q) :
  (0 < d)%Q -> (0 <= v)%Q ->
  (0 <= v * (1 / (1 + d * (1 # 10))))%Q /\ (v * (1 / (1 + d * (1 # 10))) <= v)%Q.
Proof.
  intros Hd Hv.
  assert (Hx : (1 < 1 + d * (1 # 10))%Q) by lra.
  set (x := (1 + d * (1 # 10))%Q) in *.
  assert (Hi : (0 < / x)%Q) by (apply Qinv_lt_0_compat; lra).
  assert (Hxi : (x * / x == 1)%Q) by (apply Qmult_inv_r; lra).
  unfold Qdiv. set (i := (/ x)%Q) in *. split; nra.
Qed.

Lemma attenuation_monotone (v d1 d2 : Q) :
  (0 < d1)%Q -> (d1 <= d2)%Q -> (0 <= v)%Q ->
  (v * (1 / (1 + d2 * (1 # 10))) <= v * (1 / (1 + d1 * (1 # 10))))%Q.
Proof.
  intros H1 H2 Hv.
  set (x1 := (1 + d1 * (1 # 10))%Q). set (x2 := (1 + d2 * (1 # 10))%Q).
  assert (1 < x1)%Q by (unfold x1; lra). assert (x1 <= x2)%Q by (unfold x1, x2; lra).
  assert (0 < / x1)%Q by (apply Qinv_lt_0_compat; lra).
  assert (0 < / x2)%Q by (apply Qinv_lt_0_compat; lra).
  assert (x1 * / x1 == 1)%Q by (apply Qmult_inv_r; lra).
  assert (x2 * / x2 == 1)%Q by (apply Qmult_inv_r; lra).
  unfold Qdiv. set (i1 := (/ x1)%Q) in *. set (i2 := (/ x2)%Q) in *.
  assert (i2 <= i1)%Q by nra. nra.
Qed.

Lemma positive_number_spec (x : Q) :
  (positive_number x = true <-> (0 < x)%Q) /\ (positive_number x = false <-> (x <= 0)%Q).
Proof.
  unfold positive_number. destruct (Qle_bool x 0) eqn:E; simpl.
  - apply Qle_bool_iff in E. split; split; try done; intros; lra.
  - assert (~ (x <= 0)%Q) by (intros H; apply Qle_bool_iff in H; congruence).
    split; split; try done; intros; lra.
Qed.

(** X12: for a registered sound with panner and gain nodes,
    [updatePosition] with a distance [d > 0] sets the gain to the sound's
    effective volume divided by [1 + d / 10]: for a non-negative volume
    the result lies between zero and that volume and does not grow with
    the distance; with [d <= 0] the gain is left as it is.  The automation
    timeline of the gain is never touched. *)
Theorem X12_updatePosition_attenuates (w : World) (id : string) (s : Sound.t)
    (p : PannerNode.t) (g : GainNode.t) (pan distance : Q) :
  registered w id = Some s -> Sound.panner s = Some p -> Sound.gain s = Some g ->
  let v := effective_volume (if Sound.isMusic s then musicVolume w else sfxVolume w) s in
  exists s' g',
    registered (updatePosition id pan distance w) id = Some s'
    /\ Sound.gain s' = Some g'
    /\ GainNode.events g' = GainNode.events g
    /\ ((distance <= 0)%Q -> g' = g)
    /\ ((0 < distance)%Q ->
          Qeq (GainNode.value g') (v / (1 + distance / 10))
          /\ ((0 <= v)%Q ->
                (0 <= GainNode.value g')%Q /\ (GainNode.value g' <= v)%Q
                /\ forall farther, (distance <= farther)%Q ->
                     exists s2 g2,
                       registered (updatePosition id pan farther w) id = Some s2
                       /\ Sound.gain s2 = Some g2
                       /\ (GainNode.value g2 <= GainNode.value g')%Q)).
Proof.
  intros Hreg Hp Hg v. unfold registered in Hreg.
  destruct (map_get id (sounds w)) as [r|] eqn:Hid; [|discriminate].
  assert (U : forall d,
             registered (updatePosition id pan d w) id
             = Some (let s1 := Sound.set_panner
                                 (Some (PannerNode.mk (Math_max (-1) (Math_min 1 pan)))) s in
                     if positive_number d then
                       Sound.set_gain
                         (Some (gain_set_value (Qmult v (Qdiv 1 (Qplus 1 (Qmult d (1 # 10))))) g))
                         s1
                     else s1)).
  { intros d.
    destruct (updatePosition_sound id pan d w r s p Hid Hreg Hp) as (U1 & _ & _ & U4).
    unfold registered. rewrite U1, Hid, U4. cbv zeta. simpl Sound.gain. rewrite Hg.
    unfold v, effective_volume. reflexivity. }
  destruct (positive_number_spec distance) as (P1 & P2).
  destruct (positive_number distance) eqn:Epos.
  - assert (Hd : (0 < distance)%Q) by (by apply P1).
    eexists _, _. split; [rewrite U, Epos; reflexivity|]. split; [reflexivity|].
    split; [reflexivity|]. split; [intros; lra|]. intros _. simpl GainNode.value.
    split; [field; lra|]. intros Hv.
    destruct (attenuation_bounds v distance Hd Hv) as (B1 & B2).
    split; [done|]. split; [done|]. intros farther Hf.
    assert (Ef : positive_number farther = true).
    { destruct (positive_number_spec farther) as (F1 & _). apply F1. lra. }
    eexists _, _. split; [rewrite U, Ef; reflexivity|]. split; [reflexivity|].
    simpl. by apply attenuation_monotone.
  - assert (Hd : (distance <= 0)%Q) by (by apply P2).
    exists (Sound.set_panner (Some (PannerNode.mk (Math_max (-1) (Math_min 1 pan)))) s), g.
    split; [rewrite U, Epos; reflexivity|]. split; [done|]. split; [done|].
    split; [done|]. intros; lra.
Qed.

Lemma X12_updatePosition_witness :
  exists s' g',
    registered (updatePosition "s1" 0 10 music_and_effect) "s1" = Some s'
    /\ Sound.gain s' = Some g' /\ Qeq (GainNode.value g') (1 # 2).
Proof.
  edestruct (X12_updatePosition_attenuates music_and_effect "s1") with (distance := 10%Q)
    as (s' & g' & H1 & H2 & _ & _ & H5);
    [vm_compute; reflexivity | reflexivity | reflexivity |].
  exists s', g'. split; [exact H1|]. split; [exact H2|].
  destruct H5 as (H5 & _); [reflexivity|]. rewrite H5. vm_compute. reflexivity.
Defined.

(** ** Starting a sound *)

Lemma clock_modSound (r : nat) (f : Sound.t -> Sound.t) (w : World) :
  clock (modSound r f w) = clock w.
Proof. reflexivity. Qed.

Lemma clock_modAudio (a : nat) (f : Audio.t -> Audio.t) (w : World) :
  clock (modAudio a f w) = clock w.
Proof. reflexivity. Qed.

Lemma play_start_composed (r : nat) (sound : Sound.t) (options : SoundOptions.t)
    (ctx : AudioContext) (w : World) :
  exists F G,
    play_start r sound options ctx w = modSound r F (modAudio (Sound.audio sound) G w)
    /\ (forall s, Sound.id (F s) = Sound.id s /\ Sound.isMusic (F s) = Sound.isMusic s)
    /\ F sound = started_sound w ctx sound options
    /\ (forall o, G o = started_voice w sound options o).
Proof.
  unfold play_start. cbv zeta. unfold modGain.
  destruct (SoundOptions.fadeIn options) as [f|] eqn:Ef;
    [destruct (positive_number f) eqn:Epos|];
    rewrite ?modAudio_modSound, ?clock_modSound, ?clock_modAudio;
    rewrite ?modSound_modSound, ?modAudio_modAudio;
    eexists _, _; (split; [reflexivity|]);
    (split; [by intros []|]);
    unfold started_sound, started_voice, started_gain, play_volume, fade_requested;
    rewrite Ef, ?Epos; (split; [by destruct sound | by intros []]).
Qed.

Lemma play_start_stores (r : nat) (sound : Sound.t) (options : SoundOptions.t)
    (ctx : AudioContext) (w : World) (o : Audio.t) :
  getSound w r = Some sound -> getAudio w (Sound.audio sound) = Some o ->
  getSound (play_start r sound options ctx w) r = Some (started_sound w ctx sound options)
  /\ getAudio (play_start r sound options ctx w) (Sound.audio sound)
     = Some (started_voice w sound options o)
  /\ (forall r', r <> r' -> getSound (play_start r sound options ctx w) r' = getSound w r')
  /\ (forall a, Sound.audio sound <> a ->
        getAudio (play_start r sound options ctx w) a = getAudio w a).
Proof.
  intros Hs Ho.
  destruct (play_start_composed r sound options ctx w) as (F & G & -> & _ & HF & HG).
  split; [|split; [|split]].
  - rewrite getSound_modSound_eq.
    change (getSound (modAudio ?a ?f w) r) with (getSound w r). by rewrite Hs, <- HF.
  - change (getAudio (modSound ?r0 ?f ?x) ?a) with (getAudio x a).
    by rewrite getAudio_modAudio_eq, Ho, <- HG.
  - intros r' Hne. by rewrite getSound_modSound_ne.
  - intros a Hne. change (getAudio (modSound ?r0 ?f ?x) ?a) with (getAudio x a).
    by rewrite getAudio_modAudio_ne.
Qed.

Lemma play_ready (id : string) (options : SoundOptions.t) (w : World) (ctx : AudioContext)
    (r : nat) (s : Sound.t) :
  isInitialized w = true -> audioContext w = Some ctx ->
  map_get id (sounds w) = Some r -> getSound w r = Some s ->
  (if Sound.isMusic s then isMusicMuted w else isSfxMuted w) = false ->
  play id options w
  = (triggerEvent "play" (PSound id (Sound.isMusic s))
       (modAudio (Sound.audio s)
          (Audio.set_onended (Some (mkEnded r id (or_default (SoundOptions.loop options) false))))
          (if Sound.isMusic s
           then replace_currentMusic r id options (play_start r s options ctx w)
           else play_start r s options ctx w)),
     Some r).
Proof.
  intros Hinit Hctx Hid Hs Hmute.
  unfold play. rewrite (ensureInitialized_ready w ctx Hinit Hctx), Hctx, Hid, Hs.
  destruct (Sound.isMusic s); rewrite Hmute; reflexivity.
Qed.

Lemma replace_currentMusic_same (r : nat) (id : string) (options : SoundOptions.t)
    (w : World) :
  (forall cr cs, currentMusic w = Some cr -> getSound w cr = Some cs -> Sound.id cs = id) ->
  replace_currentMusic r id options w = set_currentMusic (Some r) w.
Proof.
  intros H. unfold replace_currentMusic.
  destruct (currentMusic w) as [cr|]; [|done].
  destruct (getSound w cr) as [cs|] eqn:Hcs; [|done].
  by rewrite (H cr cs eq_refl Hcs), String.eqb_refl.
Qed.

Lemma play_starts_sound (id : string) (options : SoundOptions.t) (w : World)
    (ctx : AudioContext) (r : nat) (s : Sound.t) (o : Audio.t) :
  isInitialized w = true -> audioContext w = Some ctx ->
  map_get id (sounds w) = Some r -> getSound w r = Some s ->
  getAudio w (Sound.audio s) = Some o ->
  (if Sound.isMusic s then isMusicMuted w else isSfxMuted w) = false ->
  (Sound.isMusic s = true ->
   forall cr cs, currentMusic w = Some cr -> getSound w cr = Some cs -> Sound.id cs = id) ->
  let w' := fst (play id options w) in
  snd (play id options w) = Some r
  /\ sounds w' = sounds w
  /\ getSound w' r = Some (started_sound w ctx s options)
  /\ (forall r', r <> r' -> getSound w' r' = getSound w r')
  /\ getAudio w' (Sound.audio s)
     = Some (Audio.set_onended
               (Some (mkEnded r id (or_default (SoundOptions.loop options) false)))
               (started_voice w s options o))
  /\ (forall a, Sound.audio s <> a -> getAudio w' a = getAudio w a)
  /\ currentMusic w' = (if Sound.isMusic s then Some r else currentMusic w)
  /\ triggered w' = triggered w ++ [mkEvent "play" (PSound id (Sound.isMusic s))]
  /\ timers w' = timers w /\ clock w' = clock w.
Proof.
  intros Hinit Hctx Hid Hs Ho Hmute Hcur w'. unfold w'. clear w'.
  rewrite (play_ready id options w ctx r s Hinit Hctx Hid Hs Hmute). simpl fst. simpl snd.
  destruct (play_start_stores r s options ctx w o Hs Ho) as (S1 & S2 & S3 & S4).
  destruct (play_start_flags r s options ctx w Hs) as (P1 & P2 & _ & _).
  assert (T1 : triggered (play_start r s options ctx w) = triggered w
               /\ timers (play_start r s options ctx w) = timers w
               /\ clock (play_start r s options ctx w) = clock w).
  { unfold play_start. cbv zeta. unfold modGain.
    destruct (SoundOptions.fadeIn options) as [f|]; [destruct (positive_number f)|];
      by repeat split. }
  set (w1 := play_start r s options ctx w) in *.
  assert (E : exists cm,
             (if Sound.isMusic s then replace_currentMusic r id options w1 else w1)
             = set_currentMusic cm w1
             /\ cm = (if Sound.isMusic s then Some r else currentMusic w)).
  { destruct (Sound.isMusic s) eqn:Hm.
    - exists (Some r). split; [|done]. apply replace_currentMusic_same.
      intros cr cs Hcr Hcs. rewrite P2 in Hcr.
      destruct (decide (r = cr)) as [<-|Hne].
      + rewrite S1 in Hcs. injection Hcs as <-. simpl.
        destruct (getSound w r) as [s0|] eqn:Hs0; [|discriminate]. injection Hs as ->.
        by apply (Hcur eq_refl r s).
      + rewrite (S3 cr Hne) in Hcs. by apply (Hcur eq_refl cr cs).
    - exists (currentMusic w1). split; [by destruct w1|done]. }
  destruct E as (cm & -> & ->).
  destruct T1 as (T1 & T2 & T3).
  split; [done|]. split; [by rewrite sounds_triggerEvent|].
  split; [by rewrite getSound_triggerEvent|].
  split; [intros r' Hne; rewrite getSound_triggerEvent; by apply S3|].
  split.
  { rewrite getAudio_triggerEvent, getAudio_modAudio_eq.
    change (getAudio (set_currentMusic ?x ?y) ?a) with (getAudio y a). by rewrite S2. }
  split.
  { intros a Hne. rewrite getAudio_triggerEvent, getAudio_modAudio_ne by done.
    by apply S4. }
  split; [by rewrite (proj1 (proj2 (proj2 (proj2 (proj2 (triggerEvent_fields _ _ _))))))|].
  split; [by rewrite triggered_triggerEvent, <- T1|].
  split; [by rewrite timers_triggerEvent, <- T2|].
  by rewrite clock_triggerEvent, <- T3.
Qed.

(** ** Identities are stable *)

Ltac ident_same :=
  solve [split; [reflexivity | split; [reflexivity | left; reflexivity]]].

Lemma same_ident_refl (w : World) : same_ident w w.
Proof. ident_same. Qed.

Lemma same_ident_trans (w1 w2 w3 : World) :
  same_ident w1 w2 -> same_ident w2 w3 -> same_ident w1 w3.
Proof.
  intros (A1 & A2 & A3) (B1 & B2 & B3). split; [congruence|]. split.
  - intros r. by rewrite B2.
  - destruct B3 as [B3|B3]; [|by right]. rewrite B3. exact A3.
Qed.

Lemma same_ident_modAudio (a : nat) (f : Audio.t -> Audio.t) (w : World) :
  same_ident w (modAudio a f w).
Proof. ident_same. Qed.

Lemma same_ident_modSound (r : nat) (f : Sound.t -> Sound.t) (w : World) :
  (forall s, Sound.id (f s) = Sound.id s /\ Sound.isMusic (f s) = Sound.isMusic s) ->
  same_ident w (modSound r f w).
Proof.
  intros Hf. split; [reflexivity|]. split; [|by left]. intros r'. unfold identOf.
  destruct (decide (r = r')) as [<-|Hne].
  - rewrite getSound_modSound_eq. destruct (getSound w r) as [s|]; simpl; [|done].
    destruct (Hf s) as (-> & ->). reflexivity.
  - by rewrite getSound_modSound_ne.
Qed.

Lemma same_ident_modGain (r : nat) (f : GainNode.t -> GainNode.t) (w : World) :
  same_ident w (modGain r f w).
Proof. apply same_ident_modSound. by intros []. Qed.

Lemma same_ident_forEach (body : string -> nat -> World -> World) (w : World) :
  (forall id r w', same_ident w' (body id r w')) -> same_ident w (sounds_forEach body w).
Proof.
  intros Hbody. unfold sounds_forEach. generalize (sounds w). intros l. revert w.
  induction l as [|[id r] l IH]; intros w; simpl; [apply same_ident_refl|].
  eapply same_ident_trans; [apply Hbody | apply IH].
Qed.

Lemma same_ident_iter (f : World -> World) (n : nat) (w : World) :
  (forall w', same_ident w' (f w')) -> same_ident w (Nat.iter n f w).
Proof.
  intros Hf. induction n as [|n IH]; simpl; [apply same_ident_refl|].
  eapply same_ident_trans; [apply IH | apply Hf].
Qed.

Lemma same_ident_triggerEvent (event : string) (data : Payload) (w : World) :
  same_ident w (triggerEvent event data w).
Proof. unfold triggerEvent. simpl. destruct (map_get _ _); ident_same. Qed.

(** Chains of in-place updates. *)
Ltac ident_frame :=
  repeat first
    [ apply same_ident_refl
    | apply same_ident_modAudio
    | apply same_ident_modGain
    | apply same_ident_triggerEvent
    | apply same_ident_modSound; by intros []
    | eapply same_ident_trans;
      [| first [ apply same_ident_modAudio | apply same_ident_modGain
               | apply same_ident_triggerEvent
               | apply same_ident_modSound; by intros [] ] ] ];
  try ident_same.

Lemma same_ident_stop_now (r : nat) (w : World) : same_ident w (stop_now r w).
Proof.
  unfold stop_now, cleanupAudioNodes. destruct (getSound w r); ident_frame.
Qed.

Lemma same_ident_clear_currentMusic_if (id : string) (w : World) :
  same_ident w (clear_currentMusic_if id w).
Proof.
  unfold clear_currentMusic_if. repeat case_match; try ident_same.
  split; [reflexivity|]. split; [reflexivity|]. by right.
Qed.

Lemma same_ident_stop (id : string) (options : SoundOptions.t) (w : World) :
  same_ident w (stop id options w).
Proof.
  unfold stop. destruct (map_get id (sounds w)) as [r|]; [|apply same_ident_refl].
  destruct (getSound w r) as [s|]; [|apply same_ident_refl].
  eapply same_ident_trans; [|apply same_ident_clear_currentMusic_if].
  unfold stop_fade_or_now.
  repeat case_match; try apply same_ident_stop_now.
  cbv zeta.
  match goal with
  | |- same_ident _ (set_timers _ ?w0) =>
      apply (same_ident_trans _ w0); [apply same_ident_modSound; by intros [] | ident_same]
  end.
Qed.

Lemma same_ident_play_start (r : nat) (sound : Sound.t) (options : SoundOptions.t)
    (ctx : AudioContext) (w : World) :
  same_ident w (play_start r sound options ctx w).
Proof.
  destruct (play_start_composed r sound options ctx w) as (F & G & -> & HF & _).
  eapply same_ident_trans; [apply same_ident_modAudio | by apply same_ident_modSound].
Qed.

Lemma same_ident_createPooledAudio (w : World) : same_ident w (fst (createPooledAudio w)).
Proof. ident_same. Qed.

Lemma same_ident_init (w : World) : same_ident w (init w).
Proof.
  assert (H0 : forall n w0, same_ident w0 (set_visibilityListeners n w0))
    by (intros; ident_same).
  unfold init. destruct (isInitialized w); [apply same_ident_refl|]. cbv zeta.
  eapply same_ident_trans; [|apply H0].
  eapply same_ident_trans;
    [|apply same_ident_iter; intros; apply same_ident_createPooledAudio].
  destruct (contextAvailable w); ident_same.
Qed.

Lemma same_ident_ensureInitialized (w : World) : same_ident w (fst (ensureInitialized w)).
Proof.
  unfold ensureInitialized. simpl.
  destruct (isInitialized w); [apply same_ident_refl | apply same_ident_init].
Qed.

Lemma same_ident_step (op : Op) (w : World) :
  match op with
  | CallLoadSound _ _ _ | CallPlay _ _ | CallDispose | FetchSettles _ _ => False
  | _ => True
  end ->
  same_ident w (step op w).
Proof.
  assert (Hmusic : forall w0, same_ident w0 (fst (toggleMusicMute w0))).
  { intros w0. unfold toggleMusicMute. cbn [fst].
    eapply same_ident_trans; [|apply same_ident_triggerEvent].
    cbv zeta. repeat case_match; ident_frame. }
  assert (Hsfx : forall w0, same_ident w0 (fst (toggleSfxMute w0))).
  { intros w0. unfold toggleSfxMute. cbn [fst].
    eapply same_ident_trans; [|apply same_ident_triggerEvent].
    cbv zeta.
    match goal with
    | |- same_ident _ (sounds_forEach _ ?w1) => apply (same_ident_trans _ w1); [ident_same|]
    end.
    apply same_ident_forEach. intros. repeat case_match; ident_frame. }
  destruct op; intros Hop; try contradiction; unfold step.
  - apply same_ident_init.
  - apply same_ident_stop.
  - unfold pause. repeat case_match; ident_frame.
  - unfold resume. repeat case_match; ident_frame.
  - unfold setMusicVolume. eapply same_ident_trans; [|apply same_ident_triggerEvent].
    cbv zeta.
    match goal with
    | |- same_ident _ (match currentMusic ?w1 with _ => _ end) =>
        apply (same_ident_trans _ w1); [ident_same|]
    end.
    repeat case_match; ident_frame.
  - unfold setSfxVolume. eapply same_ident_trans; [|apply same_ident_triggerEvent].
    cbv zeta.
    match goal with
    | |- same_ident _ (sounds_forEach _ ?w1) => apply (same_ident_trans _ w1); [ident_same|]
    end.
    apply same_ident_forEach. intros. repeat case_match; ident_frame.
  - apply Hmusic.
  - apply Hsfx.
  - unfold setMusicMute. case_match; [apply same_ident_refl | apply Hmusic].
  - unfold setSfxMute. case_match; [apply same_ident_refl | apply Hsfx].
  - unfold on. repeat case_match; ident_same.
  - unfold off. repeat case_match; ident_same.
  - unfold updatePosition. repeat case_match; ident_frame.
  - unfold timer_fires. repeat case_match; try apply same_ident_refl.
    eapply same_ident_trans; [|apply same_ident_stop_now]. ident_same.
  - unfold audio_ends, cleanupAudioNodes. repeat case_match; ident_frame.
  - unfold audio_error. repeat case_match; try apply same_ident_refl.
    eapply same_ident_trans; [|apply same_ident_triggerEvent]. ident_same.
  - unfold visibility_change. apply same_ident_iter. intros w'. case_match.
    + unfold handleBackgroundTransition. apply same_ident_forEach.
      intros. repeat case_match; ident_frame.
    + unfold handleForegroundTransition. repeat case_match; ident_frame.
  - unfold time_passes. repeat case_match; ident_same.
Qed.

Lemma named_ok_same_ident (w w' : World) : same_ident w w' -> named_ok w -> named_ok w'.
Proof.
  intros (A1 & A2 & A3) (H1 & H2). split.
  - intros id r Hid. rewrite A1 in Hid. rewrite A2. by apply H1.
  - intros cr Hcr. destruct A3 as [A3|A3]; rewrite A3 in Hcr; [|discriminate].
    rewrite A2. by apply H2.
Qed.

Lemma same_ident_getAudioFromPool (w : World) : same_ident w (fst (getAudioFromPool w)).
Proof.
  destruct (getAudioFromPool_fields w) as (_ & F2 & F3 & F4 & _).
  split; [done|]. split; [|by left]. intros r. unfold identOf, getSound. by rewrite F3.
Qed.

Lemma named_ok_registerSound (id url : string) (isMusic : bool) (buffer : list Byte.byte)
    (w : World) :
  named_ok w -> named_ok (fst (registerSound id url isMusic buffer w)).
Proof.
  intros Hok. unfold registerSound.
  pose proof (named_ok_same_ident _ _ (same_ident_getAudioFromPool w) Hok) as Hok1.
  destruct (getAudioFromPool w) as [w1 a]. cbn [fst snd] in *.
  set (wA := modAudio a (Audio.set_onerror (Some id))
               (modAudio a (Audio.set_src (Some (mkObjectURL buffer (getMimeType url)))) w1)).
  assert (HA : named_ok wA).
  { apply (named_ok_same_ident w1); [|done]. unfold wA. ident_frame. }
  destruct HA as (H1 & H2). clearbody wA. unfold allocSound. cbn [fst].
  set (w' := set_sounds _ _).
  assert (F0 : identOf w' (length (soundObjs wA)) = Some (id, isMusic)).
  { unfold identOf, getSound, w'. simpl. by rewrite list_lookup_middle. }
  assert (F1 : forall r x, identOf wA r = Some x -> identOf w' r = Some x).
  { intros r x Hx. unfold identOf, getSound, w' in *. simpl.
    destruct (soundObjs wA !! r) eqn:E; [|discriminate].
    apply lookup_lt_Some in E as Hlt. by rewrite lookup_app_l, E. }
  split.
  - intros id' r Hid'. unfold w' in Hid'. simpl in Hid'.
    destruct (decide (id = id')) as [<-|Hne].
    + rewrite map_get_set_eq in Hid'. injection Hid' as <-. by exists isMusic.
    + rewrite map_get_set_ne in Hid' by done.
      destruct (H1 id' r Hid') as [m Hm]. exists m. by apply F1.
  - intros cr Hcr. change (currentMusic w') with (currentMusic wA) in Hcr.
    destruct (H2 cr Hcr) as [i Hi]. exists i. by apply F1.
Qed.

Lemma named_ok_play (id : string) (options : SoundOptions.t) (w : World) :
  named_ok w -> named_ok (fst (play id options w)).
Proof.
  intros Hok. unfold play.
  pose proof (named_ok_same_ident _ _ (same_ident_ensureInitialized w) Hok) as H0.
  destruct (ensureInitialized w) as [w0 ok]. cbn [fst] in H0.
  destruct ok; [|done]. destruct (audioContext w0) as [ctx|]; [|done].
  destruct (map_get id (sounds w0)) as [r|].
  2:{ cbn [fst]. apply (named_ok_same_ident w0); [ident_same | done]. }
  destruct (getSound w0 r) as [sound|] eqn:Hs; [|done].
  destruct ((Sound.isMusic sound && isMusicMuted w0)
            || (negb (Sound.isMusic sound) && isSfxMuted w0)); [done|].
  cbn [fst].
  apply (named_ok_same_ident _ _ (same_ident_triggerEvent _ _ _)).
  apply (named_ok_same_ident _ _ (same_ident_modAudio _ _ _)).
  pose proof (same_ident_play_start r sound options ctx w0) as S1.
  pose proof (named_ok_same_ident _ _ S1 H0) as H1.
  destruct (Sound.isMusic sound) eqn:Hm; [|done].
  assert (Hr : identOf (play_start r sound options ctx w0) r = Some (Sound.id sound, true)).
  { destruct S1 as (_ & S1 & _). rewrite S1. unfold identOf. rewrite Hs. simpl.
    by rewrite Hm. }
  revert H1 Hr. generalize (play_start r sound options ctx w0). intros w1 H1 Hr.
  unfold replace_currentMusic. cbv zeta.
  match goal with
  | |- named_ok (set_currentMusic _ ?x) =>
      assert (S2 : same_ident w1 x)
        by (repeat case_match; first [apply same_ident_stop | apply same_ident_refl]);
      revert S2; generalize x
  end.
  intros w2 (A1 & A2 & _). destruct H1 as (H1 & _). split.
  - intros id' r' Hid'. change (sounds (set_currentMusic ?c w2)) with (sounds w2) in Hid'.
    rewrite A1 in Hid'. change (identOf (set_currentMusic ?c w2) r') with (identOf w2 r').
    rewrite A2. by apply H1.
  - intros cr [= <-]. change (identOf (set_currentMusic ?c w2) r) with (identOf w2 r).
    rewrite A2, Hr. by eexists.
Qed.

Lemma named_ok_step (op : Op) (w : World) : named_ok w -> named_ok (step op w).
Proof.
  intros Hok.
  destruct op; try (apply (named_ok_same_ident w); [by apply same_ident_step | done]).
  - unfold step, loadSound_begin.
    pose proof (named_ok_same_ident _ _ (same_ident_ensureInitialized w) Hok) as H0.
    destruct (ensureInitialized w) as [w0 ok]. cbn [fst] in H0.
    destruct (negb ok); [done|]. destruct (map_get id (sounds w0)); [done|].
    destruct (map_get url (soundsCache w0)) as [cachedBuffer|].
    + pose proof (named_ok_registerSound id url isMusic cachedBuffer w0 H0) as H.
      by destruct (registerSound id url isMusic cachedBuffer w0).
    + cbn [fst]. apply (named_ok_same_ident w0); [ident_same | done].
  - by apply named_ok_play.
  - unfold step, dispose. split.
    + intros id r Hid. discriminate Hid.
    + intros cr Hcr. discriminate Hcr.
  - unfold step, fetch_settles. destruct (pendingLoads w !! n) as [p|]; [|done].
    set (w0 := set_pendingLoads (delete n (pendingLoads w)) w).
    assert (H0 : named_ok w0) by (apply (named_ok_same_ident w); [ident_same | done]).
    unfold loadSound_resume. destruct res as [arrayBuffer|].
    + set (w1 := set_soundsCache _ w0).
      assert (H1 : named_ok w1) by (apply (named_ok_same_ident w0); [ident_same | done]).
      pose proof (named_ok_registerSound (pl_id p) (pl_url p) (pl_isMusic p)
                    arrayBuffer w1 H1) as H.
      destruct (registerSound _ _ _ _ w1) as [w2 r]. cbn [fst] in *.
      by apply (named_ok_same_ident _ _ (same_ident_triggerEvent _ _ _)).
    + cbn [fst]. apply (named_ok_same_ident _ _ (same_ident_triggerEvent _ _ _)).
      apply (named_ok_same_ident w0); [ident_same | done].
Qed.

Lemma reachable_named_ok (w : World) : reachable w -> named_ok w.
Proof.
  intros (available & ops & ->).
  assert (H : forall w0, named_ok w0 -> named_ok (run ops w0)).
  { induction ops as [|op ops IH]; intros w0 Hok; simpl; [done|].
    by apply IH, named_ok_step. }
  apply H. split; simpl; discriminate.
Qed.

Lemma registered_named (w : World) (id : string) (s : Sound.t) :
  reachable w -> registered w id = Some s -> Sound.id s = id.
Proof.
  intros Hw Hreg. destruct (reachable_named_ok w Hw) as (H1 & _).
  unfold registered in Hreg. destruct (map_get id (sounds w)) as [r|] eqn:Hid; [|discriminate].
  destruct (H1 id r Hid) as [m Hm]. unfold identOf in Hm. rewrite Hreg in Hm.
  simpl in Hm. congruence.
Qed.

(** X13: in every state of the engine, the sound registered under an id
    carries that id, and [currentMusic], when set, refers to a sound of
    the music channel, whose id [getCurrentMusic] returns. *)
Theorem X13_registry_and_current_music_named (w : World) :
  reachable w ->
  (forall id s, registered w id = Some s -> Sound.id s = id)
  /\ (forall cr, currentMusic w = Some cr ->
        exists cs, getSound w cr = Some cs /\ Sound.isMusic cs = true
                   /\ getCurrentMusic w = Some (Sound.id cs)).
Proof.
  intros Hw. split.
  - intros id s. by apply registered_named.
  - intros cr Hcr. destruct (reachable_named_ok w Hw) as (_ & H2).
    destruct (H2 cr Hcr) as [i Hi]. unfold identOf in Hi.
    destruct (getSound w cr) as [cs|] eqn:Hcs; [|discriminate]. simpl in Hi.
    exists cs. split; [done|]. split; [congruence|].
    unfold getCurrentMusic. by rewrite Hcr, Hcs.
Qed.

Lemma X13_named_witness :
  exists s, registered two_tracks "m2" = Some s /\ Sound.id s = "m2".
Proof.
  eexists. split; [vm_compute; reflexivity|].
  apply (proj1 (X13_registry_and_current_music_named two_tracks reachable_two_tracks) "m2").
  vm_compute. reflexivity.
Defined.

(** X14: on an initialised engine, [play] of a registered sound whose
    channel is not muted, when no other track is the current music,
    returns the sound and starts it: [isPlaying] is set and the options
    and the start time are stored; the gain node carries the option
    volume (default 1) times the channel volume, or zero with a ramp to
    that volume over [fadeIn] seconds; the panner carries the option pan
    as given; the voice runs with the loop flag, rate and volume of the
    options and an [onended] handler for this sound; a music sound becomes
    the current music, an effect leaves it alone; one [play] event is
    triggered. *)
Theorem X14_play_starts_sound (w : World) (id : string) (s : Sound.t)
    (options : SoundOptions.t) (ctx : AudioContext) :
  reachable w -> isInitialized w = true -> audioContext w = Some ctx ->
  registered w id = Some s ->
  (if Sound.isMusic s then isMusicMuted w else isSfxMuted w) = false ->
  (Sound.isMusic s = true -> forall other, getCurrentMusic w = Some other -> other = id) ->
  let w' := fst (play id options w) in
  exists r o,
    snd (play id options w) = Some r /\ map_get id (sounds w) = Some r
    /\ getAudio w (Sound.audio s) = Some o
    /\ registered w' id = Some (started_sound w ctx s options)
    /\ getAudio w' (Sound.audio s)
       = Some (Audio.set_onended
                 (Some (mkEnded r id (or_default (SoundOptions.loop options) false)))
                 (started_voice w s options o))
    /\ getCurrentMusic w' = (if Sound.isMusic s then Some id else getCurrentMusic w)
    /\ triggered w' = triggered w ++ [mkEvent "play" (PSound id (Sound.isMusic s))].
Proof.
  intros Hw Hinit Hctx Hreg Hmute Hcur w'.
  pose proof (registered_named w id s Hw Hreg) as Hname.
  destruct (registered_inv w id s Hw Hreg) as (r & o & Hid & Hs & Ho).
  exists r, o.
  destruct (play_starts_sound id options w ctx r s o Hinit Hctx Hid Hs Ho Hmute)
    as (P1 & P2 & P3 & P4 & P5 & P6 & P7 & P8 & _).
  { intros Hm cr cs Hcr Hcs. apply (Hcur Hm). unfold getCurrentMusic. by rewrite Hcr, Hcs. }
  fold w' in P2, P3, P4, P5, P6, P7, P8.
  split; [done|]. split; [done|]. split; [done|].
  split; [unfold registered; by rewrite P2, Hid|]. split; [done|]. split; [|done].
  unfold getCurrentMusic. rewrite P7. destruct (Sound.isMusic s).
  - rewrite P3. simpl. by rewrite Hname.
  - destruct (currentMusic w) as [cr|]; [|done].
    destruct (decide (r = cr)) as [<-|Hne].
    + by rewrite P3, Hs.
    + by rewrite (P4 cr Hne).
Qed.

Lemma X14_play_witness :
  exists r, snd (play "s1" (opts_fadeIn 2) music_and_effect) = Some r.
Proof.
  edestruct (X14_play_starts_sound music_and_effect "s1") with (options := opts_fadeIn 2)
    as (r & o & H & _);
    [apply reachable_music_and_effect | vm_compute; reflexivity ..
    | intros Hm; vm_compute in Hm; discriminate Hm |].
  exists r. exact H.
Defined.

(** ** End of the media *)

Lemma audio_ends_runs (a : nat) (w : World) (o : Audio.t) (h : EndedHandler)
    (sr : Sound.t) :
  getAudio w a = Some o -> Audio.paused o = false -> Audio.loop o = false ->
  Audio.onended o = Some h -> getSound w (ended_sound h) = Some sr ->
  audio_ends a w
  = let w1 := triggerEvent "end" (PSound (ended_id h) (Sound.isMusic sr))
                (modSound (ended_sound h) (Sound.set_endTime (Some (clock w)))
                   (modSound (ended_sound h) (Sound.set_isPlaying false)
                      (modAudio a Audio.pause w))) in
    if negb (ended_loop h) then cleanupAudioNodes (ended_sound h) w1 else w1.
Proof.
  intros Ho Hp Hl Hh Hs. unfold audio_ends. rewrite Ho, Hp, Hl, Hh. cbv zeta.
  cbn [orb].
  rewrite getSound_modSound_eq, getSound_modSound_eq.
  change (getSound (modAudio ?x ?f w) ?r) with (getSound w r). rewrite Hs.
  reflexivity.
Qed.

Lemma audio_ends_looping (a : nat) (w : World) (o : Audio.t) :
  getAudio w a = Some o -> Audio.loop o = true -> audio_ends a w = w.
Proof.
  intros Ho Hl. unfold audio_ends. rewrite Ho, Hl. by rewrite orb_true_r.
Qed.

Lemma audio_ends_stops (a : nat) (w : World) (o : Audio.t) (id : string) (r : nat)
    (sr : Sound.t) :
  getAudio w a = Some o -> Audio.paused o = false -> Audio.loop o = false ->
  Audio.onended o = Some (mkEnded r id false) -> getSound w r = Some sr ->
  sounds (audio_ends a w) = sounds w
  /\ getSound (audio_ends a w) r
     = Some (Sound.set_panner None
               (Sound.set_gain None
                  (Sound.set_endTime (Some (clock w)) (Sound.set_isPlaying false sr))))
  /\ audio_paused (audio_ends a w) a = true
  /\ triggered (audio_ends a w)
     = triggered w ++ [mkEvent "end" (PSound id (Sound.isMusic sr))]
  /\ currentMusic (audio_ends a w) = currentMusic w.
Proof.
  intros Ho Hp Hl Hh Hs.
  rewrite (audio_ends_runs a w o _ sr Ho Hp Hl Hh Hs).
  cbn [ended_sound ended_id ended_loop negb]. cbv zeta. unfold cleanupAudioNodes.
  split; [|split; [|split; [|split]]].
  - change (sounds (modSound ?r0 ?f ?x)) with (sounds x). by rewrite sounds_triggerEvent.
  - rewrite getSound_modSound_eq, getSound_triggerEvent.
    rewrite getSound_modSound_eq, getSound_modSound_eq.
    change (getSound (modAudio ?x ?f w) r) with (getSound w r). by rewrite Hs.
  - unfold audio_paused.
    change (getAudio (modSound ?r0 ?f ?x) ?y) with (getAudio x y).
    rewrite getAudio_triggerEvent.
    change (getAudio (modSound ?r0 ?f (modSound ?r1 ?g ?x)) ?y) with (getAudio x y).
    by rewrite getAudio_modAudio_eq, Ho.
  - change (triggered (modSound ?r0 ?f ?x)) with (triggered x).
    by rewrite triggered_triggerEvent.
  - change (currentMusic (modSound ?r0 ?f ?x)) with (currentMusic x).
    by rewrite (proj1 (proj2 (proj2 (proj2 (proj2 (triggerEvent_fields _ _ _)))))).
Qed.

(** X15: after [play] has started a sound (as in X14), the end of its
    media does nothing when the sound was started with [loop: true];
    otherwise the [onended] handler clears [isPlaying], stores the end
    time, drops the gain and panner nodes and triggers one [end] event,
    the voice being paused; [currentMusic] is not cleared, so
    [getCurrentMusic] still names a track that has ended. *)
Theorem X15_media_end_after_play (w : World) (id : string) (s : Sound.t)
    (options : SoundOptions.t) (ctx : AudioContext) :
  reachable w -> isInitialized w = true -> audioContext w = Some ctx ->
  registered w id = Some s ->
  (if Sound.isMusic s then isMusicMuted w else isSfxMuted w) = false ->
  (Sound.isMusic s = true -> forall other, getCurrentMusic w = Some other -> other = id) ->
  let w' := fst (play id options w) in
  let w'' := audio_ends (Sound.audio s) w' in
  (SoundOptions.loop options = Some true -> w'' = w')
  /\ (or_default (SoundOptions.loop options) false = false ->
        registered w'' id
        = Some (Sound.set_panner None
                  (Sound.set_gain None
                     (Sound.set_endTime (Some (clock w))
                        (Sound.set_isPlaying false (started_sound w ctx s options)))))
        /\ audio_paused w'' (Sound.audio s) = true
        /\ triggered w''
           = triggered w ++ [mkEvent "play" (PSound id (Sound.isMusic s));
                             mkEvent "end" (PSound id (Sound.isMusic s))]
        /\ currentMusic w'' = currentMusic w').
Proof.
  intros Hw Hinit Hctx Hreg Hmute Hcur.
  destruct (registered_inv w id s Hw Hreg) as (r & o & Hid & Hs & Ho).
  destruct (play_starts_sound id options w ctx r s o Hinit Hctx Hid Hs Ho Hmute)
    as (_ & P2 & P3 & _ & P5 & _ & _ & P8 & _ & P10).
  { intros Hm cr cs Hcr Hcs. apply (Hcur Hm). unfold getCurrentMusic. by rewrite Hcr, Hcs. }
  revert P2 P3 P5 P8 P10. generalize (fst (play id options w)).
  intros w' P2 P3 P5 P8 P10. cbv zeta. split.
  - intros Hl. eapply audio_ends_looping; [exact P5|]. simpl. by rewrite Hl.
  - intros Hl. unfold started_voice in P5. rewrite Hl in P5.
    destruct (audio_ends_stops (Sound.audio s) w' _ id r _ P5 eq_refl eq_refl eq_refl P3)
      as (E1 & E2 & E3 & E4 & E5).
    split; [|split; [|split]].
    + unfold registered. by rewrite E1, P2, Hid, E2, P10.
    + exact E3.
    + rewrite E4, P8, <- app_assoc. reflexivity.
    + exact E5.
Qed.

Lemma X15_media_end_witness :
  audio_paused (audio_ends 1 (fst (play "s1" SoundOptions.empty music_and_effect))) 1 = true.
Proof.
  edestruct (X15_media_end_after_play music_and_effect "s1") with (options := SoundOptions.empty)
    as (_ & H);
    [apply reachable_music_and_effect | vm_compute; reflexivity ..
    | intros Hm; vm_compute in Hm; discriminate Hm |].
  destruct H as (_ & H & _); [reflexivity|].
  match type of H with
  | audio_paused _ (Sound.audio ?s) = _ => change (Sound.audio s) with 1 in H
  end.
  exact H.
Defined.

(** ** Handing out voices *)

Lemma find_app_first {A} (f : A -> bool) (before after : list A) (a : A) :
  Forall (fun b => f b = false) before -> f a = true ->
  find f (before ++ a :: after) = Some a.
Proof.
  intros Hb Ha. induction Hb as [|b before Hb _ IH]; simpl.
  - by rewrite Ha.
  - by rewrite Hb.
Qed.

Lemma find_only {A} (f : A -> bool) (l : list A) (a : A) :
  In a l -> f a = true -> (forall b, In b l -> f b = true -> b = a) ->
  find f l = Some a.
Proof.
  induction l as [|x l IH]; simpl; [done|]. intros Hin Ha Hu.
  destruct (f x) eqn:Hx.
  - f_equal. apply Hu; auto.
  - apply IH; auto. destruct Hin as [->|Hin]; [congruence | done].
Qed.

Lemma getAudioFromPool_again (w : World) :
  pool_live w ->
  let w1 := fst (getAudioFromPool w) in
  let a := snd (getAudioFromPool w) in
  audio_paused w1 a = true /\ find (audio_paused w1) (audioPool w1) = Some a.
Proof.
  intros Hlive.
  destruct (getAudioFromPool_outcome w)
    as [before a after Hp Ha Hb | Hb Hlen | a rest Hb Hlen Hp]; cbv zeta.
  - split; [done|]. rewrite Hp. by apply find_app_first.
  - assert (Hnew : audio_paused
                     (set_audioPool (audioPool w ++ [length (audioObjs w)])
                        (set_audioObjs (audioObjs w ++ [Audio.fresh]) w))
                     (length (audioObjs w)) = true).
    { unfold audio_paused, getAudio. simpl. by rewrite list_lookup_middle. }
    split; [done|]. simpl audioPool. apply find_app_first; [|done].
    unfold pool_live in Hlive.
    rewrite Forall_forall in Hb, Hlive. apply Forall_forall. intros b Hin.
    specialize (Hb b Hin). destruct (Hlive b Hin) as [ob Hob].
    unfold audio_paused, getAudio in *. simpl.
    apply lookup_lt_Some in Hob as Hlt. rewrite lookup_app_l by done.
    exact Hb.
  - assert (Hlive' := Hlive). unfold pool_live in Hlive'. rewrite Hp in Hlive'.
    inversion Hlive' as [|x l [oa Hoa] Hrest]; subst.
    assert (Hev : audio_paused (set_audioPool (rest ++ [a]) (modAudio a Audio.pause w)) a
                  = true).
    { unfold audio_paused.
      change (getAudio (set_audioPool ?p ?x) ?y) with (getAudio x y).
      by rewrite getAudio_modAudio_eq, Hoa. }
    split; [done|]. simpl audioPool.
    apply find_only; [apply in_or_app; right; by left | done |].
    intros b Hin Hpb. destruct (decide (a = b)) as [<-|Hne]; [done|]. exfalso.
    apply in_app_or in Hin. destruct Hin as [Hin|[<-|[]]]; [|done].
    rewrite Hp in Hb. inversion Hb as [|x l Ha Hb']; subst.
    rewrite Forall_forall in Hb'. apply list_elem_of_In in Hin. specialize (Hb' b Hin).
    unfold audio_paused in Hpb, Hb'.
    change (getAudio (set_audioPool ?p ?x) ?y) with (getAudio x y) in Hpb.
    rewrite getAudio_modAudio_ne in Hpb by done. congruence.
Qed.

Lemma getAudioFromPool_found (w : World) (a : nat) :
  find (audio_paused w) (audioPool w) = Some a -> getAudioFromPool w = (w, a).
Proof. intros F. unfold getAudioFromPool. by rewrite F. Qed.

(** X16: handing out a voice does not mark it as taken: the voice
    [getAudioFromPool] returns is paused, and a second call straight
    after returns the same voice and changes nothing. *)
Theorem X16_getAudioFromPool_hands_out_same_voice (w : World) :
  reachable w ->
  let w1 := fst (getAudioFromPool w) in
  let a := snd (getAudioFromPool w) in
  audio_paused w1 a = true /\ getAudioFromPool w1 = (w1, a).
Proof.
  intros Hw. destruct (getAudioFromPool_again w (reachable_pool_live w Hw)) as (H1 & H2).
  split; [done | by apply getAudioFromPool_found].
Qed.

Lemma X16_same_voice_witness :
  getAudioFromPool (fst (getAudioFromPool music_and_effect))
  = (fst (getAudioFromPool music_and_effect), snd (getAudioFromPool music_and_effect)).
Proof.
  exact (proj2 (X16_getAudioFromPool_hands_out_same_voice music_and_effect
                  reachable_music_and_effect)).
Defined.

(** ** Loads that follow one another *)

Lemma registerSound_bindSound (id url : string) (isMusic : bool) (buffer : list Byte.byte)
    (w : World) :
  registerSound id url isMusic buffer w
  = bindSound id url isMusic buffer (snd (getAudioFromPool w)) (fst (getAudioFromPool w)).
Proof. unfold registerSound, bindSound. by destruct (getAudioFromPool w). Qed.

Lemma bindSound_spec (id url : string) (isMusic : bool) (buffer : list Byte.byte)
    (a : nat) (w : World) :
  let w' := fst (bindSound id url isMusic buffer a w) in
  audioPool w' = audioPool w
  /\ (forall b, audio_paused w' b = audio_paused w b)
  /\ registered w' id
     = Some (Sound.mk id a isMusic SoundOptions.empty None None false None None)
  /\ (forall id' s, id <> id' -> registered w id' = Some s -> registered w' id' = Some s)
  /\ (forall o, getAudio w a = Some o ->
        getAudio w' a
        = Some (Audio.set_onerror (Some id)
                  (Audio.set_src (Some (mkObjectURL buffer (getMimeType url))) o)))
  /\ triggered w' = triggered w.
Proof.
  cbv zeta. unfold bindSound, allocSound. cbn [fst].
  split; [reflexivity|]. split; [|split; [|split; [|split]]].
  - intros b. unfold audio_paused, getAudio. simpl.
    destruct (decide (a = b)) as [<-|Hne].
    + rewrite !list_lookup_alter_eq. by destruct (audioObjs w !! a).
    + by rewrite !list_lookup_alter_ne.
  - unfold registered. simpl. rewrite map_get_set_eq. unfold getSound. simpl.
    by rewrite list_lookup_middle.
  - intros id' s Hne Hreg. unfold registered in *. simpl.
    rewrite map_get_set_ne by done.
    destruct (map_get id' (sounds w)) as [r|]; [|discriminate].
    unfold getSound in *. simpl.
    apply lookup_lt_Some in Hreg as Hlt. by rewrite lookup_app_l.
  - intros o Ho. unfold getAudio in *. simpl.
    by rewrite !list_lookup_alter_eq, Ho.
  - reflexivity.
Qed.

Lemma loadSound_resume_body (id url : string) (isMusic : bool) (buffer : list Byte.byte)
    (w : World) :
  loadSound_resume id url isMusic (FetchBody buffer) w
  = (triggerEvent "load" (PSound id isMusic)
       (fst (registerSound id url isMusic buffer
               (set_soundsCache (map_set url buffer (soundsCache w)) w))),
     Some (snd (registerSound id url isMusic buffer
                  (set_soundsCache (map_set url buffer (soundsCache w)) w)))).
Proof. unfold loadSound_resume. by destruct (registerSound _ _ _ _ _). Qed.

Lemma registered_triggerEvent (event : string) (data : Payload) (w : World) (id : string) :
  registered (triggerEvent event data w) id = registered w id.
Proof.
  unfold registered. rewrite sounds_triggerEvent.
  destruct (map_get id (sounds w)); [apply getSound_triggerEvent | done].
Qed.

Lemma audio_paused_triggerEvent (event : string) (data : Payload) (w : World) (a : nat) :
  audio_paused (triggerEvent event data w) a = audio_paused w a.
Proof. unfold audio_paused. by rewrite getAudio_triggerEvent. Qed.

Lemma find_ext_paused (w w' : World) :
  audioPool w' = audioPool w -> (forall b, audio_paused w' b = audio_paused w b) ->
  find (audio_paused w') (audioPool w') = find (audio_paused w) (audioPool w).
Proof.
  intros -> H. induction (audioPool w) as [|x l IH]; simpl; [done|].
  by rewrite H, IH.
Qed.

(** X17: when two loads complete one after the other with nothing
    started in between, both sounds are bound to the same voice: the
    first load leaves the voice paused, so the second load takes it
    again and replaces its source and its error handler; the first sound
    then plays the bytes of the second. *)
Theorem X17_consecutive_loads_share_voice (w : World) (id1 url1 : string) (isMusic1 : bool)
    (buffer1 : list Byte.byte) (id2 url2 : string) (isMusic2 : bool)
    (buffer2 : list Byte.byte) :
  reachable w -> id1 <> id2 ->
  let w1 := fst (loadSound_resume id1 url1 isMusic1 (FetchBody buffer1) w) in
  let w2 := fst (loadSound_resume id2 url2 isMusic2 (FetchBody buffer2) w1) in
  exists s1 s2 o,
    registered w2 id1 = Some s1 /\ registered w2 id2 = Some s2
    /\ Sound.audio s1 = Sound.audio s2
    /\ getAudio w2 (Sound.audio s1) = Some o
    /\ Audio.src o = Some (mkObjectURL buffer2 (getMimeType url2))
    /\ Audio.onerror o = Some id2.
Proof.
  intros Hw Hne w1 w2. unfold w2, w1. clear w1 w2.
  rewrite !loadSound_resume_body. cbn [fst].
  set (wc := set_soundsCache (map_set url1 buffer1 (soundsCache w)) w).
  assert (Hlive : pool_live wc) by (apply (reachable_pool_live w Hw)).
  rewrite (registerSound_bindSound id1 url1 isMusic1 buffer1 wc).
  destruct (getAudioFromPool_again wc Hlive) as (Hp & Hf).
  revert Hp Hf. generalize (fst (getAudioFromPool wc)), (snd (getAudioFromPool wc)).
  intros wp a Hp Hf. clear wc Hlive.
  destruct (bindSound_spec id1 url1 isMusic1 buffer1 a wp) as (B1 & B2 & B3 & _ & B5 & _).
  revert B1 B2 B3 B5. generalize (fst (bindSound id1 url1 isMusic1 buffer1 a wp)).
  intros wb B1 B2 B3 B5.
  assert (Ho : exists o, getAudio wp a = Some o).
  { unfold audio_paused in Hp. destruct (getAudio wp a) as [o|]; [by exists o | discriminate]. }
  destruct Ho as [o Ho]. specialize (B5 o Ho).
  set (w1 := triggerEvent "load" (PSound id1 isMusic1) wb).
  set (wc2 := set_soundsCache (map_set url2 buffer2 (soundsCache w1)) w1).
  assert (Hf2 : find (audio_paused wc2) (audioPool wc2) = Some a).
  { rewrite <- Hf. transitivity (find (audio_paused wb) (audioPool wb)).
    - apply find_ext_paused.
      + unfold wc2, w1. simpl. unfold triggerEvent. simpl. by destruct (map_get _ _).
      + intros b. unfold wc2. change (audio_paused (set_soundsCache ?c ?x) b)
                                with (audio_paused x b).
        apply audio_paused_triggerEvent.
    - by apply find_ext_paused. }
  rewrite (registerSound_bindSound id2 url2 isMusic2 buffer2 wc2).
  rewrite (getAudioFromPool_found wc2 a Hf2). cbn [fst snd].
  destruct (bindSound_spec id2 url2 isMusic2 buffer2 a wc2) as (_ & _ & C3 & C4 & C5 & _).
  assert (R1 : registered wc2 id1
               = Some (Sound.mk id1 a isMusic1 SoundOptions.empty None None false None None)).
  { unfold wc2. change (registered (set_soundsCache ?c ?x) id1) with (registered x id1).
    unfold w1. by rewrite registered_triggerEvent. }
  assert (A1 : getAudio wc2 a
               = Some (Audio.set_onerror (Some id1)
                         (Audio.set_src (Some (mkObjectURL buffer1 (getMimeType url1))) o))).
  { unfold wc2. change (getAudio (set_soundsCache ?c ?x) a) with (getAudio x a).
    unfold w1. by rewrite getAudio_triggerEvent. }
  eexists _, _, _. rewrite !registered_triggerEvent, getAudio_triggerEvent.
  split; [apply (C4 id1 _ (not_eq_sym Hne) R1)|]. split; [exact C3|].
  split; [reflexivity|]. split; [exact (C5 _ A1)|]. by split.
Qed.

Lemma X17_shared_voice_witness :
  exists s1 s2,
    registered
      (fst (loadSound_resume "b" "/b.mp3" false (FetchBody bytes_a)
              (fst (loadSound_resume "a" "/a.mp3" false (FetchBody bytes_a)
                      (run [CallInit] (new_manager true)))))) "a" = Some s1
    /\ registered
         (fst (loadSound_resume "b" "/b.mp3" false (FetchBody bytes_a)
                 (fst (loadSound_resume "a" "/a.mp3" false (FetchBody bytes_a)
                         (run [CallInit] (new_manager true)))))) "b" = Some s2
    /\ Sound.audio s1 = Sound.audio s2.
Proof.
  destruct (X17_consecutive_loads_share_voice (run [CallInit] (new_manager true))
              "a" "/a.mp3" false bytes_a "b" "/b.mp3" false bytes_a
              (reachable_run _ _) ltac:(discriminate))
    as (s1 & s2 & o & H1 & H2 & H3 & _).
  exists s1, s2. exact (conj H1 (conj H2 H3)).
Defined.

(** ** Initialisation state and volumes *)

Ltac config_same := solve [repeat split; intros; assumption].

Lemma same_config_refl (w : World) : same_config w w.
Proof. config_same. Qed.

Lemma same_config_trans (w1 w2 w3 : World) :
  same_config w1 w2 -> same_config w2 w3 -> same_config w1 w3.
Proof.
  intros (A1 & A2 & A3 & A4 & A5) (B1 & B2 & B3 & B4 & B5).
  split; [congruence|]. split; [by rewrite B2|]. repeat split; congruence.
Qed.

Lemma same_config_modAudio (a : nat) (f : Audio.t -> Audio.t) (w : World) :
  same_config w (modAudio a f w).
Proof. config_same. Qed.

Lemma same_config_modSound (r : nat) (f : Sound.t -> Sound.t) (w : World) :
  same_config w (modSound r f w).
Proof. config_same. Qed.

Lemma same_config_modGain (r : nat) (f : GainNode.t -> GainNode.t) (w : World) :
  same_config w (modGain r f w).
Proof. config_same. Qed.

Lemma same_config_forEach (body : string -> nat -> World -> World) (w : World) :
  (forall id r w', same_config w' (body id r w')) -> same_config w (sounds_forEach body w).
Proof.
  intros Hbody. unfold sounds_forEach. generalize (sounds w). intros l. revert w.
  induction l as [|[id r] l IH]; intros w; simpl; [apply same_config_refl|].
  eapply same_config_trans; [apply Hbody | apply IH].
Qed.

Lemma same_config_iter (f : World -> World) (n : nat) (w : World) :
  (forall w', same_config w' (f w')) -> same_config w (Nat.iter n f w).
Proof.
  intros Hf. induction n as [|n IH]; simpl; [apply same_config_refl|].
  eapply same_config_trans; [apply IH | apply Hf].
Qed.

Lemma same_config_triggerEvent (event : string) (data : Payload) (w : World) :
  same_config w (triggerEvent event data w).
Proof. unfold triggerEvent. simpl. destruct (map_get _ _); config_same. Qed.

Ltac config_frame :=
  repeat first
    [ apply same_config_refl
    | apply same_config_modAudio
    | apply same_config_modGain
    | apply same_config_triggerEvent
    | apply same_config_modSound
    | eapply same_config_trans;
      [| first [ apply same_config_modAudio | apply same_config_modGain
               | apply same_config_triggerEvent
               | apply same_config_modSound ] ] ];
  try config_same.

Lemma same_config_stop_now (r : nat) (w : World) : same_config w (stop_now r w).
Proof.
  unfold stop_now, cleanupAudioNodes. destruct (getSound w r); config_frame.
Qed.

Lemma same_config_clear_currentMusic_if (id : string) (w : World) :
  same_config w (clear_currentMusic_if id w).
Proof. unfold clear_currentMusic_if. repeat case_match; config_same. Qed.

Lemma same_config_stop (id : string) (options : SoundOptions.t) (w : World) :
  same_config w (stop id options w).
Proof.
  unfold stop. destruct (map_get id (sounds w)) as [r|]; [|apply same_config_refl].
  destruct (getSound w r) as [s|]; [|apply same_config_refl].
  eapply same_config_trans; [|apply same_config_clear_currentMusic_if].
  unfold stop_fade_or_now.
  repeat case_match; try apply same_config_stop_now.
  cbv zeta.
  match goal with
  | |- same_config _ (set_timers _ ?w0) =>
      apply (same_config_trans _ w0); [apply same_config_modSound | config_same]
  end.
Qed.

Lemma same_config_play_start (r : nat) (sound : Sound.t) (options : SoundOptions.t)
    (ctx : AudioContext) (w : World) :
  same_config w (play_start r sound options ctx w).
Proof.
  destruct (play_start_composed r sound options ctx w) as (F & G & -> & _).
  config_same.
Qed.

Lemma same_config_replace_currentMusic (r : nat) (id : string) (options : SoundOptions.t)
    (w : World) :
  same_config w (replace_currentMusic r id options w).
Proof.
  unfold replace_currentMusic. cbv zeta.
  match goal with
  | |- same_config _ (set_currentMusic _ ?w0) =>
      apply (same_config_trans _ w0); [|config_same]
  end.
  repeat case_match; first [apply same_config_stop | apply same_config_refl].
Qed.

Lemma same_config_getAudioFromPool (w : World) : same_config w (fst (getAudioFromPool w)).
Proof.
  unfold getAudioFromPool, createPooledAudio. repeat case_match; cbn [fst]; config_same.
Qed.

Lemma same_config_registerSound (id url : string) (isMusic : bool) (buffer : list Byte.byte)
    (w : World) :
  same_config w (fst (registerSound id url isMusic buffer w)).
Proof.
  rewrite registerSound_bindSound.
  eapply same_config_trans; [apply same_config_getAudioFromPool|].
  generalize (fst (getAudioFromPool w)), (snd (getAudioFromPool w)). intros w1 a.
  unfold bindSound, allocSound. cbn [fst]. config_same.
Qed.

Lemma same_config_step (op : Op) (w : World) :
  match op with
  | CallInit | CallLoadSound _ _ _ | CallPlay _ _ | CallDispose
  | CallSetMusicVolume _ | CallSetSfxVolume _ | TimePasses _ => False
  | _ => True
  end ->
  same_config w (step op w).
Proof.
  assert (Hmusic : forall w0, same_config w0 (fst (toggleMusicMute w0))).
  { intros w0. unfold toggleMusicMute. cbn [fst].
    eapply same_config_trans; [|apply same_config_triggerEvent].
    cbv zeta. repeat case_match; config_frame. }
  assert (Hsfx : forall w0, same_config w0 (fst (toggleSfxMute w0))).
  { intros w0. unfold toggleSfxMute. cbn [fst].
    eapply same_config_trans; [|apply same_config_triggerEvent].
    cbv zeta.
    match goal with
    | |- same_config _ (sounds_forEach _ ?w1) => apply (same_config_trans _ w1); [config_same|]
    end.
    apply same_config_forEach. intros. repeat case_match; config_frame. }
  destruct op; intros Hop; try contradiction; unfold step.
  - apply same_config_stop.
  - unfold pause. repeat case_match; config_frame.
  - unfold resume. repeat case_match; config_frame.
  - apply Hmusic.
  - apply Hsfx.
  - unfold setMusicMute. case_match; [apply same_config_refl | apply Hmusic].
  - unfold setSfxMute. case_match; [apply same_config_refl | apply Hsfx].
  - unfold on. repeat case_match; config_same.
  - unfold off. repeat case_match; config_same.
  - unfold updatePosition. repeat case_match; config_frame.
  - unfold fetch_settles. destruct (pendingLoads w !! n) as [p|]; [|apply same_config_refl].
    match goal with
    | |- same_config _ (fst (loadSound_resume _ _ _ _ ?w0)) =>
        apply (same_config_trans _ w0); [config_same|]; generalize w0
    end.
    intros w0. unfold loadSound_resume. destruct res as [arrayBuffer|].
    + match goal with
      | |- context [registerSound ?i ?u ?m ?b ?w1] =>
          pose proof (same_config_registerSound i u m b w1) as H;
          destruct (registerSound i u m b w1) as [w2 r]
      end.
      cbn [fst] in *. eapply same_config_trans; [|apply same_config_triggerEvent].
      eapply same_config_trans; [|exact H]. config_same.
    + cbn [fst]. eapply same_config_trans; [|apply same_config_triggerEvent]. config_same.
  - unfold timer_fires. repeat case_match; try apply same_config_refl.
    eapply same_config_trans; [|apply same_config_stop_now]. config_same.
  - unfold audio_ends, cleanupAudioNodes. repeat case_match; config_frame.
  - unfold audio_error. repeat case_match; try apply same_config_refl.
    eapply same_config_trans; [|apply same_config_triggerEvent]. config_same.
  - unfold visibility_change. apply same_config_iter. intros w'. case_match.
    + unfold handleBackgroundTransition. apply same_config_forEach.
      intros. repeat case_match; config_frame.
    + unfold handleForegroundTransition. repeat case_match; config_frame.
Qed.

Lemma config_ok_same_config (w w' : World) : same_config w w' -> config_ok w -> config_ok w'.
Proof.
  intros (A1 & A2 & A3 & A4 & A5) (H1 & H2). unfold config_ok.
  rewrite A1, A3, A4, A5. split; [|done].
  rewrite H1. split; intros H E; apply H; by apply A2.
Qed.

Lemma config_ok_init (w : World) : config_ok w -> config_ok (init w).
Proof.
  intros Hok.
  assert (P : forall A (proj : World -> A),
             (forall n w0, proj (set_visibilityListeners n w0) = proj w0) ->
             (forall w0, proj (fst (createPooledAudio w0)) = proj w0) ->
             (forall l t w0, proj (console_write l t w0) = proj w0) ->
             isInitialized w = false ->
             proj (init w)
             = proj (if contextAvailable w
                     then set_isInitialized true (set_audioContext (Some (mkContext 0)) w)
                     else w)).
  { intros A proj P1 P2 P3 Hi. unfold init. rewrite Hi. cbv zeta.
    rewrite P1, (iter_preserves proj _ 5) by exact P2.
    destruct (contextAvailable w); by rewrite P3. }
  destruct (isInitialized w) eqn:Hi; [unfold init; by rewrite Hi|].
  destruct Hok as (H1 & H2). unfold config_ok.
  rewrite (P _ isInitialized), (P _ audioContext), (P _ musicVolume), (P _ sfxVolume),
    (P _ contextAvailable) by done.
  destruct H2 as (V1 & V2 & V3 & V4 & H3).
  destruct (contextAvailable w) eqn:Hav; simpl.
  - split; [by split|]. by repeat split.
  - split; [exact H1|]. repeat split; try done. intros E. congruence.
Qed.

Lemma config_ok_ensureInitialized (w : World) :
  config_ok w -> config_ok (fst (ensureInitialized w)).
Proof.
  intros Hok. unfold ensureInitialized. simpl.
  destruct (isInitialized w); [done | by apply config_ok_init].
Qed.

Lemma config_ok_step (op : Op) (w : World) : config_ok w -> config_ok (step op w).
Proof.
  intros Hok.
  destruct op; try (apply (config_ok_same_config w); [by apply same_config_step | done]).
  - by apply config_ok_init.
  - unfold step, loadSound_begin.
    pose proof (config_ok_ensureInitialized w Hok) as H0.
    destruct (ensureInitialized w) as [w0 ok]. cbn [fst] in H0.
    destruct (negb ok); [done|]. destruct (map_get id (sounds w0)); [done|].
    destruct (map_get url (soundsCache w0)) as [cachedBuffer|].
    + pose proof (same_config_registerSound id url isMusic cachedBuffer w0) as H.
      destruct (registerSound id url isMusic cachedBuffer w0). cbn [fst] in *.
      by apply (config_ok_same_config w0).
    + cbn [fst]. apply (config_ok_same_config w0); [config_same | done].
  - unfold step, play.
    pose proof (config_ok_ensureInitialized w Hok) as H0.
    destruct (ensureInitialized w) as [w0 ok]. cbn [fst] in H0.
    destruct ok; [|done]. destruct (audioContext w0) as [ctx|] eqn:Hctx; [|done].
    destruct (map_get id (sounds w0)) as [r|].
    2:{ cbn [fst]. apply (config_ok_same_config w0); [|done].
        unfold console_write. config_same. }
    destruct (getSound w0 r) as [sound|]; [|done].
    destruct ((Sound.isMusic sound && isMusicMuted w0)
              || (negb (Sound.isMusic sound) && isSfxMuted w0)); [done|].
    cbn [fst]. apply (config_ok_same_config w0); [|done].
    eapply same_config_trans; [|apply same_config_triggerEvent].
    eapply same_config_trans; [|apply same_config_modAudio].
    eapply same_config_trans; [apply (same_config_play_start r sound options ctx)|].
    destruct (Sound.isMusic sound);
      [apply same_config_replace_currentMusic | apply same_config_refl].
  - (* setMusicVolume *)
    unfold step, setMusicVolume. cbv zeta.
    apply (config_ok_same_config _ _ (same_config_triggerEvent _ _ _)).
    set (w1 := set_musicVolume (Math_max 0 (Math_min 1 volume)) w).
    assert (H1 : config_ok w1).
    { destruct Hok as (H1 & _ & _ & H4). destruct (clamp_in_range volume).
      split; [exact H1|]. split; [done|]. split; [done|]. exact H4. }
    clearbody w1.
    apply (config_ok_same_config w1); [|done]. repeat case_match; config_frame.
  - (* setSfxVolume *)
    unfold step, setSfxVolume. cbv zeta.
    apply (config_ok_same_config _ _ (same_config_triggerEvent _ _ _)).
    set (w1 := set_sfxVolume (Math_max 0 (Math_min 1 volume)) w).
    assert (H1 : config_ok w1).
    { destruct Hok as (H1 & H2 & H3 & _ & _ & H6). destruct (clamp_in_range volume).
      split; [exact H1|]. by repeat split. }
    clearbody w1.
    apply (config_ok_same_config w1); [|done].
    apply same_config_forEach. intros. repeat case_match; config_frame.
  - (* dispose *)
    unfold step, dispose. cbv zeta.
    match goal with
    | |- context [sounds_forEach ?b w] =>
        assert (H : same_config w (sounds_forEach b w))
          by (apply same_config_forEach; intros; apply same_config_stop);
        revert H; generalize (sounds_forEach b w)
    end.
    intros w1 (_ & _ & _ & A4 & A5). destruct Hok as (_ & V1 & V2 & V3 & V4 & _).
    split; [simpl; split; [discriminate | congruence]|].
    simpl. rewrite A4, A5. by repeat split.
  - (* time passes *)
    unfold step, time_passes. cbv zeta. destruct Hok as (H1 & H2).
    change (audioContext (set_clock ?c w)) with (audioContext w).
    destruct (audioContext w) as [ctx|] eqn:Hctx.
    + split; [|done]. simpl. rewrite H1. by split.
    + split; [|done]. simpl. by rewrite H1, Hctx.
Qed.

Lemma reachable_config_ok (w : World) : reachable w -> config_ok w.
Proof.
  intros (available & ops & ->).
  assert (H : forall w0, config_ok w0 -> config_ok (run ops w0)).
  { induction ops as [|op ops IH]; intros w0 Hok; simpl; [done|].
    by apply IH, config_ok_step. }
  apply H. split; simpl; [split; [discriminate | congruence]|].
  repeat split; try lra; discriminate.
Qed.



Lemma init_initialised (w : World) : isInitialized w = true -> init w = w.
Proof. intros H. unfold init. by rewrite H. Qed.

(** X19: in every state of the engine, [isInitialized] is set exactly
    when an [AudioContext] is held, and only if the browser could build
    one; [ensureInitialized] answers true exactly when the engine is
    already initialised or the browser can build a context; and where it
    can, a second [init] changes nothing. *)
Theorem X19_initialised_iff_context (w : World) :
  reachable w ->
  (isInitialized w = true <-> audioContext w <> None)
  /\ (isInitialized w = true -> contextAvailable w = true)
  /\ snd (ensureInitialized w) = isInitialized w || contextAvailable w
  /\ (contextAvailable w = true -> init (init w) = init w).
Proof.
  intros Hw. destruct (reachable_config_ok w Hw) as (H1 & _ & _ & _ & _ & H2).
  split; [done|]. split; [done|].
  destruct (isInitialized w) eqn:Hi.
  - split.
    + unfold ensureInitialized. rewrite Hi. simpl. rewrite Hi. simpl.
      destruct (audioContext w); [done|]. exfalso. by apply H1.
    + intros _. by rewrite !(init_initialised w Hi).
  - assert (Hctx : audioContext w = None).
    { destruct (audioContext w) as [c|] eqn:E; [|done].
      assert (false = true) by (by apply H1). discriminate. }
    destruct (init_uninitialised w Hi) as (J1 & _).
    split.
    + by rewrite (ensureInitialized_uninitialised w Hi Hctx).
    + intros Hav. apply init_initialised. by rewrite J1.
Qed.

Lemma X19_initialised_witness :
  snd (ensureInitialized (new_manager false)) = false.
Proof.
  exact (proj1 (proj2 (proj2 (X19_initialised_iff_context (new_manager false)
                                (reachable_run [] false))))).
Defined.

Lemma createPooledAudio_iter (n : nat) (w : World) :
  let w' := Nat.iter n (fun w => fst (createPooledAudio w)) w in
  length (audioPool w') = length (audioPool w) + n
  /\ length (audioObjs w') = length (audioObjs w) + n.
Proof.
  cbv zeta. induction n as [|n (IH1 & IH2)]; [simpl; lia|].
  change (Nat.iter (S n) ?f w) with (f (Nat.iter n f w)).
  revert IH1 IH2. generalize (Nat.iter n (fun w => fst (createPooledAudio w)) w).
  intros w1 IH1 IH2. unfold createPooledAudio. simpl. rewrite !length_app. simpl. lia.
Qed.

Lemma init_tail_fields (w0 : World) :
  let w1 := Nat.iter 5 (fun w => fst (createPooledAudio w)) w0 in
  let w' := set_visibilityListeners (S (visibilityListeners w1)) w1 in
  isInitialized w' = isInitialized w0 /\ contextAvailable w' = contextAvailable w0
  /\ audioContext w' = audioContext w0
  /\ length (audioPool w') = length (audioPool w0) + 5
  /\ length (audioObjs w') = length (audioObjs w0) + 5
  /\ visibilityListeners w' = S (visibilityListeners w0)
  /\ console w' = console w0
  /\ sounds w' = sounds w0 /\ fetched w' = fetched w0.
Proof.
  cbv zeta.
  destruct (createPooledAudio_iter 5 w0) as (L1 & L2).
  assert (P : forall A (proj : World -> A),
             (forall w1, proj (fst (createPooledAudio w1)) = proj w1) ->
             proj (Nat.iter 5 (fun w => fst (createPooledAudio w)) w0) = proj w0).
  { intros A proj HP. by apply iter_preserves. }
  revert L1 L2 P. generalize (Nat.iter 5 (fun w => fst (createPooledAudio w)) w0).
  intros w1 L1 L2 P. simpl.
  rewrite (P _ isInitialized), (P _ contextAvailable), (P _ audioContext),
    (P _ visibilityListeners), (P _ console), (P _ sounds), (P _ fetched), L1, L2 by done.
  by repeat split.
Qed.

Lemma init_failed (w : World) :
  isInitialized w = false -> contextAvailable w = false ->
  isInitialized (init w) = false /\ contextAvailable (init w) = false
  /\ audioContext (init w) = audioContext w
  /\ length (audioPool (init w)) = length (audioPool w) + 5
  /\ length (audioObjs (init w)) = length (audioObjs w) + 5
  /\ visibilityListeners (init w) = S (visibilityListeners w)
  /\ console (init w) = console w ++ [mkLog LError "Failed to initialize AudioContext"]
  /\ sounds (init w) = sounds w /\ fetched (init w) = fetched w.
Proof.
  intros Hi Hav.
  pose proof (init_tail_fields (console_write LError "Failed to initialize AudioContext" w))
    as H.
  cbv zeta in H.
  assert (E : init w
              = set_visibilityListeners
                  (S (visibilityListeners
                        (Nat.iter 5 (fun w => fst (createPooledAudio w))
                           (console_write LError "Failed to initialize AudioContext" w))))
                  (Nat.iter 5 (fun w => fst (createPooledAudio w))
                     (console_write LError "Failed to initialize AudioContext" w))).
  { unfold init. by rewrite Hi, Hav. }
  rewrite <- E in H. revert H. generalize (init w). intros w' H.
  destruct H as (F1 & F2 & F3 & F4 & F5 & F6 & F7 & F8 & F9).
  rewrite F1, F2, F3, F4, F5, F6, F7, F8, F9. simpl. by repeat split.
Qed.

(** X20: where the browser cannot build an [AudioContext], every call
    of [play] or [loadSound] returns [null] without fetching anything or
    logging a warning about the sound, and runs [init] once more: each
    call logs the failure, appends five audio elements to the pool
    (whatever its size) and adds one more [visibilitychange] listener. *)
Theorem X20_failed_initialisation_repeats (w : World) (id url : string) (isMusic : bool)
    (options : SoundOptions.t) :
  reachable w -> contextAvailable w = false ->
  play id options w = (init w, None)
  /\ loadSound_begin id url isMusic w = (init w, LoadReturned None)
  /\ isInitialized (init w) = false
  /\ length (audioPool (init w)) = length (audioPool w) + 5
  /\ length (audioObjs (init w)) = length (audioObjs w) + 5
  /\ visibilityListeners (init w) = S (visibilityListeners w)
  /\ console (init w) = console w ++ [mkLog LError "Failed to initialize AudioContext"]
  /\ fetched (init w) = fetched w.
Proof.
  intros Hw Hav. destruct (reachable_config_ok w Hw) as (H1 & _ & _ & _ & _ & H2).
  assert (Hi : isInitialized w = false).
  { destruct (isInitialized w); [|done]. specialize (H2 eq_refl). congruence. }
  assert (Hctx : audioContext w = None).
  { destruct (audioContext w) as [c|] eqn:E; [|done].
    assert (isInitialized w = true) by (by apply H1). congruence. }
  destruct (init_failed w Hi Hav) as (F1 & F2 & F3 & F4 & F5 & F6 & F7 & F8 & F9).
  split; [|split].
  - unfold play. by rewrite (ensureInitialized_uninitialised w Hi Hctx), Hav.
  - unfold loadSound_begin. by rewrite (ensureInitialized_uninitialised w Hi Hctx), Hav.
  - by repeat split.
Qed.

Lemma X20_failed_initialisation_witness :
  play "a" SoundOptions.empty (new_manager false) = (init (new_manager false), None)
  /\ length (audioPool (init (new_manager false)))
     = length (audioPool (new_manager false)) + 5.
Proof.
  destruct (X20_failed_initialisation_repeats (new_manager false) "a" "/a.mp3" false
              SoundOptions.empty (reachable_run [] false) eq_refl)
    as (E1 & _ & _ & E4 & _).
  exact (conj E1 E4).
Defined.

(** ** Loads that register nothing, and unknown identifiers *)


(** X22: for an id that is not registered, [stop], [pause], [resume]
    and [updatePosition] return the state unchanged (no log entry, no
    event), and [isPlaying] answers false. *)
Theorem X22_unknown_id_is_ignored (w : World) (id : string) (options : SoundOptions.t)
    (pan distance : Q) :
  hasSoundLoaded id w = false ->
  stop id options w = w /\ pause id w = w /\ resume id w = w
  /\ updatePosition id pan distance w = w /\ isPlaying id w = false.
Proof.
  unfold hasSoundLoaded, map_has. intros H.
  destruct (map_get id (sounds w)) eqn:Hid; [discriminate|].
  unfold stop, pause, resume, updatePosition, isPlaying. by rewrite Hid.
Qed.

Lemma X22_unknown_id_witness :
  stop "nope" (opts_fadeOut 1) two_tracks = two_tracks.
Proof.
  refine (proj1 (X22_unknown_id_is_ignored two_tracks "nope" (opts_fadeOut 1) 0 0 _)).
  vm_compute. reflexivity.
Defined.

(** ** Fade-out timers *)


Lemma stop_fading (id : string) (f : Q) (w : World) (r : nat) (s : Sound.t)
    (g : GainNode.t) (ctx : AudioContext) :
  map_get id (sounds w) = Some r -> getSound w r = Some s ->
  Sound.gain s = Some g -> audioContext w = Some ctx -> positive_number f = true ->
  stop id (opts_fadeOut f) w
  = clear_currentMusic_if id
      (set_timers (timers w ++ [mkTimer (Qplus (clock w) (Qmult f 1000)) r])
         (modSound r
            (Sound.set_gain
               (Some (GainNode.mk (GainNode.value g)
                        (GainNode.events g
                           ++ [SetValueAtTime (GainNode.value g) (ctx_currentTime ctx);
                               LinearRampToValueAtTime 0 (Qplus (ctx_currentTime ctx) f)]))))
            w)).
Proof.
  intros Hid Hs Hg Hctx Hf. unfold stop. rewrite Hid, Hs. unfold stop_fade_or_now.
  simpl SoundOptions.fadeOut. by rewrite Hg, Hctx, Hf.
Qed.





(** X24: a track that is being faded out is no longer the current
    music.  Right after [stop] with a fade-out on the current music,
    [getCurrentMusic] answers [null] while [isPlaying] still answers what
    it did and the voice keeps running; until the timer fires, neither
    [toggleMusicMute] nor [setMusicVolume] reaches the track: no voice is
    paused and no gain is changed. *)
Theorem X24_fading_track_is_not_current (w : World) (id : string) (s : Sound.t)
    (g : GainNode.t) (f : Q) (ctx : AudioContext) (volume : Q) :
  reachable w -> registered w id = Some s -> Sound.gain s = Some g ->
  audioContext w = Some ctx -> (0 < f)%Q -> getCurrentMusic w = Some id ->
  let w1 := stop id (opts_fadeOut f) w in
  getCurrentMusic w1 = None /\ isPlaying id w1 = Sound.isPlaying s
  /\ audioObjs w1 = audioObjs w
  /\ audioObjs (fst (toggleMusicMute w1)) = audioObjs w
  /\ soundObjs (setMusicVolume volume w1) = soundObjs w1.
Proof.
  intros Hw Hreg Hg Hctx Hf Hcur.
  destruct (registered_inv w id s Hw Hreg) as (r & o & Hid & Hs & Ho).
  assert (Hpos : positive_number f = true) by (by apply positive_number_spec).
  cbv zeta. rewrite (stop_fading id f w r s g ctx Hid Hs Hg Hctx Hpos).
  set (g' := GainNode.mk (GainNode.value g)
               (GainNode.events g
                  ++ [SetValueAtTime (GainNode.value g) (ctx_currentTime ctx);
                      LinearRampToValueAtTime 0 (Qplus (ctx_currentTime ctx) f)])).
  set (wX := set_timers (timers w ++ [mkTimer (Qplus (clock w) (Qmult f 1000)) r])
               (modSound r (Sound.set_gain (Some g')) w)).
  assert (X1 : sounds wX = sounds w) by reflexivity.
  assert (X2 : getSound wX r = Some (Sound.set_gain (Some g') s)).
  { unfold wX. change (getSound (set_timers ?x ?y) r) with (getSound y r).
    by rewrite getSound_modSound_eq, Hs. }
  assert (X3 : forall r', r <> r' -> getSound wX r' = getSound w r').
  { intros r' Hne. unfold wX. change (getSound (set_timers ?x ?y) r') with (getSound y r').
    by rewrite getSound_modSound_ne. }
  assert (X4 : audioObjs wX = audioObjs w) by reflexivity.
  assert (X5 : currentMusic wX = currentMusic w) by reflexivity.
  clearbody wX.
  assert (E : clear_currentMusic_if id wX = set_currentMusic None wX).
  { unfold clear_currentMusic_if. rewrite X5. unfold getCurrentMusic in Hcur.
    destruct (currentMusic w) as [cr|]; [|discriminate].
    destruct (decide (r = cr)) as [<-|Hne].
    - rewrite X2. simpl. rewrite Hs in Hcur. injection Hcur as ->.
      by rewrite String.eqb_refl.
    - rewrite (X3 cr Hne). destruct (getSound w cr) as [cs|]; [|discriminate].
      injection Hcur as ->. by rewrite String.eqb_refl. }
  rewrite E.
  split; [reflexivity|]. split; [|split; [|split]].
  - unfold isPlaying. change (sounds (set_currentMusic ?x ?y)) with (sounds y).
    change (getSound (set_currentMusic ?x ?y) ?z) with (getSound y z).
    by rewrite X1, Hid, X2.
  - exact X4.
  - unfold toggleMusicMute. cbn [fst].
    rewrite (proj1 (proj2 (proj2 (proj2 (triggerEvent_fields _ _ _))))). exact X4.
  - unfold setMusicVolume.
    by rewrite (proj1 (proj2 (proj2 (triggerEvent_fields _ _ _)))).
Qed.

Lemma X24_fading_track_witness :
  getCurrentMusic (stop "m1" (opts_fadeOut 1) two_tracks) = None
  /\ isPlaying "m1" (stop "m1" (opts_fadeOut 1) two_tracks) = true.
Proof.
  edestruct (X24_fading_track_is_not_current two_tracks "m1")
    with (f := 1%Q) (volume := 0%Q) as (H1 & H2 & _);
    [apply reachable_two_tracks | vm_compute; reflexivity | reflexivity
    | vm_compute; reflexivity | reflexivity | vm_compute; reflexivity |].
  split; [exact H1 | exact H2].
Defined.

(** ** Preloading *)

Lemma callback_step_entry (ev : CallbackEvent) (t : PreloadCallback) (w : World) :
  cb_entry (fst (callback_step ev t w)) = cb_entry t.
Proof.
  destruct ev as [res|n res|]; simpl.
  - unfold fileExists_settles. by repeat case_match.
  - unfold load_settles. by repeat case_match.
  - unfold preload_resume, preload_next. by repeat case_match.
Qed.

Lemma callback_step_probes (ev : CallbackEvent) (t : PreloadCallback) (w : World)
    (tail : list string) :
  (cb_stage t <> PreloadDone -> tail = urls_ahead t) ->
  exists tail',
    cb_probed (fst (callback_step ev t w)) ++ tail' = cb_probed t ++ tail
    /\ (cb_stage (fst (callback_step ev t w)) <> PreloadDone ->
        tail' = urls_ahead (fst (callback_step ev t w))).
Proof.
  intros Htail.
  assert (Hsame : forall t', cb_probed t' = cb_probed t ->
                             (cb_stage t' <> PreloadDone ->
                              cb_stage t <> PreloadDone /\ urls_ahead t' = urls_ahead t) ->
                             exists tail',
                               cb_probed t' ++ tail' = cb_probed t ++ tail
                               /\ (cb_stage t' <> PreloadDone -> tail' = urls_ahead t')).
  { intros t' Hp Hs. exists tail. split; [by rewrite Hp|].
    intros Hd. destruct (Hs Hd) as (Hd' & ->). by apply Htail. }
  assert (Hnext : forall alts w0,
             cb_stage t <> PreloadDone -> urls_ahead t = alts ->
             exists tail',
               cb_probed (fst (preload_next alts t w0)) ++ tail' = cb_probed t ++ tail
               /\ (cb_stage (fst (preload_next alts t w0)) <> PreloadDone ->
                   tail' = urls_ahead (fst (preload_next alts t w0)))).
  { intros alts w0 Hd Ha. rewrite (Htail Hd), Ha. unfold preload_next.
    destruct alts as [|alt rest]; simpl.
    - exists []. by split.
    - exists rest. split; [by rewrite <- app_assoc | done]. }
  destruct ev as [res|n res|]; simpl.
  - unfold fileExists_settles.
    destruct (cb_stage t) eqn:Hst; try (apply Hsame; [done|]; intros; by rewrite ?Hst).
    destruct res; apply Hsame; simpl; try done; intros _; unfold urls_ahead; by rewrite Hst.
  - unfold load_settles.
    destruct (cb_stage t) eqn:Hst; try (apply Hsame; [done|]; intros; by rewrite ?Hst).
    destruct (pendingLoads w !! n) as [p|]; [|apply Hsame; [done|]; intros; by rewrite ?Hst].
    destruct (pending_eqb _ _); [|apply Hsame; [done|]; intros; by rewrite ?Hst].
    destruct (loadSound_resume _ _ _ _ _) as [w1 result].
    apply Hsame; simpl; try done; intros _; unfold urls_ahead; by rewrite Hst.
  - unfold preload_resume.
    destruct (cb_stage t) eqn:Hst; try (apply Hsame; [done|]; intros; by rewrite ?Hst).
    + destruct found.
      * destruct (loadSound_begin _ _ _ _) as [w1 [result|]];
          apply Hsame; simpl; try done; intros _; unfold urls_ahead; by rewrite Hst.
      * apply Hnext; [done | unfold urls_ahead; by rewrite Hst].
    + destruct loaded.
      * exists tail. split; [done|]. simpl. done.
      * apply Hnext; [done | unfold urls_ahead; by rewrite Hst].
Qed.

(** X25: [preloadSounds] starts the callback of every entry before any
    response is handled, which issues one [HEAD] request per entry, for
    its primary URL, in array order; and however the events of a callback
    are then interleaved with the rest of the engine, the [HEAD] requests
    it has issued are an initial segment of the list made of [sound.url]
    followed by the alternate formats: the URLs are probed in that order,
    none is skipped, and while the callback has not returned the rest of
    the list is what it may still probe. *)
Theorem X25_preload_probes_in_order (entries : list PreloadEntry) (e : PreloadEntry)
    (history : list (CallbackEvent * World)) :
  concat (map cb_probed (preloadSounds entries)) = map pe_url entries
  /\ (preload_finished (preloadSounds entries) = true <-> entries = [])
  /\ let t := callback_run history (preload_begin e) in
     cb_entry t = e
     /\ exists tail,
          cb_probed t ++ tail = entry_urls e
          /\ (cb_stage t <> PreloadDone -> tail = urls_ahead t).
Proof.
  split; [|split].
  - unfold preloadSounds. induction entries as [|x l IH]; simpl; [done|]. by rewrite IH.
  - destruct entries; simpl; split; intros H; done.
  - cbv zeta.
    assert (G : forall t tail,
               cb_probed t ++ tail = entry_urls e -> cb_entry t = e ->
               (cb_stage t <> PreloadDone -> tail = urls_ahead t) ->
               cb_entry (callback_run history t) = e
               /\ exists tail',
                    cb_probed (callback_run history t) ++ tail' = entry_urls e
                    /\ (cb_stage (callback_run history t) <> PreloadDone ->
                        tail' = urls_ahead (callback_run history t))).
    { induction history as [|[ev w] history IH]; intros t tail Hp He Ht; simpl.
      - split; [done|]. by exists tail.
      - destruct (callback_step_probes ev t w tail Ht) as (tail' & Hp' & Ht').
        apply (IH _ tail'); [by rewrite Hp' | by rewrite callback_step_entry | done]. }
    apply (G _ (or_default (pe_alternateFormats e) [])); by simpl.
Qed.





Lemma hasSoundLoaded_registerSound (id url : string) (isMusic : bool)
    (buffer : list Byte.byte) (w : World) :
  hasSoundLoaded id (fst (registerSound id url isMusic buffer w)) = true.
Proof.
  rewrite registerSound_bindSound. unfold bindSound, allocSound, hasSoundLoaded, map_has.
  cbn [fst]. simpl sounds. by rewrite map_get_set_eq.
Qed.

Lemma hasSoundLoaded_triggerEvent (event : string) (data : Payload) (w : World)
    (id : string) :
  hasSoundLoaded id (triggerEvent event data w) = hasSoundLoaded id w.
Proof. unfold hasSoundLoaded. by rewrite sounds_triggerEvent. Qed.

Lemma loadSound_begin_loaded (id url : string) (isMusic : bool) (w : World) (r : nat) :
  snd (loadSound_begin id url isMusic w) = LoadReturned (Some r) ->
  hasSoundLoaded id (fst (loadSound_begin id url isMusic w)) = true.
Proof.
  unfold loadSound_begin. destruct (ensureInitialized w) as [w0 ok].
  destruct (negb ok); [discriminate|].
  destruct (map_get id (sounds w0)) as [r0|] eqn:Hid.
  - intros _. unfold hasSoundLoaded, map_has. simpl. by rewrite Hid.
  - destruct (map_get url (soundsCache w0)) as [buffer|]; [|discriminate].
    pose proof (hasSoundLoaded_registerSound id url isMusic buffer w0) as H.
    by destruct (registerSound id url isMusic buffer w0).
Qed.

Lemma loadSound_resume_loaded (id url : string) (isMusic : bool) (res : FetchResult)
    (w : World) (r : nat) :
  snd (loadSound_resume id url isMusic res w) = Some r ->
  hasSoundLoaded id (fst (loadSound_resume id url isMusic res w)) = true.
Proof.
  destruct res as [buffer|]; [|discriminate]. intros _.
  rewrite loadSound_resume_body. cbn [fst].
  by rewrite hasSoundLoaded_triggerEvent, hasSoundLoaded_registerSound.
Qed.

(** X27: a preload callback returns only when it is resumed, and then
    either its last [loadSound] call had returned a sound, in which case
    nothing more happens, or it triggers an [error] event for its id; and
    a [loadSound] call is recorded as successful only in a state where the
    id is registered. *)
Theorem X27_preload_returns_loaded_or_error (ev : CallbackEvent) (t : PreloadCallback) (w : World) :
  (cb_stage t <> PreloadDone -> cb_stage (fst (callback_step ev t w)) = PreloadDone ->
   ev = Resumes
   /\ ((exists alternates, cb_stage t = LoadSettled true alternates)
       /\ snd (callback_step ev t w) = w
       \/ (exists alternates, cb_stage t = LoadSettled false alternates
                              \/ exists url primary,
                                   cb_stage t = ProbeSettled false url alternates primary)
          /\ triggered (snd (callback_step ev t w))
             = triggered w ++ [mkEvent "error" (PError (pe_id (cb_entry t)))]))
  /\ (forall alternates,
        cb_stage (fst (callback_step ev t w)) = LoadSettled true alternates ->
        cb_stage t <> LoadSettled true alternates ->
        hasSoundLoaded (pe_id (cb_entry t)) (snd (callback_step ev t w)) = true).
Proof.
  split.
  - intros Hnd Hd. destruct ev as [res|n res|]; simpl in *.
    + exfalso. unfold fileExists_settles in Hd.
      destruct (cb_stage t) eqn:Hst; simpl in Hd; try congruence.
      destruct res; simpl in Hd; congruence.
    + exfalso. unfold load_settles in Hd.
      destruct (cb_stage t) eqn:Hst; simpl in Hd; try congruence.
      destruct (pendingLoads w !! n); simpl in Hd; [|congruence].
      destruct (pending_eqb _ _); simpl in Hd; [|congruence].
      destruct (loadSound_resume _ _ _ _ _). simpl in Hd. congruence.
    + split; [done|]. unfold preload_resume in *.
      destruct (cb_stage t) as [| found url alts primary | | loaded alts |] eqn:Hst;
        simpl in Hd; try congruence.
      * destruct found.
        { destruct (loadSound_begin _ _ _ _) as [w1 [result|]]; simpl in Hd; congruence. }
        right. split; [exists alts; right; by exists url, primary|].
        unfold preload_next in *. destruct alts; simpl in Hd; [|congruence]. cbn [snd].
        by rewrite triggered_triggerEvent.
      * destruct loaded.
        { left. split; [by exists alts | done]. }
        right. split; [exists alts; by left|].
        unfold preload_next in *. destruct alts; simpl in Hd; [|congruence]. cbn [snd].
        by rewrite triggered_triggerEvent.
  - intros alts Hl Hnl. destruct ev as [res|n res|]; simpl in *.
    + exfalso. unfold fileExists_settles in Hl.
      destruct (cb_stage t) eqn:Hst; simpl in Hl; try congruence.
      destruct res; simpl in Hl; congruence.
    + unfold load_settles in *.
      destruct (cb_stage t) as [| | url alts0 | |] eqn:Hst; simpl in Hl; try congruence.
      destruct (pendingLoads w !! n) as [p|]; simpl in Hl; [|congruence].
      destruct (pending_eqb _ _); simpl in Hl; [|congruence].
      match goal with
      | |- context [loadSound_resume ?i ?u ?m ?x ?y] =>
          pose proof (loadSound_resume_loaded i u m x y) as H;
          destruct (loadSound_resume i u m x y) as [w1 [r|]]
      end; simpl in Hl; [|congruence].
      cbn [fst snd] in *. by apply (H r).
    + unfold preload_resume in *.
      destruct (cb_stage t) as [| found url alts0 primary | | loaded alts0 |] eqn:Hst;
        simpl in Hl; try congruence.
      * destruct found.
        -- match goal with
           | |- context [loadSound_begin ?i ?u ?m ?y] =>
               pose proof (loadSound_begin_loaded i u m y) as H;
               destruct (loadSound_begin i u m y) as [w1 [[r|]|]]
           end; simpl in Hl; try congruence.
           cbn [fst snd] in *. by apply (H r).
        -- unfold preload_next in Hl. destruct alts0; simpl in Hl; congruence.
      * destruct loaded; simpl in Hl; [congruence|].
        unfold preload_next in Hl. destruct alts0; simpl in Hl; congruence.
Qed.

(** ** The application's settings *)

Lemma setSfxMute_sets (m : bool) (w : World) :
  isSfxMuted (setSfxMute m w) = m /\ isMusicMuted (setSfxMute m w) = isMusicMuted w.
Proof.
  unfold setSfxMute. destruct (Bool.eqb (isSfxMuted w) m) eqn:E.
  - apply Bool.eqb_prop in E. by split.
  - split.
    + rewrite toggleSfxMute_flips. destruct (isSfxMuted w), m; simpl in *; congruence.
    + unfold toggleSfxMute. cbn [fst].
      rewrite (proj1 (proj2 (proj2 (triggerEvent_volumes _ _ _)))).
      rewrite (sounds_forEach_preserves isMusicMuted); [done|].
      intros. by repeat case_match.
Qed.

Lemma setMusicMute_sets (m : bool) (w : World) :
  isMusicMuted (setMusicMute m w) = m /\ isSfxMuted (setMusicMute m w) = isSfxMuted w.
Proof.
  unfold setMusicMute. destruct (Bool.eqb (isMusicMuted w) m) eqn:E.
  - apply Bool.eqb_prop in E. by split.
  - split.
    + rewrite toggleMusicMute_flips. destruct (isMusicMuted w), m; simpl in *; congruence.
    + unfold toggleMusicMute. cbn [fst].
      rewrite (proj2 (proj2 (proj2 (triggerEvent_volumes _ _ _)))).
      by repeat case_match.
Qed.

Lemma setSfxVolume_sets (v : Q) (w : World) :
  sfxVolume (setSfxVolume v w) = Math_max 0 (Math_min 1 v)
  /\ musicVolume (setSfxVolume v w) = musicVolume w
  /\ isSfxMuted (setSfxVolume v w) = isSfxMuted w
  /\ isMusicMuted (setSfxVolume v w) = isMusicMuted w.
Proof.
  unfold setSfxVolume. cbv zeta.
  match goal with
  | |- context [triggerEvent ?e ?d ?x] =>
      destruct (triggerEvent_volumes e d x) as (T1 & T2 & T3 & T4)
  end.
  rewrite T1, T2, T3, T4.
  rewrite (sounds_forEach_preserves sfxVolume), (sounds_forEach_preserves musicVolume),
    (sounds_forEach_preserves isSfxMuted), (sounds_forEach_preserves isMusicMuted)
    by (intros; by repeat case_match).
  by repeat split.
Qed.

Lemma setMusicVolume_sets (v : Q) (w : World) :
  musicVolume (setMusicVolume v w) = Math_max 0 (Math_min 1 v)
  /\ sfxVolume (setMusicVolume v w) = sfxVolume w
  /\ isSfxMuted (setMusicVolume v w) = isSfxMuted w
  /\ isMusicMuted (setMusicVolume v w) = isMusicMuted w.
Proof.
  unfold setMusicVolume. cbv zeta.
  match goal with
  | |- context [triggerEvent ?e ?d ?x] =>
      destruct (triggerEvent_volumes e d x) as (T1 & T2 & T3 & T4)
  end.
  rewrite T1, T2, T3, T4. repeat case_match; by repeat split.
Qed.

Lemma number_or_clamped (x d : Q) :
  (0 < d)%Q -> (d <= 1)%Q ->
  let v := Math_max 0 (Math_min 1 (number_or x d)) in
  (Qeq x 0 -> Qeq v d) /\ ((0 <= x)%Q -> (0 < v)%Q).
Proof.
  intros Hd0 Hd1. cbv zeta. unfold number_or.
  destruct (clamp_in_range (if Qeq_bool x 0 then d else x)) as (C1 & C2).
  pose proof (clamp_is_clamp01 (if Qeq_bool x 0 then d else x)) as C3.
  destruct (Qeq_bool x 0) eqn:E.
  - apply Qeq_bool_iff in E. rewrite C3 in *. unfold clamp01 in *.
    destruct (Qle_bool d 0) eqn:E0; [apply Qle_bool_iff in E0; lra|].
    destruct (Qle_bool 1 d) eqn:E1; [apply Qle_bool_iff in E1|]; split; intros; lra.
  - assert (Hne : ~ Qeq x 0) by (intros H; apply Qeq_bool_iff in H; congruence).
    split; [intros H; contradiction|]. intros Hx.
    rewrite C3 in *. unfold clamp01 in *.
    destruct (Qle_bool x 0) eqn:E0; [apply Qle_bool_iff in E0; lra|].
    assert (~ (x <= 0)%Q) by (intros H; apply Qle_bool_iff in H; congruence).
    destruct (Qle_bool 1 x) eqn:E1; lra.
Qed.

Lemma applySettings_sets (gameSettings : GameSettings.t) (w : World) :
  let w' := applySettings gameSettings w in
  isSfxMuted w' = negb (GameSettings.soundEnabled gameSettings)
  /\ isMusicMuted w' = negb (GameSettings.musicEnabled gameSettings)
  /\ sfxVolume w' = Math_max 0 (Math_min 1 (number_or (GameSettings.soundVolume gameSettings) 1))
  /\ musicVolume w'
     = Math_max 0 (Math_min 1 (number_or (GameSettings.musicVolume gameSettings) (8 # 10))).
Proof.
  cbv zeta. unfold applySettings. cbv zeta.
  set (w1 := setSfxMute (negb (GameSettings.soundEnabled gameSettings)) w).
  destruct (setSfxMute_sets (negb (GameSettings.soundEnabled gameSettings)) w) as (A1 & A2).
  fold w1 in A1, A2. clearbody w1.
  set (w2 := setMusicMute (negb (GameSettings.musicEnabled gameSettings)) w1).
  destruct (setMusicMute_sets (negb (GameSettings.musicEnabled gameSettings)) w1)
    as (B1 & B2).
  fold w2 in B1, B2. clearbody w2.
  set (v1 := number_or (GameSettings.soundVolume gameSettings) 1).
  set (w3 := setSfxVolume v1 w2).
  destruct (setSfxVolume_sets v1 w2) as (C1 & C2 & C3 & C4).
  fold w3 in C1, C2, C3, C4. clearbody w3.
  set (v2 := number_or (GameSettings.musicVolume gameSettings) (8 # 10)).
  destruct (setMusicVolume_sets v2 w3) as (D1 & D2 & D3 & D4).
  rewrite D1, D2, D3, D4, C1, C3, C4, B1, B2, A1. by repeat split.
Qed.

(** X28: the settings effect of the application leaves the effects and
    music channels muted exactly when the settings disable them, and the
    channel volumes at the settings' volumes clamped to [0, 1], except
    that a volume setting of zero is replaced by the default, 1 for
    effects and 0.8 for music: with settings volumes that are not negative
    no channel volume is ever zero after the effect. *)
Theorem X28_applySettings_mutes_and_volumes (gameSettings : GameSettings.t) (w : World) :
  let w' := applySettings gameSettings w in
  isSfxMuted w' = negb (GameSettings.soundEnabled gameSettings)
  /\ isMusicMuted w' = negb (GameSettings.musicEnabled gameSettings)
  /\ sfxVolume w' = Math_max 0 (Math_min 1 (number_or (GameSettings.soundVolume gameSettings) 1))
  /\ musicVolume w'
     = Math_max 0 (Math_min 1 (number_or (GameSettings.musicVolume gameSettings) (8 # 10)))
  /\ (Qeq (GameSettings.soundVolume gameSettings) 0 -> Qeq (sfxVolume w') 1)
  /\ (Qeq (GameSettings.musicVolume gameSettings) 0 -> Qeq (musicVolume w') (8 # 10))
  /\ ((0 <= GameSettings.soundVolume gameSettings)%Q -> (0 < sfxVolume w')%Q)
  /\ ((0 <= GameSettings.musicVolume gameSettings)%Q -> (0 < musicVolume w')%Q).
Proof.
  cbv zeta. destruct (applySettings_sets gameSettings w) as (S1 & S2 & S3 & S4).
  rewrite S1, S2, S3, S4.
  destruct (number_or_clamped (GameSettings.soundVolume gameSettings) 1) as (N1 & N2);
    [lra..|].
  destruct (number_or_clamped (GameSettings.musicVolume gameSettings) (8 # 10))
    as (M1 & M2); [lra..|].
  by repeat split.
Qed.

Lemma applySettings_run (gameSettings : GameSettings.t) (w : World) :
  applySettings gameSettings w
  = run [CallSetSfxMute (negb (GameSettings.soundEnabled gameSettings));
         CallSetMusicMute (negb (GameSettings.musicEnabled gameSettings));
         CallSetSfxVolume (number_or (GameSettings.soundVolume gameSettings) 1);
         CallSetMusicVolume (number_or (GameSettings.musicVolume gameSettings) (8 # 10))] w.
Proof. unfold applySettings, run. cbn [fold_left step]. reflexivity. Qed.

Lemma same_ident_run (ops : list Op) (w : World) :
  Forall (fun op => match op with
                    | CallLoadSound _ _ _ | CallPlay _ _ | CallDispose | FetchSettles _ _ => False
                    | _ => True
                    end) ops ->
  same_ident w (run ops w).
Proof.
  intros H. revert w. induction H as [|op ops Hop _ IH]; intros w; simpl.
  - apply same_ident_refl.
  - eapply same_ident_trans; [by apply same_ident_step | apply IH].
Qed.

Lemma isInitialized_setters (w : World) (m : bool) (v : Q) :
  isInitialized (setSfxMute m w) = isInitialized w
  /\ isInitialized (setMusicMute m w) = isInitialized w
  /\ isInitialized (setSfxVolume v w) = isInitialized w
  /\ isInitialized (setMusicVolume v w) = isInitialized w.
Proof.
  split; [apply (same_config_step (CallSetSfxMute m) w I)|].
  split; [apply (same_config_step (CallSetMusicMute m) w I)|].
  split.
  - unfold setSfxVolume. cbv zeta. rewrite (proj1 (triggerEvent_fields _ _ _)).
    rewrite (sounds_forEach_preserves isInitialized); [done|].
    intros. by repeat case_match.
  - unfold setMusicVolume. cbv zeta. rewrite (proj1 (triggerEvent_fields _ _ _)).
    by repeat case_match.
Qed.

(** X29: the music volume of the settings reaches the gain of the
    background music twice.  On an initialised engine where [background]
    is a registered music sound and no other track is current, after the
    settings effect has run with music enabled, the effect that starts
    the music leaves [background] playing as the current music with its
    gain at zero and one ramp, over two seconds, to the settings' volume
    (or 0.8 if that is zero) multiplied by the channel volume, which the
    settings effect has set to that same volume clamped: for a volume [v]
    in [0, 1] the ramp goes to [v * v]. *)
Theorem X29_background_music_volume_applied_twice (gameSettings : GameSettings.t)
    (w : World) (s : Sound.t) :
  reachable w -> isInitialized w = true -> registered w "background" = Some s ->
  Sound.isMusic s = true -> GameSettings.musicEnabled gameSettings = true ->
  (forall other, getCurrentMusic w = Some other -> other = "background") ->
  let v := number_or (GameSettings.musicVolume gameSettings) (8 # 10) in
  let w1 := applySettings gameSettings w in
  let w2 := playBackgroundMusic gameSettings true false w1 in
  exists ctx s2,
    audioContext w1 = Some ctx
    /\ registered w2 "background" = Some s2 /\ Sound.isPlaying s2 = true
    /\ Sound.gain s2
       = Some (GainNode.mk 0
                 [SetValueAtTime 0 (ctx_currentTime ctx);
                  LinearRampToValueAtTime (Qmult v (Math_max 0 (Math_min 1 v)))
                    (Qplus (ctx_currentTime ctx) 2)])
    /\ getCurrentMusic w2 = Some "background"
    /\ ((0 <= v)%Q -> (v <= 1)%Q -> Qeq (Qmult v (Math_max 0 (Math_min 1 v))) (Qmult v v)).
Proof.
  intros Hw Hinit Hreg Hm Hen Hcur. cbv zeta.
  unfold playBackgroundMusic. rewrite Hen. cbn [andb negb].
  assert (Hw1 : reachable (applySettings gameSettings w)).
  { rewrite applySettings_run. unfold run. cbn [fold_left].
    by repeat apply reachable_step. }
  assert (Hsame : same_ident w (applySettings gameSettings w)).
  { rewrite applySettings_run. apply same_ident_run. by repeat constructor. }
  assert (Hinit1 : isInitialized (applySettings gameSettings w) = true).
  { unfold applySettings. cbv zeta.
    rewrite (proj2 (proj2 (proj2 (isInitialized_setters _ true _)))).
    rewrite (proj1 (proj2 (proj2 (isInitialized_setters _ true _)))).
    rewrite (proj1 (proj2 (isInitialized_setters _ _ 0%Q))).
    by rewrite (proj1 (isInitialized_setters _ _ 0%Q)). }
  destruct (applySettings_sets gameSettings w) as (_ & S2 & _ & S4).
  rewrite Hen in S2. simpl in S2.
  revert Hw1 Hsame Hinit1 S2 S4. generalize (applySettings gameSettings w).
  intros w1 Hw1 (I1 & I2 & I3) Hinit1 S2 S4.
  destruct (reachable_config_ok w1 Hw1) as (K1 & _).
  destruct (audioContext w1) as [ctx|] eqn:Hctx; [|exfalso; by apply K1].
  unfold registered in Hreg.
  destruct (map_get "background" (sounds w)) as [r|] eqn:Hid; [|discriminate].
  assert (Hs1 : exists s1, getSound w1 r = Some s1 /\ Sound.isMusic s1 = true
                           /\ Sound.id s1 = Sound.id s).
  { specialize (I2 r). unfold identOf in I2. rewrite Hreg in I2. simpl in I2.
    destruct (getSound w1 r) as [s1|]; [|discriminate]. exists s1. simpl in I2.
    split; [done|]. split; congruence. }
  destruct Hs1 as (s1 & Hs1 & Hm1 & Hname1).
  assert (Hid1 : map_get "background" (sounds w1) = Some r) by (by rewrite I1).
  destruct (reachable_sound_voice w1 r s1 Hw1 Hs1) as [o Ho].
  destruct (play_starts_sound "background" (background_options gameSettings) w1 ctx r s1 o)
    as (_ & P2 & P3 & _ & _ & _ & P7 & _); try done.
  { by rewrite Hm1. }
  { intros _ cr cs Hcr Hcs.
    assert (Hcr0 : currentMusic w = Some cr) by (destruct I3 as [I3|I3]; congruence).
    specialize (I2 cr). unfold identOf in I2. rewrite Hcs in I2. simpl in I2.
    apply Hcur. unfold getCurrentMusic. rewrite Hcr0.
    destruct (getSound w cr) as [cs0|]; [|discriminate]. simpl in *. congruence. }
  exists ctx. eexists. split; [done|].
  split; [unfold registered; rewrite P2, Hid1; exact P3|].
  split; [reflexivity|]. split.
  - simpl. unfold started_gain, play_volume. simpl. by rewrite Hm1, S4.
  - split.
    + unfold getCurrentMusic. rewrite P7, Hm1, P3. simpl. f_equal.
      rewrite Hname1. apply (registered_named w "background" s Hw).
      unfold registered. by rewrite Hid.
    + intros H0 H1. rewrite clamp_is_clamp01. unfold clamp01.
      destruct (Qle_bool _ 0) eqn:E0; [apply Qle_bool_iff in E0|].
      * assert (Qeq (number_or (GameSettings.musicVolume gameSettings) (8 # 10)) 0)
          as -> by lra. lra.
      * destruct (Qle_bool 1 _) eqn:E1; [apply Qle_bool_iff in E1|]; [|lra].
        assert (Qeq (number_or (GameSettings.musicVolume gameSettings) (8 # 10)) 1)
          as -> by lra. lra.
Qed.

Lemma X29_background_music_witness :
  getCurrentMusic
    (playBackgroundMusic initial_settings true false
       (applySettings initial_settings background_loaded))
  = Some "background".
Proof.
  edestruct (X29_background_music_volume_applied_twice initial_settings background_loaded)
    as (ctx & s2 & _ & _ & _ & _ & H & _);
    [unfold background_loaded; apply reachable_run | vm_compute; reflexivity
    | vm_compute; reflexivity | reflexivity | reflexivity
    | intros other Hc; vm_compute in Hc; discriminate Hc | exact H].
Defined.
